(** * XRF spectrum model (skxray/fitting/xrf_model.py): a shallow embedding

    Numbers.  The program computes with Python floats.  Two idealisations
    are used, each stated where it applies: the lineshape primitive, which
    needs [sqrt] and [ln], is written over the real numbers [R]; everything
    else is written over the rationals [Q], so that it evaluates.  Where the
    program divides numpy arrays (the weights of the pre-fit) a float is a
    rational, an infinity or nan, and a division by zero gives a value and a
    warning, as numpy does, not an exception.

    Errors.  Python exceptions are values of [exn]; a computation is a
    function from a state to a [result] and the state it leaves, so that
    what was mutated before an exception was raised stays visible.

    Boundary.  The fitting framework (lmfit), the Gaussian primitive, the
    physics tables, the default parameter table and the NNLS solver are not
    part of the modelled file.  The part of lmfit the program relies on
    (parameter hints, prefixes, additive composition) is modelled in
    [Module Lmfit]; the others are Section variables. *)

From Stdlib Require Import Ascii QArith Qabs Reals Psatz.
From stdpp Require Import gmap strings list fin_maps.

Local Open Scope string_scope.

(** ** Python exceptions and results *)

Inductive exn : Type :=
  | KeyError (key : string)
  | ValueError (msg : string)
  | TypeError (msg : string)
  | AttributeError (attr : string)
  | UnboundLocalError (var : string).

Inductive result (A : Type) : Type :=
  | Ok (a : A)
  | Raise (e : exn).
Arguments Ok {A} a.
Arguments Raise {A} e.

Definition is_ok {A} (r : result A) : bool :=
  match r with Ok _ => true | Raise _ => false end.

(** A computation over a state [S]: it yields a value or raises, and in both
    cases leaves a state. *)
Definition M (S A : Type) : Type := S → result A * S.

Definition ret {S A} (a : A) : M S A := λ s, (Ok a, s).
Definition raise {S A} (e : exn) : M S A := λ s, (Raise e, s).
Definition bind {S A B} (c : M S A) (k : A → M S B) : M S B :=
  λ s, match c s with
       | (Ok a, s') => k a s'
       | (Raise e, s') => (Raise e, s')
       end.
Definition get_state {S} : M S S := λ s, (Ok s, s).
Definition modify {S} (f : S → S) : M S unit := λ s, (Ok tt, f s).
Definition lift_result {S A} (r : result A) : M S A := λ s, (r, s).

Declare Scope py_scope.
Delimit Scope py_scope with py.
Notation "'do' x <- c ; k" := (bind c (λ x, k))
  (at level 10, x name, c at level 100, k at level 200) : py_scope.
Notation "'do' ' p <- c ; k" := (bind c (λ x, match x with p => k end))
  (at level 10, p pattern, c at level 100, k at level 200) : py_scope.
Notation "c ;; k" := (bind c (λ _, k))
  (at level 100, k at level 200, right associativity) : py_scope.
Local Open Scope py_scope.

(** [for item in l: body item] *)
Fixpoint for_each {S A} (l : list A) (body : A → M S unit) : M S unit :=
  match l with
  | [] => ret tt
  | a :: l' => body a ;; for_each l' body
  end.

(** ** Values of the parameter dictionary *)

(** The dictionary of one fitting parameter.  The keys 'min' and 'max' are the
    fields [vmin] and [vmax]. *)
Record ParameterSpec : Type := {
  bound_type : string;
  value : Q;
  vmin : Q;
  vmax : Q;
  free_more : string;
  adjust_element : string;
  e_calibration : string;
  linear : string
}.

Inductive pyval : Type :=
  | PStr (s : string)
  | PNum (q : Q).

(** An entry of the parameter dictionary: a parameter's dictionary, or the
    dictionary kept under 'non_fitting_values'. *)
Inductive entry : Type :=
  | Spec (s : ParameterSpec)
  | NonFit (nf : gmap string pyval).

Abbreviation ParameterTable := (gmap string entry).

(** Dictionaries are objects: a table lives in the store and is passed by
    reference. *)
Abbreviation loc := positive.

Inductive level : Type := DEBUG | INFO | CRITICAL | STDOUT.

Inductive message : Type :=
  | MsgBound (para_name bound : string) (v lo hi : Q)
  | MsgNoElement
  | MsgNotActivated (ename line : string) (energy : Q)
  | MsgPeak (ename line : string) (energy ratio : Q)
  | MsgText (s : string)
  | MsgConstruct (ename : string).

Record world : Type := {
  heap : gmap loc ParameterTable;
  logs : list (level * message)
}.

Definition emit (l : level) (m : message) : M world unit :=
  modify (λ w, {| heap := heap w; logs := logs w ++ [(l, m)] |}).

Definition deref (r : loc) : M world ParameterTable :=
  λ w, (Ok (heap w !!! r), w).

(** ** Emission-line lists *)

Definition k_line : list string :=
  ["Na"; "Mg"; "Al"; "Si"; "P"; "S"; "Cl"; "Ar"; "K"; "Ca"; "Sc"; "Ti"; "V"; "Cr";
   "Mn"; "Fe"; "Co"; "Ni"; "Cu"; "Zn"; "Ga"; "Ge"; "As"; "Se"; "Br"; "Kr"; "Rb";
   "Sr"; "Y"; "Zr"; "Nb"; "Mo"; "Tc"; "Ru"; "Rh"; "Pd"; "Ag"; "Cd";
   "In"; "Sn"; "Sb"; "Te"; "I"].

Definition l_line : list string :=
  ["Ga_L"; "Ge_L"; "As_L"; "Se_L"; "Br_L"; "Kr_L"; "Rb_L"; "Sr_L"; "Y_L"; "Zr_L"; "Nb_L";
   "Mo_L"; "Tc_L"; "Ru_L"; "Rh_L"; "Pd_L"; "Ag_L"; "Cd_L"; "In_L"; "Sn_L"; "Sb_L"; "Te_L";
   "I_L"; "Xe_L"; "Cs_L"; "Ba_L"; "La_L"; "Ce_L"; "Pr_L"; "Nd_L"; "Pm_L"; "Sm_L"; "Eu_L";
   "Gd_L"; "Tb_L"; "Dy_L"; "Ho_L"; "Er_L"; "Tm_L"; "Yb_L"; "Lu_L"; "Hf_L"; "Ta_L"; "W_L";
   "Re_L"; "Os_L"; "Ir_L"; "Pt_L"; "Au_L"; "Hg_L"; "Tl_L"; "Pb_L"; "Bi_L"; "Po_L"; "At_L";
   "Rn_L"; "Fr_L"; "Ac_L"; "Th_L"; "Pa_L"; "U_L"; "Np_L"; "Pu_L"; "Am_L"].

Definition m_line : list string :=
  ["Hf_M"; "Ta_M"; "W_M"; "Re_M"; "Os_M"; "Ir_M"; "Pt_M"; "Au_M"; "Hg_M"; "TL_M"; "Pb_M"; "Bi_M";
   "Sm_M"; "Eu_M"; "Gd_M"; "Tb_M"; "Dy_M"; "Ho_M"; "Er_M"; "Tm_M"; "Yb_M"; "Lu_M"; "Th_M"; "Pa_M"; "U_M"].

(** [item in l] for a list of strings *)
Definition str_in (s : string) (l : list string) : bool := bool_decide (s ∈ l).

(** ** The per-line peak lineshape, over the reals *)

Section Lineshape.
Local Open Scope R_scope.

  (** skxray.fitting.lineshapes.gaussian(x, area, center, sigma), applied to
      an array. *)
Variable gaussian : list R → R → R → R → list R.

(** [np.sqrt] of a negative number is nan; what is proved of the width is
    stated where the number under the root is not negative. *)
Definition get_sigma (fwhm_offset fwhm_fanoprime epsilon center : R) : R :=
    let temp_val := 2 * sqrt (2 * ln 2) in
    sqrt ((fwhm_offset / temp_val) ^ 2 + center * epsilon * fwhm_fanoprime).

  (** The keyword argument [epsilon=2.96] is [None] when the caller leaves
      it out. *)
Definition element_peak_xrf (x : list R) (area center delta_center delta_sigma
      ratio ratio_adjust fwhm_offset fwhm_fanoprime e_offset e_linear e_quadratic : R)
      (epsilon : option R) : list R :=
    let epsilon := default 2.96 epsilon in
    let x := (λ xi, e_offset + xi * e_linear + xi ^ 2 * e_quadratic) <$> x in
    (λ g, g * ratio * ratio_adjust) <$>
      gaussian x area (center + delta_center)
               (delta_sigma + get_sigma fwhm_offset fwhm_fanoprime epsilon center).

End Lineshape.

(** ** The part of lmfit the program relies on

    A model has a prefix and a dictionary of parameter hints, keyed by the
    parameter's name without the prefix.  [set_param_hint] removes the
    model's prefix from the name when the name starts with it, creates the
    hint when it is absent, and overwrites the keys it is given; the keys it
    is not given stay as they were. *)
Module Lmfit.

Record Hint : Type := {
    h_value : option Q;
    h_vary : option bool;
    h_min : option Q;
    h_max : option Q;
    h_expr : option string
  }.

Definition no_hint : Hint :=
    {| h_value := None; h_vary := None; h_min := None; h_max := None; h_expr := None |}.

Record Model : Type := {
    func : string;
    prefix : string;
    param_hints : gmap string Hint
  }.

  (** [s[len(p):]] when [s.startswith(p)] *)
Fixpoint strip_prefix (p s : string) : option string :=
    match p, s with
    | EmptyString, _ => Some s
    | String c p', String d s' => if decide (c = d) then strip_prefix p' s' else None
    | String _ _, EmptyString => None
    end.

Definition hint_name (m : Model) (name : string) : string :=
    match prefix m with
    | EmptyString => name
    | String _ _ => default name (strip_prefix (prefix m) name)
    end.

Definition or_else {A} (new old : option A) : option A :=
    match new with Some _ => new | None => old end.

Definition merge_hint (kw old : Hint) : Hint :=
    {| h_value := or_else (h_value kw) (h_value old);
       h_vary := or_else (h_vary kw) (h_vary old);
       h_min := or_else (h_min kw) (h_min old);
       h_max := or_else (h_max kw) (h_max old);
       h_expr := or_else (h_expr kw) (h_expr old) |}.

Definition set_param_hint (m : Model) (name : string) (kw : Hint) : Model :=
    let n := hint_name m name in
    {| func := func m; prefix := prefix m;
       param_hints := <[n := merge_hint kw (default no_hint (param_hints m !! n))]>
                        (param_hints m) |}.

  (** [make_params]: the parameters of a model under their full names, with
      the hinted value, bounds and expression. *)
Definition make_params (m : Model) : gmap string Hint :=
    kmap (String.append (prefix m)) (param_hints m).

  (** Models composed with [+], in the order of composition. *)
Inductive CModel : Type :=
    | Single (m : Model)
    | Plus (l r : CModel).

Fixpoint components (c : CModel) : list Model :=
    match c with
    | Single m => [m]
    | Plus l r => components l ++ components r
    end.

  (** [left + right].  The right operand has to be a model: adding [None]
      (what a function without a model returns) raises. *)
Definition add (l : CModel) (r : option CModel) : result CModel :=
    match r with
    | Some r => Ok (Plus l r)
    | None => Raise (ValueError "CompositeModel: argument None is not a Model")
    end.

  (** Keyword arguments of [set_param_hint]. *)
Definition kw_value_vary (v : Q) (vary : bool) : Hint :=
    {| h_value := Some v; h_vary := Some vary; h_min := None; h_max := None;
       h_expr := None |}.

End Lmfit.
Import Lmfit.

(** ** Parameter hints from the parameter dictionary *)

Definition _set_parameter_hint (para_name : string) (input_dict : ParameterSpec)
    (input_model : Model) (log_option : bool) : M world Model :=
  do input_model <-
    (if String.eqb (bound_type input_dict) "none" then
       ret (set_param_hint input_model para_name
              {| h_value := Some (value input_dict); h_vary := Some true;
                 h_min := None; h_max := None; h_expr := None |})
     else if String.eqb (bound_type input_dict) "fixed" then
       ret (set_param_hint input_model para_name
              {| h_value := Some (value input_dict); h_vary := Some false;
                 h_min := None; h_max := None; h_expr := None |})
     else if String.eqb (bound_type input_dict) "lohi" then
       ret (set_param_hint input_model para_name
              {| h_value := Some (value input_dict); h_vary := Some true;
                 h_min := Some (vmin input_dict); h_max := Some (vmax input_dict);
                 h_expr := None |})
     else if String.eqb (bound_type input_dict) "lo" then
       ret (set_param_hint input_model para_name
              {| h_value := Some (value input_dict); h_vary := Some true;
                 h_min := Some (vmin input_dict); h_max := None; h_expr := None |})
     else if String.eqb (bound_type input_dict) "hi" then
       ret (set_param_hint input_model para_name
              {| h_value := Some (value input_dict); h_vary := Some true;
                 h_min := Some (vmax input_dict); h_max := None; h_expr := None |})
     else raise (ValueError ("could not set values for " +:+ para_name)));
  (if log_option then
     emit INFO (MsgBound para_name (bound_type input_dict) (value input_dict)
                         (vmin input_dict) (vmax input_dict))
   else ret tt) ;;
  ret input_model.

(** ** String operations used by the program *)

(** [needle in s] *)
Fixpoint str_contains (needle s : string) : bool :=
  String.prefix needle s ||
  match s with
  | EmptyString => false
  | String _ s' => str_contains needle s'
  end.

(** [s[0:-n]] *)
Definition drop_end (n : nat) (s : string) : string :=
  String.substring 0 (String.length s - n) s.

(** [s.split(sep)] for a separator that is not empty: [cur] is the piece being
    read, [skip] the characters of a separator still to pass. *)
Fixpoint split_aux (sep s cur : string) (skip : nat) : list string :=
  match s with
  | EmptyString => [cur]
  | String c s' =>
      match skip with
      | S k => split_aux sep s' cur k
      | O => if String.prefix sep s
             then cur :: split_aux sep s' "" (String.length sep - 1)
             else split_aux sep s' (cur +:+ String c "") 0
      end
  end.

Definition split_sep (sep s : string) : list string := split_aux sep s "" 0.

Definition is_space (c : ascii) : bool :=
  let n := nat_of_ascii c in (n =? 32)%nat || ((9 <=? n)%nat && (n <=? 13)%nat).

(** [s.split()]: the pieces between runs of white space, none of them empty. *)
Fixpoint split_ws_aux (s cur : string) : list string :=
  match s with
  | EmptyString => if String.eqb cur "" then [] else [cur]
  | String c s' =>
      if is_space c
      then (if String.eqb cur "" then split_ws_aux s' "" else cur :: split_ws_aux s' "")
      else split_ws_aux s' (cur +:+ String c "")
  end.

Definition split_ws (s : string) : list string := split_ws_aux s "".

Fixpoint lstrip (s : string) : string :=
  match s with
  | EmptyString => ""
  | String c s' => if is_space c then lstrip s' else s
  end.

(** [s.strip()] *)
Definition strip (s : string) : string :=
  String.rev (lstrip (String.rev (lstrip s))).

(** ** Dictionary access *)

Notation "'let*' x := c 'in' k" :=
  (match c with Ok x => k | Raise e => Raise e end)
  (at level 10, x name, c at level 100, k at level 200) : py_scope.

(** [d[k]] *)
Definition getitem {V} (d : gmap string V) (k : string) : result V :=
  match d !! k with
  | Some v => Ok v
  | None => Raise (KeyError k)
  end.

(** [d.has_key(k)], [k in d.keys()] *)
Definition has_key {V} (d : gmap string V) (k : string) : bool :=
  bool_decide (is_Some (d !! k)).

(** An entry read as a dictionary. *)
Definition entry_get (e : entry) (k : string) : option pyval :=
  match e with
  | NonFit nf => nf !! k
  | Spec s =>
      if String.eqb k "bound_type" then Some (PStr (bound_type s))
      else if String.eqb k "value" then Some (PNum (value s))
      else if String.eqb k "min" then Some (PNum (vmin s))
      else if String.eqb k "max" then Some (PNum (vmax s))
      else if String.eqb k "free_more" then Some (PStr (free_more s))
      else if String.eqb k "adjust_element" then Some (PStr (adjust_element s))
      else if String.eqb k "e_calibration" then Some (PStr (e_calibration s))
      else if String.eqb k "linear" then Some (PStr (linear s))
      else None
  end.

(** An entry handed to [_set_parameter_hint], which reads 'bound_type'
    first: the metadata dictionary has no such key. *)
Definition as_spec (e : entry) : result ParameterSpec :=
  match e with
  | Spec s => Ok s
  | NonFit _ => Raise (KeyError "bound_type")
  end.

Definition set_value (v : Q) (s : ParameterSpec) : ParameterSpec :=
  {| bound_type := bound_type s; value := v; vmin := vmin s; vmax := vmax s;
     free_more := free_more s; adjust_element := adjust_element s;
     e_calibration := e_calibration s; linear := linear s |}.

Definition set_adjust_element (o : string) (s : ParameterSpec) : ParameterSpec :=
  {| bound_type := bound_type s; value := value s; vmin := vmin s; vmax := vmax s;
     free_more := free_more s; adjust_element := o;
     e_calibration := e_calibration s; linear := linear s |}.

(** ** update_parameter_dict

    [fit_results.values] is a dictionary from parameter names to fitted
    values.  The table is updated in place.  This is the update as it is
    seen through the table it is made on, with the entries by value; the
    entries as objects, which a table shares with its shallow copies, are in
    the section 'Entries as objects'. *)
Definition update_entry (values : gmap string Q) (k : string) (e : entry) : entry :=
  match values !! k with
  | Some v =>
      match e with
      | Spec s => Spec (set_value v s)
      | NonFit nf => NonFit (<["value" := PNum v]> nf)
      end
  | None => e
  end.

Definition update_parameter_dict (xrf_parameter : loc) (values : gmap string Q)
    : M world unit :=
  modify (λ w, {| heap := <[xrf_parameter :=
                              map_imap (λ k e, Some (update_entry values k e))
                                       (heap w !!! xrf_parameter)]> (heap w);
                  logs := logs w |}).

(** ** The per-element templates and the element controller *)

Definition element_dict : gmap string ParameterSpec :=
  {[ "pos" := {| bound_type := "fixed"; vmin := -0.005; vmax := 0.005; value := 0;
                 free_more := "fixed"; adjust_element := "lohi";
                 e_calibration := "fixed"; linear := "fixed" |};
     "width" := {| bound_type := "fixed"; vmin := -0.02; vmax := 0.02; value := 0.0;
                   free_more := "fixed"; adjust_element := "lohi";
                   e_calibration := "fixed"; linear := "fixed" |};
     "area" := {| bound_type := "none"; vmin := 0; vmax := 1e9; value := 1000;
                  free_more := "none"; adjust_element := "fixed";
                  e_calibration := "fixed"; linear := "none" |};
     "ratio" := {| bound_type := "fixed"; vmin := 0.1; vmax := 5.0; value := 1.0;
                   free_more := "fixed"; adjust_element := "lohi";
                   e_calibration := "fixed"; linear := "fixed" |} ]}.

(** [element_dict[k].copy()] for the four keys the program uses. *)
Definition template (k : string) : ParameterSpec :=
  default {| bound_type := ""; vmin := 0; vmax := 0; value := 0; free_more := "";
             adjust_element := ""; e_calibration := ""; linear := "" |}
          (element_dict !! k).

Definition get_L_line (prop_name element : string) : list string :=
  let l_list := ["la1"; "la2"; "lb1"; "lb2"; "lb3"; "lg1"; "lg2"; "ll"] in
  (λ item, prop_name +:+ "-" +:+ element +:+ "-" +:+ item) <$> l_list.

Record ElementController : Type := {
  new_parameter : ParameterTable;
  element_name : list string
}.

(** [xrf_parameter.copy()] is a new dictionary with the same entries; the
    controller only rebinds keys of its copy. *)
Definition ElementController_init (xrf_parameter : ParameterTable)
    (fit_name : list string) : ElementController :=
  {| new_parameter := xrf_parameter;
     element_name := drop_end 5 <$> filter (λ item, str_contains "area" item = true) fit_name |}.

(** [if option:] for an optional string *)
Definition truthy (option : option string) : bool :=
  match option with
  | Some s => negb (String.eqb s "")
  | None => false
  end.

(** The body shared by the loops of the four setters: a copy of the template
    with 'adjust_element' replaced when an option is given, stored under
    [linename]. *)
Definition put_template (prop linename : string) (option : option string)
    (self : ElementController) : ElementController :=
  let new_val := template prop in
  let new_val := if truthy option
                 then set_adjust_element (default "" option) new_val
                 else new_val in
  {| new_parameter := <[linename := Spec new_val]> (new_parameter self);
     element_name := element_name self |}.

(** [linename.split('-')[1]+'_'+linename.split('-')[2]] *)
Definition linev_of (linename : string) : string :=
  let parts := split_sep "-" linename in
  nth 1 parts "" +:+ "_" +:+ nth 2 parts "".

Definition put_known_L (prop : string) (option : option string)
    (self : ElementController) (linename : string) : ElementController :=
  if str_in (linev_of linename) (element_name self)
  then put_template prop linename option self
  else self.

Definition set_position (item : string) (option : option string)
    (self : ElementController) : ElementController :=
  if str_in item k_line then
    let pos_list := [item +:+ "_ka1_delta_center"; item +:+ "_ka2_delta_center";
                     item +:+ "_kb1_delta_center"] in
    foldl (λ self linename, put_template "pos" linename option self) self pos_list
  else if str_in item l_line then
    let item := drop_end 2 item in
    foldl (put_known_L "pos" option) self (get_L_line "pos" item)
  else self.

Definition set_width (item : string) (option : option string)
    (self : ElementController) : ElementController :=
  if str_in item k_line then
    let width_list := [item +:+ "_ka1_delta_sigma"; item +:+ "_ka2_delta_sigma";
                       item +:+ "_kb1_delta_sigma"] in
    foldl (λ self linename, put_template "width" linename option self) self width_list
  else if str_in item l_line then
    let item := drop_end 2 item in
    foldl (put_known_L "width" option) self (get_L_line "width" item)
  else self.

Definition set_area (item : string) (option : option string)
    (self : ElementController) : ElementController :=
  if str_in item k_line then
    let area_list := [item +:+ "_ka1_area"] in
    foldl (λ self linename, put_template "area" linename option self) self area_list
  else if str_in item l_line then
    let item := drop_end 2 item in
    foldl (put_known_L "area" option) self (get_L_line "area" item)
  else self.

Definition set_ratio (item : string) (option : option string)
    (self : ElementController) : ElementController :=
  if str_in item k_line then
    let data_list := [item +:+ "_kb1_ratio_adjust"] in
    foldl (λ self linename, put_template "ratio" linename option self) self data_list
  else if str_in item l_line then
    let item := drop_end 2 item in
    foldl (λ self linename,
             if str_contains "la1" linename then self
             else put_known_L "ratio" option self linename)
          self (get_L_line "ratio" item)
  else self.

(** [set_val(element_list, **kws)]: [kws] in the order the dictionary yields
    its items. *)
Definition set_val (element_list : list string) (kws : list (string * string))
    : M ElementController ParameterTable :=
  for_each kws (λ kv,
    do func <-
      (if String.eqb kv.1 "pos" then ret set_position
       else if String.eqb kv.1 "width" then ret set_width
       else if String.eqb kv.1 "area" then ret set_area
       else if String.eqb kv.1 "ratio" then ret set_ratio
       else raise (ValueError "Please define either pos, width or area."));
    for_each element_list (λ element, modify (func element (Some kv.2)))) ;;
  do self <- get_state;
  ret (new_parameter self).

(** ** get_sum_area *)

Definition get_value (values : gmap string Q) (element_name line_name : string)
    : result Q :=
  let* a := getitem values (element_name +:+ "_" +:+ line_name +:+ "_area") in
  let* r := getitem values (element_name +:+ "_" +:+ line_name +:+ "_ratio") in
  let* ra := getitem values (element_name +:+ "_" +:+ line_name +:+ "_ratio_adjust") in
  Ok (a * r * ra)%Q.

(** The local variable [sum] is bound only in the K branch; [None] is the
    unbound variable. *)
Definition get_sum_area (element_name : string) (values : gmap string Q) : result Q :=
  let* sum :=
    (if str_in element_name k_line then
       let* a := get_value values element_name "ka1" in
       let* b := get_value values element_name "ka2" in
       let* c := get_value values element_name "kb1" in
       let sum := (a + b + c)%Q in
       if has_key values (element_name +:+ "_kb2_area") then
         let* d := get_value values element_name "kb2" in
         Ok (Some (sum + d)%Q)
       else Ok (Some sum)
     else Ok None) in
  match sum with
  | Some sum => Ok sum
  | None => Raise (UnboundLocalError "sum")
  end.

(** ** ModelSpectrum *)

(** The attributes of an instance; [None] is an attribute that has not been
    assigned.  [self_mod] is the attribute [mod]. *)
Record ModelSpectrum : Type := {
  parameter : loc;
  parameter_default : ParameterTable;
  element_list : option (list string);
  incident_energy : option Q;
  compton_param : option (gmap string Hint);
  compton : option Model;
  elastic : option Model;
  self_mod : option CModel
}.

(** A method runs on the instance and the world. *)
Abbreviation Meth := (M (ModelSpectrum * world)).

Definition lift_w {A} (c : M world A) : Meth A :=
  λ sw, match c sw.2 with (r, w') => (r, (sw.1, w')) end.

Definition self : Meth ModelSpectrum := λ sw, (Ok sw.1, sw).

Definition set_self (f : ModelSpectrum → ModelSpectrum) : Meth unit :=
  modify (λ sw, (f sw.1, sw.2)).

(** [self.attr], an AttributeError when it has not been assigned *)
Definition getattr {A} (proj : ModelSpectrum → option A) (attr : string) : Meth A :=
  do s <- self;
  match proj s with
  | Some a => ret a
  | None => raise (AttributeError attr)
  end.

Definition set_element_list (v : list string) (s : ModelSpectrum) : ModelSpectrum :=
  {| parameter := parameter s; parameter_default := parameter_default s;
     element_list := Some v; incident_energy := incident_energy s;
     compton_param := compton_param s; compton := compton s; elastic := elastic s;
     self_mod := self_mod s |}.

Definition set_incident_energy (v : Q) (s : ModelSpectrum) : ModelSpectrum :=
  {| parameter := parameter s; parameter_default := parameter_default s;
     element_list := element_list s; incident_energy := Some v;
     compton_param := compton_param s; compton := compton s; elastic := elastic s;
     self_mod := self_mod s |}.

Definition set_compton (p : gmap string Hint) (c : Model) (s : ModelSpectrum)
    : ModelSpectrum :=
  {| parameter := parameter s; parameter_default := parameter_default s;
     element_list := element_list s; incident_energy := incident_energy s;
     compton_param := Some p; compton := Some c; elastic := elastic s;
     self_mod := self_mod s |}.

Definition set_elastic (e : Model) (s : ModelSpectrum) : ModelSpectrum :=
  {| parameter := parameter s; parameter_default := parameter_default s;
     element_list := element_list s; incident_energy := incident_energy s;
     compton_param := compton_param s; compton := compton s; elastic := Some e;
     self_mod := self_mod s |}.

Definition set_mod (m : CModel) (s : ModelSpectrum) : ModelSpectrum :=
  {| parameter := parameter s; parameter_default := parameter_default s;
     element_list := element_list s; incident_energy := incident_energy s;
     compton_param := compton_param s; compton := compton s; elastic := elastic s;
     self_mod := Some m |}.

(** A loop that carries a value from one iteration to the next. *)
Fixpoint fold_m {S A B} (body : B → A → M S B) (l : list A) (acc : B) : M S B :=
  match l with
  | [] => ret acc
  | a :: l' => do acc <- body acc a; fold_m body l' acc
  end.

Definition compton_list : list string :=
  ["coherent_sct_energy"; "compton_amplitude";
   "compton_angle"; "fwhm_offset"; "fwhm_fanoprime";
   "e_offset"; "e_linear"; "e_quadratic";
   "compton_gamma"; "compton_f_tail";
   "compton_f_step"; "compton_fwhm_corr";
   "compton_hi_gamma"; "compton_hi_f_tail"].

(** [model.set_param_hint(name, value=compton_param[name].value, expr=name)] *)
Definition tie (cp : gmap string Hint) (name : string) (m : Model) : result Model :=
  let* p := getitem cp name in
  Ok (set_param_hint m name
        {| h_value := h_value p; h_vary := None; h_min := None; h_max := None;
           h_expr := Some name |}).

Definition tie_all (cp : gmap string Hint) (names : list string) (m : Model)
    : result Model :=
  foldl (λ r name, let* m := r in tie cp name m) (Ok m) names.

(** [ElementModel(prefix=p)]: the constructor fixes [epsilon]. *)
Definition ElementModel (p : string) : Model :=
  set_param_hint {| func := "element_peak_xrf"; prefix := p; param_hints := ∅ |}
                 "epsilon" (kw_value_vary 2.96 false).

Definition kw_expr (v : Q) (vary : bool) (e : string) : Hint :=
  {| h_value := Some v; h_vary := Some vary; h_min := None; h_max := None;
     h_expr := Some e |}.

Section Model.

(** The default parameter table, [get_para()]. *)
Variable get_para : ParameterTable.
(** [Element(name).emission_line.all] and [Element(name).cs(energy)[line]]. *)
Variable emission_line_all : string → list (string * Q).
Variable cs : string → Q → string → Q.
(** The hints [ComptonModel()] and [ElasticModel(prefix=...)] start with. *)
Variable compton_hints0 : gmap string Hint.
Variable elastic_hints0 : gmap string Hint.

Definition ComptonModel : Model :=
  {| func := "compton"; prefix := ""; param_hints := compton_hints0 |}.

Definition ElasticModel (p : string) : Model :=
  {| func := "elastic"; prefix := p; param_hints := elastic_hints0 |}.

(** [_set_parameter_hint(name, table[key], model, log_option)], the table
    read through the instance's reference. *)
Definition hint_from (tbl : ParameterTable) (key name : string) (m : Model)
    (log_option : bool) : Meth Model :=
  do e <- lift_result (getitem tbl key);
  do d <- lift_result (as_spec e);
  lift_w (_set_parameter_hint name d m log_option).

Definition setComptonModel : Meth unit :=
  let compton := ComptonModel in
  lift_w (emit DEBUG (MsgText " ###### Started setting up parameters for compton model. ######")) ;;
  do compton <- fold_m (λ compton name,
      do s <- self;
      do tbl <- lift_w (deref (parameter s));
      if has_key tbl name
      then hint_from tbl name name compton false
      else hint_from (parameter_default s) name name compton false)
    compton_list compton;
  lift_w (emit DEBUG (MsgText " Finished setting up parameters for compton model.")) ;;
  set_self (set_compton (make_params compton) compton).

Definition setElasticModel : Meth unit :=
  let elastic := ElasticModel "elastic_" in
  let item := "coherent_sct_amplitude" in
  do s <- self;
  do tbl <- lift_w (deref (parameter s));
  do elastic <-
    (if has_key tbl item
     then hint_from tbl item item elastic false
     else hint_from (parameter_default s) item item elastic false);
  lift_w (emit DEBUG (MsgText " ###### Started setting up parameters for elastic model. ######")) ;;
  do cp <- getattr compton_param "compton_param";
  do elastic <- lift_result
    (tie_all cp ["e_offset"; "e_linear"; "e_quadratic"; "fwhm_offset";
                 "fwhm_fanoprime"; "coherent_sct_energy"] elastic);
  lift_w (emit DEBUG (MsgText " Finished setting up parameters for elastic model.")) ;;
  set_self (set_elastic elastic).

Definition _config : Meth unit :=
  do s <- self;
  do tbl <- lift_w (deref (parameter s));
  do non_fit <- lift_result (getitem tbl "non_fitting_values");
  (match entry_get non_fit "element_list" with
   | Some (PStr el) =>
       let l := if str_contains "," el then split_sep ", " el else split_ws el in
       set_self (set_element_list (strip <$> l))
   | Some (PNum _) => raise (TypeError "argument of type 'float' is not iterable")
   | None => lift_w (emit CRITICAL MsgNoElement)
   end) ;;
  do tbl <- lift_w (deref (parameter s));
  do e <- lift_result (getitem tbl "coherent_sct_energy");
  do v <- (match entry_get e "value" with
           | Some (PNum v) => ret v
           | Some (PStr _) => raise (TypeError "incident energy is not a number")
           | None => raise (KeyError "value")
           end);
  set_self (set_incident_energy v) ;;
  setComptonModel ;;
  setElasticModel.

(** [ModelSpectrum(xrf_parameter)]: the instance exists for the caller only
    when [__init__] returns. *)
Definition ModelSpectrum_init (xrf_parameter : loc) : M world ModelSpectrum :=
  λ w,
    let s := {| parameter := xrf_parameter; parameter_default := get_para;
                element_list := None; incident_energy := None; compton_param := None;
                compton := None; elastic := None; self_mod := None |} in
    match _config (s, w) with
    | (Ok _, (s', w')) => (Ok s', w')
    | (Raise e, (_, w')) => (Raise e, w')
    end.

(** The five global parameters every line model shares with the Compton
    model. *)
Definition global_names : list string :=
  ["e_offset"; "e_linear"; "e_quadratic"; "fwhm_offset"; "fwhm_fanoprime"].

(** [if parameter.has_key(key): _set_parameter_hint(name, parameter[key],
    gauss_mod, log_option=True)] *)
Definition override (key name : string) (m : Model) : Meth Model :=
  do s <- self;
  do parameter <- lift_w (deref (parameter s));
  if has_key parameter key then hint_from parameter key name m true else ret m.

(** [if element_mod: element_mod += gauss_mod else: element_mod = gauss_mod] *)
Definition accumulate (element_mod : option CModel) (gauss_mod : Model)
    : Meth (option CModel) :=
  match element_mod with
  | Some em => do c <- lift_result (add em (Some (Single gauss_mod))); ret (Some c)
  | None => ret (Some (Single gauss_mod))
  end.

(** One iteration of the K loop. *)
Definition k_step (ename : string) (incident_energy : Q)
    (element_mod : option CModel) (item : string * Q) : Meth (option CModel) :=
  let line_name := item.1 in
  let val := item.2 in
  if Qeq_bool (cs ename incident_energy line_name) 0 then ret element_mod
  else
    let gauss_mod := ElementModel (ename +:+ "_" +:+ line_name +:+ "_") in
    do cp <- getattr compton_param "compton_param";
    do gauss_mod <- lift_result (tie_all cp global_names gauss_mod);
    let gauss_mod :=
      if String.eqb line_name "ka1" then
        let g := set_param_hint gauss_mod "area"
                   {| h_value := Some 1e5%Q; h_vary := Some true; h_min := Some 0%Q;
                      h_max := None; h_expr := None |} in
        let g := set_param_hint g "delta_center" (kw_value_vary 0 false) in
        set_param_hint g "delta_sigma" (kw_value_vary 0 false)
      else if String.eqb line_name "ka2" then
        let g := set_param_hint gauss_mod "area"
                   (kw_expr 1e5 true (ename +:+ "_ka1_" +:+ "area")) in
        let g := set_param_hint g "delta_sigma"
                   (kw_expr 0 false (ename +:+ "_ka1_" +:+ "delta_sigma")) in
        set_param_hint g "delta_center"
                   (kw_expr 0 false (ename +:+ "_ka1_" +:+ "delta_center"))
      else
        let g := set_param_hint gauss_mod "area"
                   (kw_expr 1e5 true (ename +:+ "_ka1_" +:+ "area")) in
        let g := set_param_hint g "delta_center" (kw_value_vary 0 false) in
        set_param_hint g "delta_sigma" (kw_value_vary 0 false) in
    let area_name := ename +:+ "_" +:+ line_name +:+ "_area" in
    do gauss_mod <- override area_name area_name gauss_mod;
    let gauss_mod := set_param_hint gauss_mod "center" (kw_value_vary val false) in
    let ratio_v := (cs ename incident_energy line_name / cs ename incident_energy "ka1")%Q in
    let gauss_mod := set_param_hint gauss_mod "ratio" (kw_value_vary ratio_v false) in
    let gauss_mod := set_param_hint gauss_mod "ratio_adjust" (kw_value_vary 1 false) in
    lift_w (emit INFO (MsgPeak ename line_name val ratio_v)) ;;
    do gauss_mod <- override (ename +:+ "_" +:+ line_name +:+ "_delta_center")
                             "delta_center" gauss_mod;
    do gauss_mod <- override (ename +:+ "_" +:+ line_name +:+ "_delta_sigma")
                             "delta_sigma" gauss_mod;
    do gauss_mod <- override (ename +:+ "_" +:+ line_name +:+ "_ratio_adjust")
                             "ratio_adjust" gauss_mod;
    accumulate element_mod gauss_mod.

(** One iteration of the L loop. *)
Definition l_step (ename : string) (incident_energy : Q)
    (element_mod : option CModel) (item : string * Q) : Meth (option CModel) :=
  let line_name := item.1 in
  let val := item.2 in
  if Qeq_bool (cs ename incident_energy line_name) 0 then ret element_mod
  else
    let gauss_mod := ElementModel (ename +:+ "_" +:+ line_name +:+ "_") in
    do cp <- getattr compton_param "compton_param";
    do gauss_mod <- lift_result (tie_all cp global_names gauss_mod);
    let gauss_mod :=
      if String.eqb line_name "la1" then
        set_param_hint gauss_mod "area" (kw_value_vary 1e5 true)
      else
        set_param_hint gauss_mod "area"
                       (kw_expr 1e5 true (ename +:+ "_la1_" +:+ "area")) in
    let gauss_mod := set_param_hint gauss_mod "center" (kw_value_vary val false) in
    let gauss_mod := set_param_hint gauss_mod "sigma" (kw_value_vary 1 false) in
    let gauss_mod := set_param_hint gauss_mod "ratio"
        (kw_value_vary (cs ename incident_energy line_name
                        / cs ename incident_energy "la1")%Q false) in
    let gauss_mod := set_param_hint gauss_mod "delta_center" (kw_value_vary 0 false) in
    let gauss_mod := set_param_hint gauss_mod "delta_sigma" (kw_value_vary 0 false) in
    let gauss_mod := set_param_hint gauss_mod "ratio_adjust" (kw_value_vary 1 false) in
    do gauss_mod <- override (ename +:+ "_" +:+ line_name +:+ "_delta_center")
                             "delta_center" gauss_mod;
    do gauss_mod <- override (ename +:+ "_" +:+ line_name +:+ "_delta_sigma")
                             "delta_sigma" gauss_mod;
    do gauss_mod <- override (ename +:+ "_" +:+ line_name +:+ "_ratio_adjust")
                             "ratio_adjust" gauss_mod;
    accumulate element_mod gauss_mod.

(** One iteration of the M loop. *)
Definition m_step (ename : string) (incident_energy : Q)
    (element_mod : option CModel) (item : string * Q) : Meth (option CModel) :=
  let line_name := item.1 in
  let val := item.2 in
  if Qeq_bool (cs ename incident_energy line_name) 0 then ret element_mod
  else
    let gauss_mod := ElementModel (ename +:+ "_" +:+ line_name +:+ "_") in
    do cp <- getattr compton_param "compton_param";
    do gauss_mod <- lift_result (tie_all cp global_names gauss_mod);
    let gauss_mod :=
      if String.eqb line_name "ma1" then
        set_param_hint gauss_mod "area" (kw_value_vary 100 true)
      else
        set_param_hint gauss_mod "area"
                       (kw_expr 100 true (ename +:+ "_ma1_" +:+ "area")) in
    let gauss_mod := set_param_hint gauss_mod "center" (kw_value_vary val false) in
    let gauss_mod := set_param_hint gauss_mod "sigma" (kw_value_vary 1 false) in
    let gauss_mod := set_param_hint gauss_mod "ratio" (kw_value_vary 0.1 false) in
    let gauss_mod := set_param_hint gauss_mod "delta_center" (kw_value_vary 0 false) in
    let gauss_mod := set_param_hint gauss_mod "delta_sigma" (kw_value_vary 0 false) in
    let gauss_mod := set_param_hint gauss_mod "ratio_adjust" (kw_value_vary 1 false) in
    accumulate element_mod gauss_mod.

(** [setElementModel(ename)]: [None] is Python's [None], returned by the
    bare [return] and when no line gave a model. *)
Definition setElementModel (ename : string) : Meth (option CModel) :=
  do incident_energy <- getattr incident_energy "incident_energy";
  if str_in ename k_line then
    if Qeq_bool (cs ename incident_energy "ka1") 0 then
      lift_w (emit INFO (MsgNotActivated ename "Ka" incident_energy)) ;;
      ret None
    else
      lift_w (emit DEBUG (MsgText (" --- Started building " +:+ ename +:+ " peak. ---"))) ;;
      do element_mod <- fold_m (k_step ename incident_energy)
                               (take 4 (emission_line_all ename)) None;
      lift_w (emit DEBUG (MsgText (" Finished building element peak for " +:+ ename))) ;;
      ret element_mod
  else if str_in ename l_line then
    let ename := drop_end 2 ename in
    if Qeq_bool (cs ename incident_energy "la1") 0 then
      lift_w (emit INFO (MsgNotActivated ename "La1" incident_energy)) ;;
      ret None
    else
      let all := emission_line_all ename in
      fold_m (l_step ename incident_energy)
             (take (length all - 4 - 4) (drop 4 all)) None
  else if str_in ename m_line then
    let ename := drop_end 2 ename in
    if Qeq_bool (cs ename incident_energy "ma1") 0 then
      lift_w (emit INFO (MsgNotActivated ename "ma1" incident_energy)) ;;
      ret None
    else
      let all := emission_line_all ename in
      fold_m (m_step ename incident_energy) (drop (length all - 4) all) None
  else ret None.

(** [model_spectrum()]: [self.mod += self.setElementModel(ename)] adds
    whatever the call returns. *)
Definition model_spectrum : Meth unit :=
  do c <- getattr compton "compton";
  do e <- getattr elastic "elastic";
  do m <- lift_result (add (Single c) (Some (Single e)));
  set_self (set_mod m) ;;
  do el <- getattr element_list "element_list";
  for_each el (λ ename,
    lift_w (emit STDOUT (MsgConstruct ename)) ;;
    do cur <- getattr self_mod "mod";
    do em <- setElementModel ename;
    do m <- lift_result (add cur em);
    set_self (set_mod m)).

(** The selection loop of [get_linear_model]: the elements whose model is
    not [None], with their models. *)
Definition get_linear_model_select (param_dict : loc)
    : M world (list string * list CModel) :=
  do MS <- ModelSpectrum_init param_dict;
  λ w,
    match
      (do elist <- getattr element_list "element_list";
       fold_m (λ acc ename,
                 do e_model <- setElementModel ename;
                 match e_model with
                 | Some m => ret ((acc.1 ++ [ename])%list, (acc.2 ++ [m])%list)
                 | None => ret acc
                 end) elist (([], []) : list string * list CModel)) (MS, w)
    with
    | (r, (_, w')) => (r, w')
    end.

End Model.

(** ** set_range *)

Definition Qltb (a b : Q) : bool := negb (Qle_bool b a).

(** [v * 100]: a number is multiplied, a string repeated. *)
Definition times_100 (v : pyval) : pyval :=
  match v with
  | PNum q => PNum (q * 100)%Q
  | PStr s => PStr (fold_right String.append "" (replicate 100 s))
  end.

(** [x > v] and [x < v] for a number [x]: against a string, Python 2 orders
    every number below it. *)
Definition num_gt (x : Q) (v : pyval) : bool :=
  match v with
  | PNum q => Qltb q x
  | PStr _ => false
  end.

Definition num_lt (x : Q) (v : pyval) : bool :=
  match v with
  | PNum q => Qltb x q
  | PStr _ => true
  end.

(** [d[k]] for an entry *)
Definition entry_getitem (e : entry) (k : string) : result pyval :=
  match entry_get e k with
  | Some v => Ok v
  | None => Raise (KeyError k)
  end.

(** [zip] builds the list of pairs, which both comprehensions then read. *)
Definition set_range (parameter : ParameterTable) (x1 y1 : list Q)
    : result (list Q * list Q) :=
  let* nf := getitem parameter "non_fitting_values" in
  let* lo := entry_getitem nf "energy_bound_low" in
  let lowv := times_100 lo in
  let* nf := getitem parameter "non_fitting_values" in
  let* hi := entry_getitem nf "energy_bound_high" in
  let highv := times_100 hi in
  let all := zip x1 y1 in
  let x0 := fst <$> List.filter (λ item, num_gt item.1 lowv && num_lt item.1 highv) all in
  let y0 := snd <$> List.filter (λ item, num_gt item.1 lowv && num_lt item.1 highv) all in
  Ok (x0, y0).

(** ** numpy floats

    A double as numpy computes with it: a number, an infinity or nan.  The
    numbers are idealised as rationals.  An operation on one element gives a
    value and may set a floating-point flag; numpy does not raise on a flag,
    it issues a RuntimeWarning and goes on with the value. *)
Inductive npfloat : Type :=
  | Fin (q : Q)
  | PInf
  | NInf
  | NaN.

Inductive np_warning : Type :=
  | DivideByZero
  | InvalidValue.

#[global] Instance np_warning_eq_dec : EqDecision np_warning.
Proof. solve_decision. Defined.

(** [a / b] on one element *)
Definition np_div1 (a b : npfloat) : npfloat * option np_warning :=
  match a, b with
  | NaN, _ => (NaN, None)
  | _, NaN => (NaN, None)
  | Fin x, Fin y =>
      if Qeq_bool y 0 then
        if Qeq_bool x 0 then (NaN, Some InvalidValue)
        else if Qltb 0 x then (PInf, Some DivideByZero)
        else (NInf, Some DivideByZero)
      else (Fin (x / y), None)
  | Fin _, PInf => (Fin 0, None)
  | Fin _, NInf => (Fin 0, None)
  | PInf, Fin y => (if Qltb y 0 then NInf else PInf, None)
  | NInf, Fin y => (if Qltb y 0 then PInf else NInf, None)
  | PInf, PInf => (NaN, Some InvalidValue)
  | PInf, NInf => (NaN, Some InvalidValue)
  | NInf, PInf => (NaN, Some InvalidValue)
  | NInf, NInf => (NaN, Some InvalidValue)
  end.



(** [abs(a)] on one element *)
Definition np_abs (a : npfloat) : npfloat :=
  match a with
  | Fin q => Fin (Qabs q)
  | PInf => PInf
  | NInf => PInf
  | NaN => NaN
  end.

(** [a > b]: every comparison with nan is false. *)
Definition np_gt (a b : npfloat) : bool :=
  match a, b with
  | NaN, _ => false
  | _, NaN => false
  | Fin x, Fin y => Qltb y x
  | PInf, Fin _ => true
  | PInf, NInf => true
  | Fin _, NInf => true
  | _, _ => false
  end.

(** The RuntimeWarnings of one call of a ufunc: one for each flag that some
    element has set, the division by zero before the invalid value. *)
Definition raised (flags : list (option np_warning)) : list np_warning :=
  ((if bool_decide (Some DivideByZero ∈ flags) then [DivideByZero] else []) ++
   (if bool_decide (Some InvalidValue ∈ flags) then [InvalidValue] else []))%list.

(** One call of a ufunc on an array, given what it does on each element: the
    values are returned and the warnings are issued. *)
Definition ufunc (r : list (npfloat * option np_warning))
    : M (list np_warning) (list npfloat) :=
  λ ws, (Ok r.*1, (ws ++ raised r.*2)%list).


(** ** PreFitAnalysis *)

(** [max(l)], the built-in: the first element, replaced by each later one
    that compares greater. *)
Definition py_max (l : list npfloat) : result npfloat :=
  match l with
  | [] => Raise (ValueError "max() arg is an empty sequence")
  | x :: l' => Ok (foldl (λ m y, if np_gt y m then y else m) x l')
  end.

(** The three lines of [nnls_fit_weight] that compute the weights, with the
    warnings they issue. *)
Definition fit_weights (experiments : list Q) : M (list np_warning) (list npfloat) :=
  do weights <- ufunc ((λ e, np_div1 (Fin 1) (Fin (1 + e))) <$> experiments);
  let weights := np_abs <$> weights in
  do m <- lift_result (py_max weights);
  ufunc ((λ w, np_div1 w m) <$> weights).


Section PreFit.

(** The square root of a number that is not negative, and
    [scipy.optimize.nnls]. *)
Variable sqrt_q : Q → Q.
Variable nnls : list (list npfloat) → list npfloat → result (list npfloat * npfloat).


Record PreFitAnalysis : Type := {
  experiments : list Q;
  standard : list (list Q)
}.

Definition nnls_fit (self : PreFitAnalysis) : result (list npfloat * npfloat) :=
  nnls ((λ row : list Q, Fin <$> row) <$> standard self) (Fin <$> experiments self).


End PreFit.

(** The weight of a count before the normalisation, and the largest of a
    list of numbers as the built-in [max] finds it. *)
Definition raw_weight (e : Q) : npfloat :=
  if Qeq_bool (1 + e) 0 then PInf else Fin (Qabs (1 / (1 + e))).

Definition Qmax_list (x : Q) (l : list Q) : Q :=
  foldl (λ m y, if Qltb m y then y else m) x l.

(** ** set_parameter_bound *)

(** A parameter's dictionary as a plain dictionary. *)
Definition dict_of_spec (s : ParameterSpec) : gmap string pyval :=
  {[ "bound_type" := PStr (bound_type s); "value" := PNum (value s);
     "min" := PNum (vmin s); "max" := PNum (vmax s);
     "free_more" := PStr (free_more s); "adjust_element" := PStr (adjust_element s);
     "e_calibration" := PStr (e_calibration s); "linear" := PStr (linear s) ]}.

Definition set_bound_type (b : string) (s : ParameterSpec) : ParameterSpec :=
  {| bound_type := b; value := value s; vmin := vmin s; vmax := vmax s;
     free_more := free_more s; adjust_element := adjust_element s;
     e_calibration := e_calibration s; linear := linear s |}.

(** [v['bound_type'] = v[str(bound_option)]].  A parameter's dictionary whose
    bound type becomes a number is kept as a plain dictionary. *)
Definition set_bound_entry (bound_option : string) (v : entry) : result entry :=
  let* x := entry_getitem v bound_option in
  Ok (match v with
      | Spec s =>
          match x with
          | PStr b => Spec (set_bound_type b s)
          | PNum q => NonFit (<["bound_type" := PNum q]> (dict_of_spec s))
          end
      | NonFit nf => NonFit (<["bound_type" := x]> nf)
      end).

(** The items are visited in the order the dictionary yields them (here the
    map's), and each item's dictionary is changed in place; a missing key
    stops the loop where it is.  As for [update_parameter_dict], this is the
    call as it is seen through the table it is made on. *)
Definition set_parameter_bound (xrf_parameter : loc) (bound_option : string)
    : M world unit :=
  do t <- deref xrf_parameter;
  for_each (map_to_list t) (λ kv,
    if String.eqb kv.1 "non_fitting_values" then ret tt
    else
      do v <- lift_result (set_bound_entry bound_option kv.2);
      modify (λ w, {| heap := <[xrf_parameter :=
                                  <[kv.1 := v]> (heap w !!! xrf_parameter)]> (heap w);
                      logs := logs w |})).

(** ** Entries as objects

    [update_parameter_dict] and [set_parameter_bound] assign into the
    dictionaries a table holds as its values, and a table shares these with
    its shallow copies ([xrf_parameter.copy()] in ElementController).  Here a
    table binds its keys to entry objects, and the entry objects live in a
    store of their own; the definitions above are what is seen through the
    one table the call is made on. *)
Record objects : Type := {
  tables : gmap loc (gmap string loc);
  entries : gmap loc entry
}.

(** The table at [r] as a dictionary of dictionaries. *)
Definition view (o : objects) (r : loc) : ParameterTable :=
  omap (λ l, entries o !! l) (tables o !!! r).

(** [new = old.copy()]: a new table with the same entry objects. *)
Definition dict_copy (old new : loc) : M objects unit :=
  modify (λ o, {| tables := <[new := tables o !!! old]> (tables o);
                  entries := entries o |}).

(** The entry object at [l]; a table binds its keys to objects of the
    store. *)
Definition deref_entry (l : loc) : M objects entry :=
  λ o, (Ok (default (NonFit ∅) (entries o !! l)), o).

(** [update_parameter_dict] on entry objects: [v['value'] = ...] assigns
    into the object the key is bound to. *)
Definition update_parameter_dict_obj (xrf_parameter : loc) (values : gmap string Q)
    : M objects unit :=
  do o <- get_state;
  for_each (map_to_list (tables o !!! xrf_parameter)) (λ kv,
    if has_key values kv.1
    then modify (λ o, {| tables := tables o;
                         entries := alter (update_entry values kv.1) kv.2 (entries o) |})
    else ret tt).

(** [set_parameter_bound] on entry objects: [v[str(bound_option)]] is read
    from, and [v['bound_type']] assigned into, the object the key is bound
    to. *)
Definition set_parameter_bound_obj (xrf_parameter : loc) (bound_option : string)
    : M objects unit :=
  do o <- get_state;
  for_each (map_to_list (tables o !!! xrf_parameter)) (λ kv,
    if String.eqb kv.1 "non_fitting_values" then ret tt
    else
      do v <- deref_entry kv.2;
      do v <- lift_result (set_bound_entry bound_option v);
      modify (λ o, {| tables := tables o; entries := <[kv.2 := v]> (entries o) |})).

(** The table at [r] binds its keys to different entry objects. *)
Definition separate (o : objects) (r : loc) : Prop :=
  NoDup (map_to_list (tables o !!! r)).*2.

(** Two tables at the references 1 and 2, the second a shallow copy of the
    first. *)
Definition sample_objects : objects :=
  (dict_copy 1%positive 2%positive
     {| tables := {[ 1%positive := {[ "non_fitting_values" := 10%positive;
                                      "Fe_ka1_delta_center" := 11%positive ]} ]};
        entries := {[ 10%positive := NonFit {[ "element_list" := PStr "Fe" ]};
                      11%positive := Spec (template "pos") ]} |}).2.

(** ** The synthetic spectrum of the alignment test, over the reals *)

Definition synthetic_data (E : list R) (E0 sigma alpha k beta : R) : list R :=
  (λ Ei, alpha * exp (- (Ei - E0) ^ 2 / (2 * sigma ^ 2))
         + beta * (1 + sin (k * Ei)))%R <$> E.

(** ** A small configuration to run the model on

    Iron with four K lines, excited above 7.112 keV, and a default table that
    gives every background parameter. *)

Definition sample_spec (v : Q) : ParameterSpec :=
  {| bound_type := "none"; value := v; vmin := 0; vmax := 100; free_more := "none";
     adjust_element := "fixed"; e_calibration := "fixed"; linear := "none" |}.

Definition sample_get_para : ParameterTable :=
  list_to_map ((λ name, (name, Spec (sample_spec 1)))
               <$> ("coherent_sct_amplitude" :: compton_list)).

Definition sample_lines (ename : string) : list (string * Q) :=
  if String.eqb ename "Fe"
  then [("ka1", 6.404%Q); ("ka2", 6.391%Q); ("kb1", 7.058%Q); ("kb2", 7.108%Q)]
  else [].

Definition sample_cs (ename : string) (energy : Q) (line : string) : Q :=
  if String.eqb ename "Fe" && Qltb 7.112 energy then
    if String.eqb line "ka1" then 100
    else if String.eqb line "ka2" then 51
    else if String.eqb line "kb1" then 17
    else 0
  else 0.

(** A table that selects iron, with the incident energy [energy]. *)
Definition sample_table (energy : Q) : ParameterTable :=
  {[ "non_fitting_values" := NonFit {[ "element_list" := PStr "Fe";
                                       "energy_bound_low" := PNum 2.0;
                                       "energy_bound_high" := PNum 10.0 ]};
     "coherent_sct_energy" := Spec (sample_spec energy) ]}.

(** The same table without the key 'element_list'. *)
Definition sample_table_no_list : ParameterTable :=
  {[ "non_fitting_values" := NonFit {[ "energy_bound_low" := PNum 2.0;
                                       "energy_bound_high" := PNum 10.0 ]};
     "coherent_sct_energy" := Spec (sample_spec 12) ]}.

Definition sample_world (t : ParameterTable) : world :=
  {| heap := {[ 1%positive := t ]}; logs := [] |}.

(** The instance constructed from a table at the reference 1, with the world
    the constructor leaves, and the instance and world after
    [model_spectrum()]. *)
Definition sample_instance (t : ParameterTable) : ModelSpectrum * world :=
  match ModelSpectrum_init sample_get_para ∅ ∅ 1%positive (sample_world t) with
  | (Ok ms, w) => (ms, w)
  | (Raise _, w) =>
      ({| parameter := 1%positive; parameter_default := sample_get_para;
          element_list := None; incident_energy := None; compton_param := None;
          compton := None; elastic := None; self_mod := None |}, w)
  end.

Definition sample_built (t : ParameterTable) : ModelSpectrum * world :=
  (model_spectrum sample_lines sample_cs (sample_instance t)).2.

(** A second instance, constructed from the same reference after the first,
    and the world after the fitted value 20 has been written through the
    table of the first instance. *)
Definition sample_second : ModelSpectrum * world :=
  match ModelSpectrum_init sample_get_para ∅ ∅ 1%positive
                           (sample_instance (sample_table 12)).2 with
  | (Ok ms, w) => (ms, w)
  | (Raise _, w) => ((sample_instance (sample_table 12)).1, w)
  end.

Definition sample_updated : world :=
  (update_parameter_dict (parameter (sample_instance (sample_table 12)).1)
                         {[ "coherent_sct_energy" := 20%Q ]} sample_second.2).2.

(** A fit result with the three lines of iron and no kb2. *)
Definition fe_fit : gmap string Q :=
  list_to_map [("Fe_ka1_area", 100); ("Fe_ka1_ratio", 1); ("Fe_ka1_ratio_adjust", 1);
               ("Fe_ka2_area", 50); ("Fe_ka2_ratio", 1); ("Fe_ka2_ratio_adjust", 1);
               ("Fe_kb1_area", 20); ("Fe_kb1_ratio", 1); ("Fe_kb1_ratio_adjust", 1)]%Q.

(** ** Vocabulary of the properties *)

(** The test of the two comprehensions, for numeric bounds. *)
Definition in_window (lo hi : Q) (item : Q * Q) : bool :=
  Qltb (lo * 100) item.1 && Qltb item.1 (hi * 100).

(** A table in which the area of iron's ka1 line has been fitted before. *)
Definition fitted_table : ParameterTable :=
  {[ "Fe_ka1_area" :=
       Spec {| bound_type := "lohi"; value := 5000; vmin := 10; vmax := 1e6;
               free_more := "lohi"; adjust_element := "fixed";
               e_calibration := "fixed"; linear := "lohi" |} ]}.

Abbreviation store := (gmap loc ParameterTable).

(** A method started in an instance and a store that satisfy [P] and
    returning [a] leaves an instance and a store that satisfy [Q a]. *)
Definition triple {A} (P : ModelSpectrum → store → Prop) (c : Meth A)
    (Q : A → ModelSpectrum → store → Prop) : Prop :=
  ∀ ms w a ms' w',
    P ms (heap w) → c (ms, w) = (Ok a, (ms', w')) → Q a ms' (heap w').

(** A method that, when it returns, has changed neither the instance nor
    the store, and returns a value that satisfies [R]. *)
Definition reads {A} (ms0 : ModelSpectrum) (h0 : store) (c : Meth A)
    (R : A → Prop) : Prop :=
  triple (λ ms h, ms = ms0 ∧ h = h0) c (λ a ms h, ms = ms0 ∧ h = h0 ∧ R a).

(** The same for a function of the module. *)
Definition wreads {A} (c : M world A) (R : A → Prop) : Prop :=
  ∀ w a w', c w = (Ok a, w') → heap w' = heap w ∧ R a.

Definition is_upper (c : ascii) : bool :=
  (65 <=? nat_of_ascii c)%nat && (nat_of_ascii c <=? 90)%nat.

Definition upper_first (s : string) : bool :=
  match s with
  | String c _ => is_upper c
  | EmptyString => false
  end.

(** The parameter [name] of the model carries the expression [name]. *)
Definition tied (m : Model) (name : string) : Prop :=
  ∃ h, param_hints m !! name = Some h ∧ h_expr h = Some name.

(** A line model: its prefix starts with an element symbol, and the five
    global parameters are tied. *)
Definition line_inv (g : Model) : Prop :=
  upper_first (prefix g) = true ∧ Forall (tied g) global_names.

(** In the parameters of the composite, [name] is a parameter of the Compton
    model [c] and the parameter [name] of [g], whose full name has [g]'s
    prefix, is the expression [name]. *)
Definition tied_to_compton (c g : Model) (name : string) : Prop :=
  is_Some (make_params c !! name)
  ∧ ∃ h, make_params g !! (prefix g +:+ name) = Some h ∧ h_expr h = Some name.

(** What [setElementModel] builds: [None], or line models only. *)
Definition all_lines (r : option CModel) : Prop :=
  ∀ cm, r = Some cm → Forall line_inv (components cm).

Definition elastic_names : list string :=
  ["e_offset"; "e_linear"; "e_quadratic"; "fwhm_offset"; "fwhm_fanoprime";
   "coherent_sct_energy"].

(** What [__init__] leaves in an instance: a Compton model without prefix and
    its parameters, and an elastic model with the prefix 'elastic_' whose six
    shared parameters are tied and are parameters of the Compton model. *)
Definition constructed (ms : ModelSpectrum) : Prop :=
  ∃ c e,
    compton ms = Some c ∧ compton_param ms = Some (make_params c) ∧ prefix c = ""
    ∧ elastic ms = Some e ∧ prefix e = "elastic_"
    ∧ Forall (λ n, tied e n ∧ is_Some (make_params c !! n)) elastic_names.

(** The table at [r] has metadata without the key 'element_list'. *)
Definition no_element_list (h : store) (r : loc) : Prop :=
  ∃ nf, (h !!! r) !! "non_fitting_values" = Some nf
        ∧ entry_get nf "element_list" = None.

(** What does not depend on the models: the reference kept, no composite
    yet, and no element list when the table has none. *)
Definition base_facts (h0 : store) (r : loc) (ms : ModelSpectrum) : Prop :=
  parameter ms = r ∧ self_mod ms = None
  ∧ (no_element_list h0 r → element_list ms = None).

(** The principal line of [ename] (ka1, la1 or ma1) has a cross-section that
    compares equal to zero at the energy [ie]. *)
Definition inactive (cs : string → Q → string → Q) (ename : string) (ie : Q) : Prop :=
  (ename ∈ k_line ∧ Qeq_bool (cs ename ie "ka1") 0 = true)
  ∨ (ename ∈ l_line ∧ Qeq_bool (cs (drop_end 2 ename) ie "la1") 0 = true)
  ∨ (ename ∈ m_line ∧ Qeq_bool (cs (drop_end 2 ename) ie "ma1") 0 = true).

(** The bound type a parameter gets from the key [opt]: the string under that
    key. *)
Definition aux_field (opt : string) (s : ParameterSpec) : string :=
  match entry_get (Spec s) opt with
  | Some (PStr b) => b
  | _ => bound_type s
  end.

(** What [set_parameter_bound] makes of the entry under [k] when every
    assignment goes through. *)
Definition rebound (opt k : string) (e : entry) : entry :=
  if String.eqb k "non_fitting_values" then e
  else match set_bound_entry opt e with
       | Ok e' => e'
       | Raise _ => e
       end.

(** The table after the loop of [set_parameter_bound] has gone through the
    items [l]. *)
Definition rebound_items (opt : string) (l : list (string * entry))
    (t : ParameterTable) : ParameterTable :=
  foldl (λ t kv, if String.eqb kv.1 "non_fitting_values" then t
                 else <[kv.1 := rebound opt kv.1 kv.2]> t) t l.

(** The four keys that hold a bound type for a phase of the fit. *)
Definition aux_keys : list string :=
  ["free_more"; "adjust_element"; "e_calibration"; "linear"].

(** The four properties [set_val] knows. *)
Definition props : list string := ["pos"; "width"; "area"; "ratio"].

(** The copy of a template the setters store: 'adjust_element' is replaced
    when an option is given and is not empty. *)
Definition adjusted (prop : string) (option : option string) : ParameterSpec :=
  if truthy option then set_adjust_element (default "" option) (template prop)
  else template prop.

(** A setter that keeps the names of the controller and leaves under every
    key what was there or the adjusted template of [prop]. *)
Definition writes (prop : string)
    (f : string → option string → ElementController → ElementController) : Prop :=
  ∀ item o c,
    element_name (f item o c) = element_name c
    ∧ ∀ k, new_parameter (f item o c) !! k = new_parameter c !! k
           ∨ new_parameter (f item o c) !! k = Some (Spec (adjusted prop o)).

(** The body of the loop of [set_val] over the keyword arguments. *)
Definition set_val_body (element_list : list string) (kv : string * string)
    : M ElementController unit :=
  do func <-
    (if String.eqb kv.1 "pos" then ret set_position
     else if String.eqb kv.1 "width" then ret set_width
     else if String.eqb kv.1 "area" then ret set_area
     else if String.eqb kv.1 "ratio" then ret set_ratio
     else raise (ValueError "Please define either pos, width or area."));
  for_each element_list (λ element, modify (func element (Some kv.2))).

(** The keys the setter of [prop] writes for a K element. *)
Definition k_keys (prop item : string) : list string :=
  if String.eqb prop "pos" then
    [item +:+ "_ka1_delta_center"; item +:+ "_ka2_delta_center";
     item +:+ "_kb1_delta_center"]
  else if String.eqb prop "width" then
    [item +:+ "_ka1_delta_sigma"; item +:+ "_ka2_delta_sigma";
     item +:+ "_kb1_delta_sigma"]
  else if String.eqb prop "area" then [item +:+ "_ka1_area"]
  else if String.eqb prop "ratio" then [item +:+ "_kb1_ratio_adjust"]
  else [].

(** The L lines of [get_L_line]. *)
Definition l_names : list string :=
  ["la1"; "la2"; "lb1"; "lb2"; "lb3"; "lg1"; "lg2"; "ll"].

(** The entry a model's parameter is read from: the table's when the table
    has the key, the default table's otherwise. *)
Definition effective (t defaults : ParameterTable) (name : string) : option entry :=
  if has_key t name then t !! name else defaults !! name.

Definition valid_bound (s : ParameterSpec) : Prop :=
  bound_type s ∈ ["none"; "fixed"; "lohi"; "lo"; "hi"].

(** A table the constructor accepts, given the default table: metadata whose
    element list, if any, is a string; an incident energy; and for each of
    the fifteen parameters of the Compton and elastic models a parameter with
    one of the five bound types, in the table or else in the defaults. *)
Definition well_formed (defaults t : ParameterTable) : Prop :=
  (∃ nf, t !! "non_fitting_values" = Some nf
         ∧ ∀ q, entry_get nf "element_list" ≠ Some (PNum q))
  ∧ is_Some (t !! "coherent_sct_energy")
  ∧ Forall (λ name, ∃ s, effective t defaults name = Some (Spec s) ∧ valid_bound s)
           (compton_list ++ ["coherent_sct_amplitude"]).

(** The element list [_config] makes of the string of the metadata. *)
Definition parse_element_list (el : string) : list string :=
  strip <$> (if str_contains "," el then split_sep ", " el else split_ws el).

(** What [_config] and the two model set-ups log, in this order. *)
Definition config_logs (no_list : bool) : list (level * message) :=
  ((if no_list then [(CRITICAL, MsgNoElement)] else []) ++
   [(DEBUG, MsgText " ###### Started setting up parameters for compton model. ######");
    (DEBUG, MsgText " Finished setting up parameters for compton model.");
    (DEBUG, MsgText " ###### Started setting up parameters for elastic model. ######");
    (DEBUG, MsgText " Finished setting up parameters for elastic model.")])%list.

(** No character of [s] is white space. *)
Fixpoint no_space (s : string) : bool :=
  match s with
  | EmptyString => true
  | String c s' => negb (is_space c) && no_space s'
  end.

(** No character of [s] is a comma. *)
Fixpoint no_comma (s : string) : bool :=
  match s with
  | EmptyString => true
  | String c s' => negb (Ascii.eqb c ",") && no_comma s'
  end.

(** [ename] gets no model at the energy [ie]: its principal line is not
    excited, or it is in none of the three lists. *)
Definition gives_no_model (cs : string → Q → string → Q) (ename : string) (ie : Q)
    : Prop :=
  inactive cs ename ie
  ∨ ((ename ∉ k_line) ∧ (ename ∉ l_line) ∧ (ename ∉ m_line)).

(** * Properties *)

(** ** The lineshape *)

(** C3. With no shift of centre or width and the identity energy
    calibration, the lineshape is the boundary Gaussian of
    (x, area, center, sigma), sigma being
    sqrt((fwhm_offset/(2 sqrt(2 ln 2)))^2 + center*2.96*fwhm_fanoprime),
    multiplied by ratio*ratio_adjust. *)
Theorem element_peak_xrf_reduces (gaussian : list R → R → R → R → list R)
    (x : list R) (area center ratio ratio_adjust fwhm_offset fwhm_fanoprime : R) :
  element_peak_xrf gaussian x area center 0 0 ratio ratio_adjust
                   fwhm_offset fwhm_fanoprime 0 1 0 None
  = (λ g, g * (ratio * ratio_adjust))%R <$>
      gaussian x area center
        (sqrt ((fwhm_offset / (2 * sqrt (2 * ln 2))) ^ 2
               + center * 2.96 * fwhm_fanoprime))%R.
Proof.
  unfold element_peak_xrf, get_sigma; simpl.
  assert (Hx : ((λ xi : R, 0 + xi * 1 + xi * (xi * 1) * 0)%R <$> x) = x).
  { induction x as [|a l IH]; simpl; [reflexivity|].
    f_equal; [ring | exact IH]. }
  rewrite Hx, Rplus_0_r, Rplus_0_l.
  apply list_fmap_ext; intros _ g _; ring.
Qed.

(** ** Parameter hints *)

Lemma set_param_hint_lookup (m : Model) (name : string) (kw : Hint) :
  param_hints (set_param_hint m name kw) !! hint_name m name
  = Some (merge_hint kw (default no_hint (param_hints m !! hint_name m name))).
Proof. unfold set_param_hint; simpl. apply lookup_insert_eq. Qed.

Lemma set_param_hint_other (m : Model) (name : string) (kw : Hint) (n : string) :
  n ≠ hint_name m name →
  param_hints (set_param_hint m name kw) !! n = param_hints m !! n.
Proof. intros Hn. unfold set_param_hint; simpl. by rewrite lookup_insert_ne. Qed.

Lemma set_param_hint_prefix (m : Model) (name : string) (kw : Hint) :
  prefix (set_param_hint m name kw) = prefix m.
Proof. reflexivity. Qed.

(** What [_set_parameter_hint] does for the bound type 'hi', as one call of
    [set_param_hint]. *)
Lemma set_parameter_hint_hi_run (para_name : string) (input_dict : ParameterSpec)
    (input_model : Model) (log_option : bool) (w : world) :
  bound_type input_dict = "hi" →
  ∃ w',
    _set_parameter_hint para_name input_dict input_model log_option w
    = (Ok (set_param_hint input_model para_name
             {| h_value := Some (value input_dict); h_vary := Some true;
                h_min := Some (vmax input_dict); h_max := None; h_expr := None |}), w')
    ∧ heap w' = heap w.
Proof.
  intros Hb. unfold _set_parameter_hint. rewrite Hb.
  destruct log_option; eexists; (split; [reflexivity | reflexivity]).
Qed.

(** C1. For the bound type 'hi' the call succeeds and leaves the target
    parameter free (vary is true), with the dictionary's value as initial value
    and the dictionary's 'max' as lower bound; it sets no upper bound (the
    hint's upper bound is what it was before the call, none for a parameter
    that had no hint), and it touches no other parameter. *)
Theorem set_parameter_hint_hi (para_name : string) (input_dict : ParameterSpec)
    (input_model : Model) (log_option : bool) (w : world) :
  bound_type input_dict = "hi" →
  ∃ m' w' h,
    _set_parameter_hint para_name input_dict input_model log_option w = (Ok m', w')
    ∧ param_hints m' !! hint_name input_model para_name = Some h
    ∧ h_vary h = Some true
    ∧ h_value h = Some (value input_dict)
    ∧ h_min h = Some (vmax input_dict)
    ∧ h_max h = (param_hints input_model !! hint_name input_model para_name) ≫= h_max
    ∧ (∀ n, n ≠ hint_name input_model para_name →
            param_hints m' !! n = param_hints input_model !! n).
Proof.
  intros Hb.
  destruct (set_parameter_hint_hi_run para_name input_dict input_model log_option w Hb)
    as (w' & Hrun & _).
  eexists _, w', _. split; [exact Hrun|].
  split; [apply set_param_hint_lookup|].
  repeat split; simpl.
  - by destruct (param_hints input_model !! hint_name input_model para_name).
  - intros n Hn. by apply set_param_hint_other.
Qed.

Lemma set_parameter_hint_hi_witness :
  ∃ m' w' h,
    _set_parameter_hint "Fe_ka1_area"
      {| bound_type := "hi"; value := 5; vmin := 1; vmax := 9; free_more := "none";
         adjust_element := "fixed"; e_calibration := "fixed"; linear := "none" |}
      (ElementModel "Fe_ka1_") true (sample_world ∅) = (Ok m', w')
    ∧ param_hints m' !! "area" = Some h
    ∧ h_vary h = Some true
    ∧ h_value h = Some 5%Q
    ∧ h_min h = Some 9%Q
    ∧ h_max h = None.
Proof.
  destruct (set_parameter_hint_hi "Fe_ka1_area"
      {| bound_type := "hi"; value := 5; vmin := 1; vmax := 9; free_more := "none";
         adjust_element := "fixed"; e_calibration := "fixed"; linear := "none" |}
      (ElementModel "Fe_ka1_") true (sample_world ∅) eq_refl)
    as (m' & w' & h & H1 & H2 & H3 & H4 & H5 & H6 & _).
  exists m', w', h. repeat split; assumption.
Defined.

(** ** The fitted-area aggregator *)

Lemma l_m_not_k (name : string) : name ∈ l_line ∨ name ∈ m_line → name ∉ k_line.
Proof.
  intros Hlm Hk.
  assert (Hd : Forall (λ n, n ∉ k_line) (l_line ++ m_line)).
  { apply (bool_decide_unpack _). vm_compute. exact I. }
  rewrite Forall_forall in Hd. apply (Hd name); [|exact Hk].
  rewrite elem_of_app. exact Hlm.
Qed.

(** C4. For a name outside the K list, and so for every L or M name, the
    aggregator raises (the local variable [sum] was never bound); it returns no
    number. *)
Theorem get_sum_area_outside_K (element_name : string) (values : gmap string Q) :
  element_name ∉ k_line ∨ element_name ∈ l_line ∨ element_name ∈ m_line →
  get_sum_area element_name values = Raise (UnboundLocalError "sum")
  ∧ ∀ q, get_sum_area element_name values ≠ Ok q.
Proof.
  intros H.
  assert (Hk : element_name ∉ k_line).
  { destruct H as [H|H]; [exact H | by apply l_m_not_k]. }
  assert (E : get_sum_area element_name values = Raise (UnboundLocalError "sum")).
  { unfold get_sum_area, str_in. by rewrite bool_decide_eq_false_2. }
  split; [exact E|]. intros q. rewrite E. discriminate.
Qed.

Lemma get_sum_area_outside_K_witness :
  get_sum_area "Ga_L" {[ "Ga_la1_area" := 3%Q ]} = Raise (UnboundLocalError "sum")
  ∧ ∀ q, get_sum_area "Ga_L" {[ "Ga_la1_area" := 3%Q ]} ≠ Ok q.
Proof.
  apply get_sum_area_outside_K. right; left.
  apply (bool_decide_unpack _). vm_compute. exact I.
Defined.

(** ** The energy window *)

Lemma Qltb_lt (a b : Q) : Qltb a b = true ↔ (a < b)%Q.
Proof.
  unfold Qltb. rewrite negb_true_iff, <- not_true_iff_false, Qle_bool_iff.
  split; [apply Qnot_le_lt | apply Qlt_not_le].
Qed.


Lemma in_window_spec (lo hi : Q) (item : Q * Q) :
  in_window lo hi item = true ↔ (lo * 100 < item.1 ∧ item.1 < hi * 100)%Q.
Proof. unfold in_window. by rewrite andb_true_iff, !Qltb_lt. Qed.

(** C9. With numeric bounds in the table, the result is the two columns of
    the pairs (x_i, y_i) with energy_bound_low*100 < x_i < energy_bound_high*100,
    both bounds excluded, in their original order; the columns have the same
    length. *)
Theorem set_range_window (parameter : ParameterTable) (nf : gmap string pyval)
    (lo hi : Q) (x1 y1 : list Q) :
  parameter !! "non_fitting_values" = Some (NonFit nf) →
  nf !! "energy_bound_low" = Some (PNum lo) →
  nf !! "energy_bound_high" = Some (PNum hi) →
  ∃ x0 y0,
    set_range parameter x1 y1 = Ok (x0, y0)
    ∧ zip x0 y0 = List.filter (in_window lo hi) (zip x1 y1)
    ∧ length x0 = length y0
    ∧ ∀ p, In p (zip x0 y0) ↔
           In p (zip x1 y1) ∧ (lo * 100 < p.1 ∧ p.1 < hi * 100)%Q.
Proof.
  intros Hnf Hlo Hhi.
  unfold set_range, getitem, entry_getitem. rewrite Hnf. simpl.
  rewrite Hlo, Hhi. simpl.
  eexists _, _. split; [reflexivity|].
  change (λ item : Q * Q, Qltb (lo * 100) item.1 && Qltb item.1 (hi * 100))
    with (in_window lo hi).
  assert (Hz : zip (List.filter (in_window lo hi) (zip x1 y1)).*1
                   (List.filter (in_window lo hi) (zip x1 y1)).*2
               = List.filter (in_window lo hi) (zip x1 y1)) by apply zip_fst_snd.
  split; [exact Hz|]. split; [by rewrite !length_fmap|].
  intros p. rewrite Hz, filter_In, in_window_spec. reflexivity.
Qed.

Lemma set_range_window_witness :
  ∃ x0 y0,
    set_range (sample_table 12) [150; 200; 1100; 300]%Q [1; 2; 3; 4]%Q = Ok (x0, y0)
    ∧ zip x0 y0 = List.filter (in_window 2.0 10.0)
                              (zip [150; 200; 1100; 300]%Q [1; 2; 3; 4]%Q)
    ∧ length x0 = length y0
    ∧ ∀ p, In p (zip x0 y0) ↔
           In p (zip [150; 200; 1100; 300]%Q [1; 2; 3; 4]%Q)
           ∧ (2.0 * 100 < p.1 ∧ p.1 < 10.0 * 100)%Q.
Proof.
  apply (set_range_window (sample_table 12)
           {[ "element_list" := PStr "Fe"; "energy_bound_low" := PNum 2.0;
              "energy_bound_high" := PNum 10.0 ]}); reflexivity.
Defined.

(** On the sample table the window is (200, 1000): a channel at exactly 200
    is outside. *)
Example set_range_sample :
  set_range (sample_table 12) [150; 200; 1100; 300]%Q [1; 2; 3; 4]%Q
  = Ok ([300%Q], [4%Q]).
Proof. reflexivity. Qed.

(** ** The weights of the weighted pre-fit *)

Lemma one_plus_zero (e : Q) : (1 + e == 0)%Q ↔ (e == -1)%Q.
Proof. split; intros H; lra. Qed.

Lemma abs_weight_pos (e : Q) : ¬ (e == -1)%Q → (0 < Qabs (1 / (1 + e)))%Q.
Proof.
  intros He.
  assert (Hn : ¬ (1 / (1 + e) == 0)%Q).
  { intros H0. apply He, one_plus_zero.
    assert (H1 : (1 == (1 / (1 + e)) * (1 + e))%Q).
    { destruct (Qeq_dec (1 + e) 0) as [Hz|Hz]; [exact (ltac:(exfalso; apply He, one_plus_zero, Hz))|].
      field. exact Hz. }
    rewrite H0 in H1. lra. }
  destruct (Qlt_le_dec 0 (Qabs (1 / (1 + e)))) as [Hp|Hp]; [exact Hp|].
  exfalso. apply Hn.
  pose proof (Qabs_nonneg (1 / (1 + e))) as Hge.
  assert (Hz : (Qabs (1 / (1 + e)) == 0)%Q) by lra.
  pose proof (Qabs_case (1 / (1 + e)) (λ r, r == 0 → 1 / (1 + e) == 0)%Q) as Hc.
  apply Hc; [intros _ H; exact H | intros _ H; lra | exact Hz].
Qed.

Lemma py_max_fold (l : list Q) (x : Q) :
  let m := foldl (λ m y, if Qltb m y then y else m) x l in
  (x <= m)%Q ∧ Forall (λ w, (w <= m)%Q) l.
Proof.
  revert x. induction l as [|y l IH]; intros x; simpl.
  - split; [lra | constructor].
  - destruct (Qltb x y) eqn:E.
    + apply Qltb_lt in E. destruct (IH y) as [H1 H2].
      split; [lra|]. by constructor.
    + assert (y <= x)%Q.
      { destruct (Qlt_le_dec x y) as [Hl|Hl]; [|exact Hl].
        apply Qltb_lt in Hl. congruence. }
      destruct (IH x) as [H1 H2]. split; [exact H1|].
      constructor; [lra | exact H2].
Qed.

Lemma ufunc_fmap {A} (op : A → npfloat * option np_warning) (l : list A)
    (ws : list np_warning) :
  ufunc (op <$> l) ws
  = (Ok ((fst ∘ op) <$> l), (ws ++ raised ((snd ∘ op) <$> l))%list).
Proof. unfold ufunc. by rewrite <- !list_fmap_compose. Qed.

Lemma raised_spec (flags : list (option np_warning)) :
  raised flags
  = ((if bool_decide (Some DivideByZero ∈ flags) then [DivideByZero] else []) ++
     (if bool_decide (Some InvalidValue ∈ flags) then [InvalidValue] else []))%list.
Proof. reflexivity. Qed.

Lemma div_one (e : Q) :
  np_div1 (Fin 1) (Fin (1 + e))
  = (if Qeq_bool (1 + e) 0 then PInf else Fin (1 / (1 + e)),
     if Qeq_bool (1 + e) 0 then Some DivideByZero else None).
Proof. unfold np_div1. by destruct (Qeq_bool (1 + e) 0). Qed.

Lemma minus_one_bool (e : Q) : Qeq_bool (1 + e) 0 = true ↔ (e == -1)%Q.
Proof. rewrite Qeq_bool_iff. apply one_plus_zero. Qed.

(** After the first division and [abs]: the raw weights, and the warning of
    a division by zero exactly when some count is -1. *)
Lemma raw_weights_run (exps : list Q) (ws0 : list np_warning) :
  ∃ ws1,
    ufunc ((λ e, np_div1 (Fin 1) (Fin (1 + e))) <$> exps) ws0
    = (Ok ws1, (ws0 ++ (if bool_decide (Exists (λ e, Qeq_bool (1 + e) 0 = true) exps)
                        then [DivideByZero] else []))%list)
    ∧ np_abs <$> ws1 = raw_weight <$> exps.
Proof.
  eexists. rewrite ufunc_fmap. split.
  - f_equal. f_equal. rewrite raised_spec.
    rewrite (bool_decide_eq_false_2 (Some InvalidValue ∈ _)).
    2:{ intros H. apply list_elem_of_fmap in H as (e & He & _).
        unfold compose in He. rewrite div_one in He. cbn [snd] in He.
        by destruct (Qeq_bool (1 + e) 0). }
    rewrite app_nil_r.
    apply (f_equal (λ b : bool, if b then [DivideByZero] else [])).
    apply bool_decide_ext.
    rewrite Exists_exists. split.
    + intros H. apply list_elem_of_fmap in H as (e & He & Hin).
      exists e. split; [exact Hin|].
      unfold compose in He. rewrite div_one in He. cbn [snd] in He.
      by destruct (Qeq_bool (1 + e) 0).
    + intros (e & Hin & He). apply list_elem_of_fmap. exists e. split; [|exact Hin].
      unfold compose. rewrite div_one. cbn [snd]. by rewrite He.
  - rewrite <- list_fmap_compose. apply list_fmap_ext. intros _ e _.
    unfold compose. rewrite div_one. unfold raw_weight. cbn [fst].
    by destruct (Qeq_bool (1 + e) 0).
Qed.

Lemma raw_weight_fin (e : Q) :
  ¬ (e == -1)%Q → raw_weight e = Fin (Qabs (1 / (1 + e))).
Proof.
  intros He. unfold raw_weight.
  destruct (Qeq_bool (1 + e) 0) eqn:E; [|done].
  by apply minus_one_bool in E.
Qed.

Lemma py_max_fin (x : Q) (l : list Q) :
  py_max (Fin <$> x :: l) = Ok (Fin (Qmax_list x l)).
Proof.
  simpl. f_equal. unfold Qmax_list. revert x.
  induction l as [|y l IH]; intros x; [done|]. simpl. rewrite <- IH.
  by destruct (Qltb x y).
Qed.

Lemma Qmax_list_in (x : Q) (l : list Q) : Qmax_list x l ∈ x :: l.
Proof.
  unfold Qmax_list. revert x.
  induction l as [|y l IH]; intros x; simpl; [apply elem_of_cons; by left|].
  destruct (Qltb x y).
  - apply elem_of_cons. right. apply IH.
  - pose proof (IH x) as H. apply elem_of_cons in H as [H|H].
    + rewrite H. apply elem_of_cons. by left.
    + apply elem_of_cons. right. apply elem_of_cons. by right.
Qed.

Lemma py_max_pinf_stays (l : list npfloat) :
  foldl (λ m y, if np_gt y m then y else m) PInf l = PInf.
Proof.
  induction l as [|y l IH]; [done|]. simpl.
  replace (np_gt y PInf) with false by by destruct y. exact IH.
Qed.

Lemma raw_weight_pinf (e : Q) : Qeq_bool (1 + e) 0 = true → raw_weight e = PInf.
Proof. intros H. unfold raw_weight. by rewrite H. Qed.

Lemma raw_weight_not_pinf (e : Q) :
  Qeq_bool (1 + e) 0 = false → raw_weight e = Fin (Qabs (1 / (1 + e))).
Proof. intros H. unfold raw_weight. by rewrite H. Qed.

Lemma py_max_pinf_fold (x : npfloat) (l : list Q) :
  x = PInf ∨ ((∃ q, x = Fin q) ∧ Exists (λ e, Qeq_bool (1 + e) 0 = true) l) →
  foldl (λ m y, if np_gt y m then y else m) x (raw_weight <$> l) = PInf.
Proof.
  revert x. induction l as [|a l IH]; intros x [->|[[q ->] Hex]].
  - done.
  - by apply Exists_nil in Hex.
  - apply py_max_pinf_stays.
  - rewrite fmap_cons. cbn [foldl].
    destruct (Qeq_bool (1 + a) 0) eqn:Ea.
    + rewrite (raw_weight_pinf a Ea). cbn [np_gt]. apply py_max_pinf_stays.
    + rewrite (raw_weight_not_pinf a Ea). cbn [np_gt].
      apply Exists_cons in Hex as [Hex|Hex]; [congruence|].
      destruct (Qltb q (Qabs (1 / (1 + a)))); apply IH; right; eauto.
Qed.

(** With a count of -1 the largest raw weight is the infinity. *)
Lemma py_max_pinf (exps : list Q) :
  Exists (λ e, Qeq_bool (1 + e) 0 = true) exps →
  py_max (raw_weight <$> exps) = Ok PInf.
Proof.
  destruct exps as [|e exps]; [by intros H; apply Exists_nil in H|].
  intros H. rewrite fmap_cons. unfold py_max. f_equal.
  apply py_max_pinf_fold.
  destruct (Qeq_bool (1 + e) 0) eqn:Ee.
  - left. by apply raw_weight_pinf.
  - right. split; [rewrite (raw_weight_not_pinf e Ee); by eexists|].
    apply Exists_cons in H as [H|H]; [congruence | exact H].
Qed.

Lemma zero_divisor_dec (exps : list Q) :
  {Forall (λ e, ¬ (e == -1)%Q) exps} + {Exists (λ e, Qeq_bool (1 + e) 0 = true) exps}.
Proof.
  destruct (decide (Exists (λ e, Qeq_bool (1 + e) 0 = true) exps)) as [H|H];
    [by right | left].
  apply Forall_forall. intros e Hin He. apply H, Exists_exists.
  exists e. split; [exact Hin|]. by apply minus_one_bool.
Qed.

Lemma no_zero_divisor (exps : list Q) :
  Forall (λ e, ¬ (e == -1)%Q) exps →
  ¬ Exists (λ e, Qeq_bool (1 + e) 0 = true) exps.
Proof.
  intros Hall Hex. apply Exists_exists in Hex as (e & Hin & He).
  rewrite Forall_forall in Hall. by apply (Hall e Hin), minus_one_bool.
Qed.

Lemma raised_one {A} (w : np_warning) (z : A → bool) (l : list A) :
  raised ((λ x, if z x then Some w else None) <$> l)
  = if bool_decide (Exists (λ x, z x = true) l) then [w] else [].
Proof.
  assert (Hin : ∀ w', Some w' ∈ (λ x, if z x then Some w else None) <$> l
                      ↔ w' = w ∧ Exists (λ x, z x = true) l).
  { intros w'. rewrite list_elem_of_fmap, Exists_exists. split.
    - intros (x & Hx & Hl). destruct (z x) eqn:E; [|discriminate].
      injection Hx as ->. split; [done|]. by exists x.
    - intros [-> (x & Hl & Hz)]. exists x. by rewrite Hz. }
  rewrite raised_spec.
  destruct (decide (Exists (λ x, z x = true) l)) as [Hex|Hex].
  - rewrite (bool_decide_eq_true_2 _ Hex). destruct w.
    + rewrite bool_decide_eq_true_2 by by apply Hin.
      rewrite bool_decide_eq_false_2; [done|]. rewrite Hin. by intros [? _].
    + rewrite (bool_decide_eq_false_2 (Some DivideByZero ∈ _)).
      2:{ rewrite Hin. by intros [? _]. }
      by rewrite bool_decide_eq_true_2 by by apply Hin.
  - rewrite (bool_decide_eq_false_2 _ Hex).
    rewrite !bool_decide_eq_false_2; [done | |]; rewrite Hin; tauto.
Qed.

(** A call that sets no flag issues no warning. *)
Lemma ufunc_quiet {A} (op : A → npfloat * option np_warning) (f : A → npfloat)
    (l : list A) (ws : list np_warning) :
  Forall (λ x, op x = (f x, None)) l → ufunc (op <$> l) ws = (Ok (f <$> l), ws).
Proof.
  intros Hall.
  assert (E : op <$> l = (λ x, (f x, if (λ _, false) x then Some InvalidValue else None))
                         <$> l).
  { induction Hall as [|x l Hx _ IH]; [done|]. rewrite !fmap_cons. by rewrite Hx, IH. }
  rewrite E, ufunc_fmap. f_equal.
  change (snd ∘ _) with (λ x : A, if (λ _, false) x then Some InvalidValue else None).
  rewrite raised_one. rewrite bool_decide_eq_false_2; [apply app_nil_r|].
  rewrite Exists_exists. by intros (x & _ & ?).
Qed.

Lemma raw_weights_fin (exps : list Q) :
  Forall (λ e, ¬ (e == -1)%Q) exps →
  raw_weight <$> exps = Fin <$> ((λ e, Qabs (1 / (1 + e))) <$> exps).
Proof.
  induction 1 as [|e l He _ IH]; [done|].
  rewrite !fmap_cons. by rewrite (raw_weight_fin e He), IH.
Qed.

(** The normalised weights, when no count is -1 and there is at least one
    count: each is the absolute raw weight over the largest of them, and no
    warning is issued. *)
Lemma fit_weights_finite (exps : list Q) (ws0 : list np_warning) :
  exps ≠ [] → Forall (λ e, ¬ (e == -1)%Q) exps →
  ∃ e0,
    e0 ∈ exps
    ∧ Forall (λ e, 0 < Qabs (1 / (1 + e))
                   ∧ Qabs (1 / (1 + e)) <= Qabs (1 / (1 + e0)))%Q exps
    ∧ fit_weights exps ws0
      = (Ok (Fin <$> ((λ e, Qabs (1 / (1 + e)) / Qabs (1 / (1 + e0)))%Q <$> exps)),
         ws0).
Proof.
  intros Hne Hall. unfold fit_weights.
  destruct (raw_weights_run exps ws0) as (ws1 & E & Habs).
  unfold bind at 1. rewrite E. cbv zeta. rewrite Habs.
  rewrite (bool_decide_eq_false_2 _ (no_zero_divisor exps Hall)), app_nil_r.
  rewrite (raw_weights_fin exps Hall).
  set (f := λ e : Q, Qabs (1 / (1 + e))).
  destruct (f <$> exps) as [|a l] eqn:Ef.
  { destruct exps; [done | discriminate]. }
  unfold bind at 1, lift_result. rewrite py_max_fin.
  pose proof (Qmax_list_in a l) as Hin.
  destruct (py_max_fold l a) as [Ha Hl].
  fold (Qmax_list a l) in Ha, Hl. set (m := Qmax_list a l) in *.
  assert (Hle : Forall (λ w, (w <= m)%Q) (a :: l)) by by constructor.
  rewrite <- Ef in Hin, Hle |- *.
  apply list_elem_of_fmap in Hin as (e0 & Hm & He0).
  rewrite Forall_fmap in Hle.
  assert (Hb : Forall (λ e, 0 < f e ∧ f e <= m)%Q exps).
  { rewrite Forall_forall in Hall, Hle |- *. intros e He. split.
    - by apply abs_weight_pos, Hall.
    - by apply (Hle e). }
  exists e0. split; [exact He0|].
  change (Qabs (1 / (1 + e0))) with (f e0). rewrite <- Hm. split; [exact Hb|].
  rewrite <- !list_fmap_compose. apply ufunc_quiet.
  eapply Forall_impl; [exact Hb|]. intros e [Hp Hl']. unfold compose, np_div1.
  destruct (Qeq_bool m 0) eqn:Em; [|done].
  apply Qeq_bool_iff in Em. rewrite Em in Hl'. lra.
Qed.

(** The normalised weights when some count is -1: the division by zero gives
    an infinite raw weight, which is the largest; every other weight becomes
    0 and the weight of a count of -1, infinity over infinity, is nan.  Both
    divisions warn; nothing is raised. *)
Lemma fit_weights_infinite (exps : list Q) (ws0 : list np_warning) :
  Exists (λ e, Qeq_bool (1 + e) 0 = true) exps →
  fit_weights exps ws0
  = (Ok ((λ e, if Qeq_bool (1 + e) 0 then NaN else Fin 0) <$> exps),
     (ws0 ++ [DivideByZero; InvalidValue])%list).
Proof.
  intros Hex. unfold fit_weights.
  destruct (raw_weights_run exps ws0) as (ws1 & E & Habs).
  unfold bind at 1. rewrite E. cbv zeta. rewrite Habs.
  rewrite (bool_decide_eq_true_2 _ Hex).
  unfold bind at 1, lift_result. rewrite (py_max_pinf exps Hex).
  rewrite <- list_fmap_compose.
  assert (Eop : (λ w, np_div1 w PInf) ∘ raw_weight <$> exps
                = (λ e, (if Qeq_bool (1 + e) 0 then NaN else Fin 0,
                         if Qeq_bool (1 + e) 0 then Some InvalidValue else None))
                  <$> exps).
  { apply list_fmap_ext. intros _ e _. unfold compose, raw_weight.
    by destruct (Qeq_bool (1 + e) 0). }
  rewrite Eop, ufunc_fmap. f_equal.
  change (snd ∘ _) with (λ e : Q, if (λ e, Qeq_bool (1 + e) 0) e
                                  then Some InvalidValue else None).
  rewrite raised_one, (bool_decide_eq_true_2 _ Hex). by rewrite <- app_assoc.
Qed.


Lemma ratio_in_unit (a m : Q) : (0 < a)%Q → (a <= m)%Q → (0 < a / m ∧ a / m <= 1)%Q.
Proof.
  intros Ha Hl. assert (Hm : (0 < m)%Q) by lra. split.
  - apply Qlt_shift_div_l; [exact Hm | lra].
  - apply Qle_shift_div_r; [exact Hm | lra].
Qed.


Lemma fit_weights_empty (ws0 : list np_warning) :
  fit_weights [] ws0 = (Raise (ValueError "max() arg is an empty sequence"), ws0).
Proof.
  unfold fit_weights, bind, ufunc, lift_result. simpl. by rewrite app_nil_r.
Qed.




(** ** The element controller *)

Lemma set_area_K (item : string) (o : option string) (c : ElementController) :
  item ∈ k_line →
  set_area item o c = put_template "area" (item +:+ "_ka1_area") o c.
Proof.
  intros Hk. unfold set_area, str_in. by rewrite bool_decide_eq_true_2.
Qed.

Lemma Fe_in_k_line : "Fe" ∈ k_line.
Proof. apply (bool_decide_unpack _). vm_compute. exact I. Qed.

(** What [set_val(["Fe"], area="lohi")] leaves in the controller. *)
Lemma set_val_Fe_area_run (c : ElementController) :
  set_val ["Fe"] [("area", "lohi")] c
  = (Ok (<["Fe_ka1_area" := Spec (set_adjust_element "lohi" (template "area"))]>
           (new_parameter c)),
     {| new_parameter :=
          <["Fe_ka1_area" := Spec (set_adjust_element "lohi" (template "area"))]>
            (new_parameter c);
        element_name := element_name c |}).
Proof.
  unfold set_val. simpl. unfold bind, modify, get_state, ret; simpl.
  by rewrite (set_area_K "Fe" _ _ Fe_in_k_line).
Qed.


(** C8, as stated, fails: the entry of Fe_ka1_area is replaced by the area
    template, so its bound type and its value change too. *)
Lemma set_val_Fe_area_overwrites :
  ∃ t s0 s,
    (set_val ["Fe"] [("area", "lohi")]
             (ElementController_init fitted_table ["Fe_ka1_area"])).1 = Ok t
    ∧ fitted_table !! "Fe_ka1_area" = Some (Spec s0)
    ∧ t !! "Fe_ka1_area" = Some (Spec s)
    ∧ adjust_element s = "lohi"
    ∧ bound_type s0 = "lohi" ∧ bound_type s = "none"
    ∧ value s0 = 5000%Q ∧ value s = 1000%Q.
Proof.
  rewrite set_val_Fe_area_run. simpl.
  eexists _, _, _. split; [reflexivity|].
  split; [reflexivity|].
  split; [apply lookup_insert_eq|].
  repeat split.
Qed.

(** C8, amended. The call stores under Fe_ka1_area the area template with
    'adjust_element' set to "lohi" (whatever the entry held before), and every
    other key of the returned table holds what the input table held. *)
Theorem set_val_Fe_area (xrf_parameter : ParameterTable) (fit_name : list string) :
  ∃ t c',
    set_val ["Fe"] [("area", "lohi")] (ElementController_init xrf_parameter fit_name)
    = (Ok t, c')
    ∧ t = new_parameter c'
    ∧ t !! "Fe_ka1_area"
      = Some (Spec {| bound_type := "none"; value := 1000; vmin := 0; vmax := 1e9;
                      free_more := "none"; adjust_element := "lohi";
                      e_calibration := "fixed"; linear := "none" |})
    ∧ ∀ k, k ≠ "Fe_ka1_area" → t !! k = xrf_parameter !! k.
Proof.
  rewrite set_val_Fe_area_run. eexists _, _. split; [reflexivity|].
  split; [reflexivity|]. split.
  - rewrite lookup_insert_eq. reflexivity.
  - intros k Hk. simpl. by rewrite lookup_insert_ne.
Qed.

(** ** Rules for methods *)

Lemma bind_ok_inv {S A B} (c : M S A) (k : A → M S B) (s : S) (b : B) (s'' : S) :
  bind c k s = (Ok b, s'') → ∃ a s', c s = (Ok a, s') ∧ k a s' = (Ok b, s'').
Proof.
  unfold bind. destruct (c s) as [[a|e] s'] eqn:E; intros H.
  - by exists a, s'.
  - discriminate.
Qed.

Lemma triple_bind {A B} P (c : Meth A) Q1 (k : A → Meth B) Q :
  triple P c Q1 → (∀ a, triple (Q1 a) (k a) Q) → triple P (bind c k) Q.
Proof.
  intros Hc Hk ms w b ms' w' HP Hrun.
  apply bind_ok_inv in Hrun as (a & [ms1 w1] & H1 & H2).
  eapply Hk; [|exact H2]. eapply Hc; [exact HP | exact H1].
Qed.

Lemma triple_conseq {A} (P P' : ModelSpectrum → store → Prop) (c : Meth A)
    (Q Q' : A → ModelSpectrum → store → Prop) :
  triple P' c Q' → (∀ ms h, P ms h → P' ms h) → (∀ a ms h, Q' a ms h → Q a ms h) →
  triple P c Q.
Proof. intros Hc HP HQ ms w a ms' w' H Hrun. eapply HQ, Hc; eauto. Qed.

Lemma triple_freeze {A} P (c : Meth A) Q :
  (∀ ms0 h0, P ms0 h0 → triple (λ ms h, ms = ms0 ∧ h = h0) c Q) → triple P c Q.
Proof. intros H ms w a ms' w' HP Hrun. eapply (H ms (heap w) HP); eauto. Qed.

Lemma triple_ret {A} (P : ModelSpectrum → store → Prop) (a : A)
    (Q : A → ModelSpectrum → store → Prop) :
  (∀ ms h, P ms h → Q a ms h) → triple P (ret a) Q.
Proof. intros H ms w a' ms' w' HP [= <- <- <-]. by apply H. Qed.

Lemma triple_set_self P f (Q : unit → ModelSpectrum → store → Prop) :
  (∀ ms h, P ms h → Q tt (f ms) h) → triple P (set_self f) Q.
Proof. intros H ms w a ms' w' HP [= <- <- <-]. by apply H. Qed.

Lemma reads_ret {A} ms0 h0 (a : A) (R : A → Prop) : R a → reads ms0 h0 (ret a) R.
Proof. intros H. apply triple_ret. intros ms h [-> ->]. done. Qed.

Lemma reads_raise {A} ms0 h0 e (R : A → Prop) : reads ms0 h0 (raise e) R.
Proof. intros ms w a ms' w' _ Hrun. discriminate. Qed.

Lemma reads_bind {A B} ms0 h0 (c : Meth A) (k : A → Meth B) R1 R :
  reads ms0 h0 c R1 → (∀ a, R1 a → reads ms0 h0 (k a) R) → reads ms0 h0 (bind c k) R.
Proof.
  intros Hc Hk. eapply triple_bind; [exact Hc|].
  intros a ms w b ms' w' (-> & Hh & Ha) Hrun.
  eapply (Hk a Ha); [|exact Hrun]. done.
Qed.

Lemma reads_weaken {A} ms0 h0 (c : Meth A) (R R' : A → Prop) :
  reads ms0 h0 c R' → (∀ a, R' a → R a) → reads ms0 h0 c R.
Proof.
  intros Hc HR ms w a ms' w' HP Hrun.
  destruct (Hc ms w a ms' w' HP Hrun) as (H1 & H2 & H3). auto.
Qed.

Lemma reads_lift_w {A} ms0 h0 (c : M world A) (R : A → Prop) :
  wreads c R → reads ms0 h0 (lift_w c) R.
Proof.
  intros Hc ms w a ms' w' [-> <-] Hrun. unfold lift_w in Hrun; simpl in Hrun.
  destruct (c w) as [r w1] eqn:E. injection Hrun as -> <- <-.
  destruct (Hc _ _ _ E) as [Hh Ha]. done.
Qed.

Lemma reads_self ms0 h0 (R : ModelSpectrum → Prop) : R ms0 → reads ms0 h0 self R.
Proof. intros H ms w a ms' w' [-> <-] [= <- <- <-]. done. Qed.

Lemma reads_getattr {A} ms0 h0 (proj : ModelSpectrum → option A) attr (R : A → Prop) :
  (∀ a, proj ms0 = Some a → R a) → reads ms0 h0 (getattr proj attr) R.
Proof.
  intros H ms w a ms' w' [-> <-] Hrun.
  unfold getattr, bind, self in Hrun; simpl in Hrun.
  destruct (proj ms0) eqn:E; [|discriminate].
  injection Hrun as <- <- <-. auto.
Qed.

Lemma reads_lift_result {A} ms0 h0 (r : result A) (R : A → Prop) :
  (∀ a, r = Ok a → R a) → reads ms0 h0 (lift_result r) R.
Proof. intros H ms w a ms' w' [-> <-] [= -> <- <-]. auto. Qed.

Lemma reads_fold_m {A B} ms0 h0 (body : B → A → Meth B) (l : list A) (acc : B)
    (I : B → Prop) :
  I acc → (∀ acc a, I acc → reads ms0 h0 (body acc a) I) →
  reads ms0 h0 (fold_m body l acc) I.
Proof.
  intros Hacc Hbody. revert acc Hacc.
  induction l as [|a l IH]; intros acc Hacc; simpl.
  - by apply reads_ret.
  - eapply reads_bind; [by apply Hbody|]. intros acc' Hacc'. by apply IH.
Qed.

Lemma wreads_emit l m : wreads (emit l m) (λ _, True).
Proof. intros w a w' [= <- <-]. done. Qed.

Lemma wreads_deref r (R : ParameterTable → Prop) :
  (∀ t, R t) → wreads (deref r) R.
Proof. intros H w a w' [= <- <-]. auto. Qed.

(** When [_set_parameter_hint] returns, the model it returns is the given
    one after one call of [set_param_hint] for [para_name]. *)
Lemma wreads_set_parameter_hint para_name input_dict input_model log_option :
  wreads (_set_parameter_hint para_name input_dict input_model log_option)
         (λ m', ∃ kw, m' = set_param_hint input_model para_name kw).
Proof.
  intros w a w' Hrun. unfold _set_parameter_hint in Hrun.
  apply bind_ok_inv in Hrun as (m1 & w1 & H1 & H2).
  apply bind_ok_inv in H2 as ([] & w2 & H2 & H3).
  injection H3 as <- <-.
  assert (Hw : heap w2 = heap w1).
  { destruct log_option; injection H2 as <-; reflexivity. }
  assert (Hm : w1 = w ∧ ∃ kw, m1 = set_param_hint input_model para_name kw).
  { repeat match type of H1 with
           | (if ?b then _ else _) _ = _ => destruct b
           end;
      (discriminate || (injection H1 as <- <-; split; [reflexivity | eexists; reflexivity])). }
  destruct Hm as [-> Hm]. done.
Qed.

(** ** Hints that survive later calls *)

Lemma hint_name_lower (m : Model) (n : string) :
  upper_first (prefix m) = true → upper_first n = false → hint_name m n = n.
Proof.
  unfold hint_name. destruct (prefix m) as [|c p]; [done|].
  destruct n as [|d s]; simpl; [done|].
  intros Hc Hd. destruct (decide (c = d)) as [->|]; [congruence | done].
Qed.

Lemma strip_prefix_app (p s : string) : strip_prefix p (p +:+ s) = Some s.
Proof.
  induction p as [|c p IH]; [reflexivity|].
  change (String c p +:+ s) with (String c (p +:+ s)). simpl.
  by rewrite decide_True.
Qed.

Lemma hint_name_app (m : Model) (s : string) : hint_name m (prefix m +:+ s) = s.
Proof.
  unfold hint_name. destruct (prefix m) as [|c p] eqn:E; [reflexivity|].
  by rewrite strip_prefix_app.
Qed.

Lemma upper_first_app (p s : string) :
  upper_first p = true → upper_first (p +:+ s) = true.
Proof. destruct p; [discriminate | done]. Qed.

Lemma tied_set_other (m : Model) (n : string) (kw : Hint) (name : string) :
  hint_name m n ≠ name → tied m name → tied (set_param_hint m n kw) name.
Proof.
  intros Hn (h & Hh & He). exists h. split; [|exact He].
  rewrite set_param_hint_other; [exact Hh | done].
Qed.

Lemma line_inv_set (g : Model) (n : string) (kw : Hint) :
  hint_name g n ∉ global_names → line_inv g → line_inv (set_param_hint g n kw).
Proof.
  intros Hn [Hp Ht]. split; [exact Hp|].
  rewrite Forall_forall in Ht |- *. intros name Hname.
  apply tied_set_other; [|by apply Ht].
  intros E. rewrite E in Hn. contradiction.
Qed.

(** A name that starts with a small letter and is not one of the five. *)
Lemma line_inv_set_lower (g : Model) (n : string) (kw : Hint) :
  upper_first n = false → n ∉ global_names →
  line_inv g → line_inv (set_param_hint g n kw).
Proof.
  intros Hl Hn Hg. apply line_inv_set; [|exact Hg].
  destruct Hg as [Hp _]. by rewrite hint_name_lower.
Qed.

Lemma tie_spec (cp : gmap string Hint) (name : string) (m m' : Model) :
  tie cp name m = Ok m' →
  is_Some (cp !! name) ∧ ∃ kw, h_expr kw = Some name ∧ m' = set_param_hint m name kw.
Proof.
  unfold tie, getitem. destruct (cp !! name) as [p|] eqn:E; [|discriminate].
  intros [= <-]. split; [by eexists|]. eexists. split; [|reflexivity]. reflexivity.
Qed.

Lemma tied_after_set (m : Model) (name : string) (kw : Hint) :
  hint_name m name = name → h_expr kw = Some name →
  tied (set_param_hint m name kw) name.
Proof.
  intros Hn He. eexists. split.
  - pose proof (set_param_hint_lookup m name kw) as H. rewrite Hn in H. exact H.
  - simpl. by rewrite He.
Qed.

(** [tie_all], when it returns: the prefix is the same, every listed name is
    tied and is a parameter of [cp], and what was tied stays tied. *)
Lemma tie_all_spec (cp : gmap string Hint) (names : list string) (m m' : Model) :
  (∀ m0 : Model, prefix m0 = prefix m → Forall (λ n, hint_name m0 n = n) names) →
  tie_all cp names m = Ok m' →
  prefix m' = prefix m
  ∧ Forall (λ n, tied m' n ∧ is_Some (cp !! n)) names
  ∧ ∀ n0, tied m n0 → tied m' n0.
Proof.
  unfold tie_all. revert m m'.
  induction names as [|name names IH] using rev_ind; intros m m' Hnames Hrun.
  - injection Hrun as <-. auto.
  - rewrite foldl_app in Hrun. simpl in Hrun.
    destruct (foldl _ (Ok m) names) as [m1|e] eqn:E; [|discriminate].
    assert (Hnames1 : ∀ m0, prefix m0 = prefix m → Forall (λ n, hint_name m0 n = n) names).
    { intros m0 H0. specialize (Hnames m0 H0). by apply Forall_app in Hnames as [? _]. }
    destruct (IH m m1 Hnames1 E) as (Hp1 & Ht1 & Hk1).
    apply tie_spec in Hrun as (Hcp & kw & Hkw & ->).
    assert (Hn1 : Forall (λ n, hint_name m1 n = n) (names ++ [name])) by by apply Hnames.
    apply Forall_app in Hn1 as [_ Hn1]. apply Forall_inv in Hn1.
    assert (Hkeep : ∀ n0, tied m1 n0 → tied (set_param_hint m1 name kw) n0).
    { intros n0 Hn0. destruct (decide (name = n0)) as [<-|Hne].
      - by apply tied_after_set.
      - apply tied_set_other; [by rewrite Hn1 | exact Hn0]. }
    split; [exact Hp1|]. split.
    + apply Forall_app. split.
      * eapply Forall_impl; [exact Ht1|]. intros n [Hn Hc]. auto.
      * constructor; [|constructor]. split; [by apply tied_after_set | exact Hcp].
    + intros n0 Hn0. auto.
Qed.

(** ** Element models *)

Lemma append_assoc (a b c : string) : (a +:+ b) +:+ c = a +:+ (b +:+ c).
Proof.
  induction a as [|x a IH]; [reflexivity|].
  change ((String x a +:+ b) +:+ c) with (String x ((a +:+ b) +:+ c)).
  by rewrite IH.
Qed.

Lemma line_prefix_app (ename line s : string) :
  (ename +:+ "_" +:+ line +:+ "_") +:+ s = ename +:+ "_" +:+ line +:+ "_" +:+ s.
Proof. by rewrite !append_assoc. Qed.

Ltac solve_notin := apply (bool_decide_unpack _); vm_compute; exact I.

(** A goal [line_inv] of a chain of [set_param_hint] calls for literal names
    and of conditionals over them. *)
Ltac line_inv_chain :=
  cbv zeta;
  repeat match goal with
         | |- context [if ?b then _ else _] => destruct b
         end;
  repeat (apply line_inv_set_lower; [reflexivity | solve_notin |]).

Lemma tie_all_line (cp : gmap string Hint) (p : string) (g : Model) :
  upper_first p = true →
  tie_all cp global_names (ElementModel p) = Ok g →
  line_inv g ∧ prefix g = p.
Proof.
  intros Hu Hrun.
  apply tie_all_spec in Hrun as (Hp & Ht & _).
  - split; [|exact Hp]. split; [by rewrite Hp|].
    eapply Forall_impl; [exact Ht|]. by intros n [Hn _].
  - intros m0 H0. simpl in H0.
    repeat constructor; apply hint_name_lower; (by rewrite H0) || reflexivity.
Qed.

Lemma reads_hint_from ms0 h0 tbl key name m lo :
  reads ms0 h0 (hint_from tbl key name m lo)
        (λ m', ∃ kw, m' = set_param_hint m name kw).
Proof.
  unfold hint_from.
  apply (reads_bind _ _ _ _ (λ _, True)); [by apply reads_lift_result|].
  intros e _.
  apply (reads_bind _ _ _ _ (λ _, True)); [by apply reads_lift_result|].
  intros d _. apply reads_lift_w, wreads_set_parameter_hint.
Qed.

Lemma reads_override ms0 h0 key name g :
  line_inv g → hint_name g name ∉ global_names →
  reads ms0 h0 (override key name g) (λ g', line_inv g' ∧ prefix g' = prefix g).
Proof.
  intros Hg Hn. unfold override.
  apply (reads_bind _ _ _ _ (λ _, True)); [by apply reads_self|].
  intros s _.
  apply (reads_bind _ _ _ _ (λ _, True)); [by apply reads_lift_w, wreads_deref|].
  intros tbl _. destruct (has_key tbl key).
  - eapply reads_weaken; [apply reads_hint_from|].
    intros g' [kw ->]. split; [by apply line_inv_set | reflexivity].
  - by apply reads_ret.
Qed.

Lemma reads_override_lower ms0 h0 key name g :
  line_inv g → upper_first name = false → name ∉ global_names →
  reads ms0 h0 (override key name g) (λ g', line_inv g' ∧ prefix g' = prefix g).
Proof.
  intros Hg Hl Hn. apply reads_override; [exact Hg|].
  destruct Hg as [Hp _]. by rewrite hint_name_lower.
Qed.

Lemma reads_accumulate ms0 h0 (acc : option CModel) (g : Model) :
  all_lines acc → line_inv g → reads ms0 h0 (accumulate acc g) all_lines.
Proof.
  intros Hacc Hg. unfold accumulate. destruct acc as [em|].
  - apply (reads_bind _ _ _ _ (λ c, Forall line_inv (components c))).
    + apply reads_lift_result. intros c [= <-]. simpl.
      apply Forall_app. split; [by apply Hacc | by constructor].
    + intros c Hc. apply reads_ret. by intros cm [= <-].
  - apply reads_ret. intros cm [= <-]. simpl. by constructor.
Qed.

Section ElementFacts.

Variable emission_line_all : string → list (string * Q).
Variable cs : string → Q → string → Q.

Lemma reads_k_step ms0 h0 ename ie acc item :
  upper_first ename = true → all_lines acc →
  reads ms0 h0 (k_step cs ename ie acc item) all_lines.
Proof.
  intros Hu Hacc. unfold k_step.
  destruct (Qeq_bool _ 0); [by apply reads_ret|].
  set (P := ename +:+ "_" +:+ item.1 +:+ "_").
  assert (HP : upper_first P = true) by by apply upper_first_app.
  apply (reads_bind _ _ _ _ (λ _, True)); [by apply reads_getattr|].
  intros cp _.
  apply (reads_bind _ _ _ _ (λ g, line_inv g ∧ prefix g = P)).
  { apply reads_lift_result. intros g Hg. by apply (tie_all_line cp). }
  intros g [Hg Hp].
  apply (reads_bind _ _ _ _ (λ g, line_inv g ∧ prefix g = P)).
  { eapply reads_weaken.
    - apply reads_override.
      + line_inv_chain; exact Hg.
      + assert (E : ename +:+ "_" +:+ item.1 +:+ "_area" = P +:+ "area")
          by (unfold P; by rewrite line_prefix_app).
        rewrite E.
        match goal with
        | |- hint_name ?m _ ∉ _ =>
            assert (Hm : prefix m = P)
              by (repeat match goal with
                         | |- context [if ?b then _ else _] => destruct b
                         end; exact Hp)
        end.
        rewrite <- Hm, hint_name_app. solve_notin.
    - intros g' [Hg' Hp']. split; [exact Hg'|]. rewrite Hp'.
      repeat match goal with
             | |- context [if ?b then _ else _] => destruct b
             end; exact Hp. }
  clear g Hg Hp. intros g [Hg Hp].
  apply (reads_bind _ _ _ _ (λ _, True)); [by apply reads_lift_w, wreads_emit|].
  intros _ _.
  apply (reads_bind _ _ _ _ (λ g, line_inv g ∧ prefix g = P)).
  { eapply reads_weaken.
    - apply reads_override_lower; [|reflexivity|solve_notin].
      line_inv_chain; exact Hg.
    - intros g' [Hg' Hp']. split; [exact Hg'|]. by rewrite Hp'. }
  clear g Hg Hp. intros g [Hg Hp].
  apply (reads_bind _ _ _ _ (λ g, line_inv g ∧ prefix g = P)).
  { eapply reads_weaken.
    - apply reads_override_lower; [exact Hg|reflexivity|solve_notin].
    - intros g' [Hg' Hp']. split; [exact Hg'|]. by rewrite Hp'. }
  clear g Hg Hp. intros g [Hg Hp].
  apply (reads_bind _ _ _ _ (λ g, line_inv g ∧ prefix g = P)).
  { eapply reads_weaken.
    - apply reads_override_lower; [exact Hg|reflexivity|solve_notin].
    - intros g' [Hg' Hp']. split; [exact Hg'|]. by rewrite Hp'. }
  clear g Hg Hp. intros g [Hg Hp].
  by apply reads_accumulate.
Qed.

Lemma reads_l_step ms0 h0 ename ie acc item :
  upper_first ename = true → all_lines acc →
  reads ms0 h0 (l_step cs ename ie acc item) all_lines.
Proof.
  intros Hu Hacc. unfold l_step.
  destruct (Qeq_bool _ 0); [by apply reads_ret|].
  set (P := ename +:+ "_" +:+ item.1 +:+ "_").
  assert (HP : upper_first P = true) by by apply upper_first_app.
  apply (reads_bind _ _ _ _ (λ _, True)); [by apply reads_getattr|].
  intros cp _.
  apply (reads_bind _ _ _ _ (λ g, line_inv g ∧ prefix g = P)).
  { apply reads_lift_result. intros g Hg. by apply (tie_all_line cp). }
  intros g [Hg Hp].
  apply (reads_bind _ _ _ _ (λ g, line_inv g ∧ prefix g = P)).
  { eapply reads_weaken.
    - apply reads_override_lower; [|reflexivity|solve_notin].
      line_inv_chain; exact Hg.
    - intros g' [Hg' Hp']. split; [exact Hg'|]. rewrite Hp'.
      repeat match goal with
             | |- context [if ?b then _ else _] => destruct b
             end; exact Hp. }
  clear g Hg Hp. intros g [Hg Hp].
  apply (reads_bind _ _ _ _ (λ g, line_inv g ∧ prefix g = P)).
  { eapply reads_weaken.
    - apply reads_override_lower; [exact Hg|reflexivity|solve_notin].
    - intros g' [Hg' Hp']. split; [exact Hg'|]. by rewrite Hp'. }
  clear g Hg Hp. intros g [Hg Hp].
  apply (reads_bind _ _ _ _ (λ g, line_inv g ∧ prefix g = P)).
  { eapply reads_weaken.
    - apply reads_override_lower; [exact Hg|reflexivity|solve_notin].
    - intros g' [Hg' Hp']. split; [exact Hg'|]. by rewrite Hp'. }
  clear g Hg Hp. intros g [Hg Hp].
  by apply reads_accumulate.
Qed.

Lemma reads_m_step ms0 h0 ename ie acc item :
  upper_first ename = true → all_lines acc →
  reads ms0 h0 (m_step cs ename ie acc item) all_lines.
Proof.
  intros Hu Hacc. unfold m_step.
  destruct (Qeq_bool _ 0); [by apply reads_ret|].
  set (P := ename +:+ "_" +:+ item.1 +:+ "_").
  assert (HP : upper_first P = true) by by apply upper_first_app.
  apply (reads_bind _ _ _ _ (λ _, True)); [by apply reads_getattr|].
  intros cp _.
  apply (reads_bind _ _ _ _ (λ g, line_inv g ∧ prefix g = P)).
  { apply reads_lift_result. intros g Hg. by apply (tie_all_line cp). }
  intros g [Hg Hp].
  apply reads_accumulate; [exact Hacc|].
  line_inv_chain; exact Hg.
Qed.

Lemma all_lines_None : all_lines None.
Proof. intros cm H. discriminate. Qed.

Lemma k_line_upper (ename : string) : ename ∈ k_line → upper_first ename = true.
Proof.
  assert (H : Forall (λ n, upper_first n = true) k_line).
  { apply (bool_decide_unpack _). vm_compute. exact I. }
  rewrite Forall_forall in H. apply H.
Qed.

Lemma l_m_line_upper (ename : string) :
  ename ∈ l_line ∨ ename ∈ m_line → upper_first (drop_end 2 ename) = true.
Proof.
  assert (H : Forall (λ n, upper_first (drop_end 2 n) = true) (l_line ++ m_line)).
  { apply (bool_decide_unpack _). vm_compute. exact I. }
  rewrite Forall_forall in H. intros Hn. apply H. by rewrite elem_of_app.
Qed.

(** [setElementModel], when it returns, has changed neither the instance nor
    the store, and what it returns is [None] or a sum of line models in which
    the five global parameters are tied. *)
Lemma reads_setElementModel ms0 h0 ename :
  reads ms0 h0 (setElementModel emission_line_all cs ename) all_lines.
Proof.
  unfold setElementModel.
  apply (reads_bind _ _ _ _ (λ _, True)); [by apply reads_getattr|].
  intros ie _. unfold str_in.
  destruct (bool_decide (ename ∈ k_line)) eqn:Ek.
  { apply bool_decide_eq_true in Ek. apply k_line_upper in Ek.
    destruct (Qeq_bool _ 0).
    - apply (reads_bind _ _ _ _ (λ _, True)); [by apply reads_lift_w, wreads_emit|].
      intros _ _. apply reads_ret, all_lines_None.
    - apply (reads_bind _ _ _ _ (λ _, True)); [by apply reads_lift_w, wreads_emit|].
      intros _ _.
      apply (reads_bind _ _ _ _ all_lines).
      + apply reads_fold_m; [apply all_lines_None|].
        intros acc a Hacc. by apply reads_k_step.
      + intros r Hr.
        apply (reads_bind _ _ _ _ (λ _, True)); [by apply reads_lift_w, wreads_emit|].
        intros _ _. by apply reads_ret. }
  destruct (bool_decide (ename ∈ l_line)) eqn:El.
  { apply bool_decide_eq_true in El.
    assert (Hu : upper_first (drop_end 2 ename) = true) by (apply l_m_line_upper; auto).
    cbv zeta. destruct (Qeq_bool _ 0).
    - apply (reads_bind _ _ _ _ (λ _, True)); [by apply reads_lift_w, wreads_emit|].
      intros _ _. apply reads_ret, all_lines_None.
    - apply reads_fold_m; [apply all_lines_None|].
      intros acc a Hacc. by apply reads_l_step. }
  destruct (bool_decide (ename ∈ m_line)) eqn:Em.
  { apply bool_decide_eq_true in Em.
    assert (Hu : upper_first (drop_end 2 ename) = true) by (apply l_m_line_upper; auto).
    cbv zeta. destruct (Qeq_bool _ 0).
    - apply (reads_bind _ _ _ _ (λ _, True)); [by apply reads_lift_w, wreads_emit|].
      intros _ _. apply reads_ret, all_lines_None.
    - apply reads_fold_m; [apply all_lines_None|].
      intros acc a Hacc. by apply reads_m_step. }
  apply reads_ret, all_lines_None.
Qed.

End ElementFacts.

(** ** Construction *)

Lemma triple_raise {A} P e (Q : A → ModelSpectrum → store → Prop) :
  triple P (raise e) Q.
Proof. intros ms w a ms' w' _ Hrun. discriminate. Qed.

Lemma reads_then {A B} ms0 h0 (c : Meth A) (R : A → Prop) (k : A → Meth B) Q :
  reads ms0 h0 c R →
  (∀ a, R a → triple (λ ms h, ms = ms0 ∧ h = h0) (k a) Q) →
  triple (λ ms h, ms = ms0 ∧ h = h0) (bind c k) Q.
Proof.
  intros Hc Hk. eapply triple_bind; [exact Hc|].
  intros a ms w b ms' w' (Hm & Hh & Ha) Hrun.
  eapply (Hk a Ha); [|exact Hrun]. done.
Qed.

Lemma triple_of_reads {A} ms0 h0 (c : Meth A) (R : A → Prop)
    (Q : A → ModelSpectrum → store → Prop) :
  reads ms0 h0 c R → (∀ a, R a → Q a ms0 h0) →
  triple (λ ms h, ms = ms0 ∧ h = h0) c Q.
Proof.
  intros Hc HQ ms w a ms' w' HP Hrun.
  destruct (Hc ms w a ms' w' HP Hrun) as (-> & -> & Ha). auto.
Qed.

Lemma reads_deref ms0 h0 r :
  reads ms0 h0 (lift_w (deref r)) (λ t, t = h0 !!! r).
Proof. intros ms w a ms' w' [-> <-] [= <- <- <-]. done. Qed.

Lemma triple_for_each {A} (J : ModelSpectrum → store → Prop) (l : list A)
    (body : A → Meth unit) :
  (∀ a, triple J (body a) (λ _, J)) → triple J (for_each l body) (λ _, J).
Proof.
  intros Hbody. induction l as [|a l IH]; simpl.
  - by apply triple_ret.
  - eapply triple_bind; [apply Hbody|]. intros []. exact IH.
Qed.

Section ConstructionFacts.

Variable get_para : ParameterTable.
Variable emission_line_all : string → list (string * Q).
Variable cs : string → Q → string → Q.
Variable compton_hints0 : gmap string Hint.
Variable elastic_hints0 : gmap string Hint.

Lemma triple_setComptonModel ms0 h0 :
  triple (λ ms h, ms = ms0 ∧ h = h0) (setComptonModel compton_hints0)
         (λ _ ms h, h = h0 ∧ ∃ c, ms = set_compton (make_params c) c ms0 ∧ prefix c = "").
Proof.
  unfold setComptonModel. cbv zeta.
  apply (reads_then _ _ _ (λ _, True)); [by apply reads_lift_w, wreads_emit|].
  intros _ _.
  apply (reads_then _ _ _ (λ c, prefix c = "")).
  { apply reads_fold_m; [reflexivity|].
    intros c name Hc.
    apply (reads_bind _ _ _ _ (λ _, True)); [by apply reads_self|].
    intros s _.
    apply (reads_bind _ _ _ _ (λ _, True)); [by apply reads_lift_w, wreads_deref|].
    intros tbl _.
    destruct (has_key tbl name);
      (eapply reads_weaken; [apply reads_hint_from|]; by intros m' [kw ->]). }
  intros c Hc.
  apply (reads_then _ _ _ (λ _, True)); [by apply reads_lift_w, wreads_emit|].
  intros _ _. apply triple_set_self. intros ms h [-> ->]. eauto.
Qed.

Lemma elastic_names_stable (m0 : Model) :
  prefix m0 = "elastic_" → Forall (λ n, hint_name m0 n = n) elastic_names.
Proof.
  intros H0. unfold hint_name. rewrite H0. repeat constructor.
Qed.

Lemma triple_setElasticModel ms0 h0 cp :
  compton_param ms0 = Some cp →
  triple (λ ms h, ms = ms0 ∧ h = h0) (setElasticModel elastic_hints0)
         (λ _ ms h, h = h0 ∧ ∃ e, ms = set_elastic e ms0 ∧ prefix e = "elastic_"
                     ∧ Forall (λ n, tied e n ∧ is_Some (cp !! n)) elastic_names).
Proof.
  intros Hcp. unfold setElasticModel. cbv zeta.
  apply (reads_then _ _ _ (λ _, True)); [by apply reads_self|].
  intros s _.
  apply (reads_then _ _ _ (λ _, True)); [by apply reads_lift_w, wreads_deref|].
  intros tbl _.
  apply (reads_then _ _ _ (λ e, prefix e = "elastic_")).
  { destruct (has_key tbl _);
      (eapply reads_weaken; [apply reads_hint_from|]; by intros m' [kw ->]). }
  intros e1 He1.
  apply (reads_then _ _ _ (λ _, True)); [by apply reads_lift_w, wreads_emit|].
  intros _ _.
  apply (reads_then _ _ _ (λ a, a = cp)).
  { apply reads_getattr. intros a Ha. congruence. }
  intros ? ->.
  apply (reads_then _ _ _ (λ e, prefix e = "elastic_"
           ∧ Forall (λ n, tied e n ∧ is_Some (cp !! n)) elastic_names)).
  { apply reads_lift_result. intros e He.
    apply tie_all_spec in He as (Hp & Ht & _).
    - split; [congruence | exact Ht].
    - intros m0 H0. apply elastic_names_stable. congruence. }
  intros e [Hp Ht].
  apply (reads_then _ _ _ (λ _, True)); [by apply reads_lift_w, wreads_emit|].
  intros _ _. apply triple_set_self. intros ms h [-> ->]. eauto.
Qed.

Lemma base_facts_config_list ms0 h0 r (non_fit : entry) :
  ms0 = {| parameter := r; parameter_default := get_para; element_list := None;
           incident_energy := None; compton_param := None; compton := None;
           elastic := None; self_mod := None |} →
  (h0 !!! r) !! "non_fitting_values" = Some non_fit →
  triple (λ ms h, ms = ms0 ∧ h = h0)
    (match entry_get non_fit "element_list" with
     | Some (PStr el) =>
         let l := if str_contains "," el then split_sep ", " el else split_ws el in
         set_self (set_element_list (strip <$> l))
     | Some (PNum _) => raise (TypeError "argument of type 'float' is not iterable")
     | None => lift_w (emit CRITICAL MsgNoElement)
     end)
    (λ _ ms h, h = h0 ∧ base_facts h0 r ms).
Proof.
  intros -> Hnf.
  destruct (entry_get non_fit "element_list") as [[el|q]|] eqn:E.
  - apply triple_set_self. intros ms h [-> ->]. split; [done|].
    split; [done|]. split; [done|].
    intros (nf & Hnf' & HN). rewrite Hnf in Hnf'. injection Hnf' as <-. congruence.
  - apply triple_raise.
  - eapply triple_of_reads; [by apply reads_lift_w, wreads_emit|].
    intros _ _. split; [done|]. by repeat split.
Qed.

Lemma base_facts_set_incident_energy h0 r v ms :
  base_facts h0 r ms → base_facts h0 r (set_incident_energy v ms).
Proof. intros (H1 & H2 & H3). by repeat split. Qed.

Lemma base_facts_set_compton h0 r p c ms :
  base_facts h0 r ms → base_facts h0 r (set_compton p c ms).
Proof. intros (H1 & H2 & H3). by repeat split. Qed.

Lemma base_facts_set_elastic h0 r e ms :
  base_facts h0 r ms → base_facts h0 r (set_elastic e ms).
Proof. intros (H1 & H2 & H3). by repeat split. Qed.

(** [_config] on a new instance, when it returns. *)
Lemma triple_config ms0 h0 r :
  ms0 = {| parameter := r; parameter_default := get_para; element_list := None;
           incident_energy := None; compton_param := None; compton := None;
           elastic := None; self_mod := None |} →
  triple (λ ms h, ms = ms0 ∧ h = h0) (_config compton_hints0 elastic_hints0)
         (λ _ ms h, h = h0 ∧ base_facts h0 r ms ∧ constructed ms).
Proof.
  intros Hms0. unfold _config.
  apply (reads_then _ _ _ (λ s, s = ms0)); [by apply reads_self|].
  intros ? ->.
  apply (reads_then _ _ _ (λ t, t = h0 !!! r)).
  { rewrite Hms0 at 2. simpl. apply reads_deref. }
  intros ? ->.
  apply (reads_then _ _ _ (λ nf, (h0 !!! r) !! "non_fitting_values" = Some nf)).
  { apply reads_lift_result. intros nf Hnf. unfold getitem in Hnf.
    destruct (_ !! _) eqn:E; [|discriminate]. by injection Hnf as <-. }
  intros non_fit Hnf.
  eapply triple_bind; [by apply (base_facts_config_list ms0 h0 r non_fit)|].
  intros []. apply triple_freeze. intros ms1 h1 [-> Hb1].
  apply (reads_then _ _ _ (λ _, True)); [by apply reads_lift_w, wreads_deref|].
  intros tbl _.
  apply (reads_then _ _ _ (λ _, True)); [by apply reads_lift_result|].
  intros e _.
  apply (reads_then _ _ _ (λ _, True)).
  { destruct (entry_get e "value") as [[s|v]|];
      [apply reads_raise | by apply reads_ret | apply reads_raise]. }
  intros v _.
  apply (triple_bind _ _ (λ _ ms h, h = h0 ∧ base_facts h0 r ms)).
  { apply triple_set_self. intros ms h [-> ->].
    split; [done|]. by apply base_facts_set_incident_energy. }
  intros [].
  apply (triple_bind _ _ (λ _ ms h, h = h0 ∧ base_facts h0 r ms
           ∧ ∃ c, compton ms = Some c ∧ compton_param ms = Some (make_params c)
                  ∧ prefix c = "")).
  { apply triple_freeze. intros ms2 h2 [-> Hb2].
    eapply triple_conseq; [apply (triple_setComptonModel ms2 h0) | intros ms h H; exact H |].
    intros _ ms h (-> & c & -> & Hc). split; [done|].
    split; [by apply base_facts_set_compton|]. by exists c. }
  intros []. apply triple_freeze. intros ms3 h3 (-> & Hb3 & c & Hc1 & Hc2 & Hc3).
  eapply triple_conseq; [by apply (triple_setElasticModel ms3 h0 _ Hc2) | intros ms h H; exact H |].
  intros _ ms h (-> & e' & -> & He1 & He2). split; [done|].
  split; [by apply base_facts_set_elastic|].
  exists c, e'. by repeat split.
Qed.

(** The constructor, when it returns. *)
Lemma ModelSpectrum_init_spec r w ms w' :
  ModelSpectrum_init get_para compton_hints0 elastic_hints0 r w = (Ok ms, w') →
  heap w' = heap w ∧ base_facts (heap w) r ms ∧ constructed ms.
Proof.
  unfold ModelSpectrum_init. intros Hrun.
  destruct (_config _ _ _) as [[[]|e] [ms1 w1]] eqn:E; [|discriminate].
  injection Hrun as <- <-.
  by apply (triple_config _ (heap w) r eq_refl _ _ _ _ _ (conj eq_refl eq_refl) E).
Qed.

(** [model_spectrum], when it returns: the composite is the Compton model,
    the elastic model and line models, in this order. *)
Lemma triple_model_spectrum ms0 h0 c e :
  compton ms0 = Some c → elastic ms0 = Some e →
  triple (λ ms h, ms = ms0 ∧ h = h0) (model_spectrum emission_line_all cs)
         (λ _ ms h, h = h0 ∧ ∃ cm rest, ms = set_mod cm ms0
                    ∧ components cm = c :: e :: rest ∧ Forall line_inv rest).
Proof.
  intros Hc He. unfold model_spectrum.
  apply (reads_then _ _ _ (λ a, a = c)).
  { apply reads_getattr. intros a Ha. congruence. }
  intros ? ->.
  apply (reads_then _ _ _ (λ a, a = e)).
  { apply reads_getattr. intros a Ha. congruence. }
  intros ? ->.
  apply (reads_then _ _ _ (λ m, m = Plus (Single c) (Single e))).
  { apply reads_lift_result. by intros m [= <-]. }
  intros ? ->.
  set (J := λ (ms : ModelSpectrum) (h : store),
              h = h0 ∧ ∃ cm rest, ms = set_mod cm ms0
                ∧ components cm = c :: e :: rest ∧ Forall line_inv rest).
  apply (triple_bind _ _ (λ _, J)).
  { apply triple_set_self. intros ms h [-> ->]. split; [done|].
    exists (Plus (Single c) (Single e)), []. by repeat split. }
  intros []. apply triple_freeze. intros ms1 h1 HJ.
  apply (reads_then _ _ _ (λ _, True)); [by apply reads_getattr|].
  intros el _.
  eapply triple_conseq; [apply (triple_for_each J) | by intros ms h [-> ->] | done].
  intros ename. apply triple_freeze.
  intros ms2 h2 (-> & cm & rest & -> & Hcm & Hrest).
  apply (reads_then _ _ _ (λ _, True)); [by apply reads_lift_w, wreads_emit|].
  intros _ _.
  apply (reads_then _ _ _ (λ a, a = cm)).
  { apply reads_getattr. intros a Ha. simpl in Ha. congruence. }
  intros ? ->.
  apply (reads_then _ _ _ all_lines); [apply reads_setElementModel|].
  intros em Hem.
  apply (reads_then _ _ _ (λ m, ∃ rest', components m = c :: e :: rest'
                                  ∧ Forall line_inv rest')).
  { apply reads_lift_result. intros m Hm. destruct em as [em|]; [|discriminate].
    injection Hm as <-. exists (rest ++ components em)%list. simpl. rewrite Hcm. split; [done|].
    apply Forall_app. split; [exact Hrest | by apply Hem]. }
  intros m (rest' & Hm & Hrest').
  apply triple_set_self. intros ms h [-> ->]. split; [done|].
  exists m, rest'. by repeat split.
Qed.

End ConstructionFacts.

(** ** The composite *)

Lemma make_params_lookup (g : Model) (n : string) :
  make_params g !! (prefix g +:+ n) = param_hints g !! n.
Proof. unfold make_params. apply (lookup_kmap (String.append (prefix g))). Qed.

Lemma tied_to_compton_intro (c g : Model) (n : string) :
  tied g n → is_Some (make_params c !! n) → tied_to_compton c g n.
Proof.
  intros (h & Hh & He) Hc. split; [exact Hc|].
  exists h. by rewrite make_params_lookup.
Qed.

Lemma global_in_elastic_names : global_names ⊆ elastic_names.
Proof. apply (bool_decide_unpack _). vm_compute. exact I. Qed.

(** C2. In the composite that [model_spectrum] builds on a constructed
    instance, the first two components are the Compton model, which has no
    prefix, and the elastic model; the elastic model's six shared parameters
    and the five global parameters of every other component (the line models
    of the elements) carry the name of the same parameter of the Compton model
    as their expression. *)
Theorem composite_tied_to_compton (get_para : ParameterTable)
    (emission_line_all : string → list (string * Q)) (cs : string → Q → string → Q)
    (compton_hints0 elastic_hints0 : gmap string Hint)
    (r : loc) (w w1 w2 : world) (ms ms' : ModelSpectrum) :
  ModelSpectrum_init get_para compton_hints0 elastic_hints0 r w = (Ok ms, w1) →
  model_spectrum emission_line_all cs (ms, w1) = (Ok tt, (ms', w2)) →
  ∃ cm c e lines,
    self_mod ms' = Some cm
    ∧ components cm = c :: e :: lines
    ∧ compton ms' = Some c ∧ prefix c = ""
    ∧ elastic ms' = Some e ∧ prefix e = "elastic_"
    ∧ Forall (tied_to_compton c e) elastic_names
    ∧ Forall (λ g, Forall (tied_to_compton c g) global_names) lines.
Proof.
  intros Hinit Hrun.
  apply ModelSpectrum_init_spec in Hinit
    as (_ & _ & c & e & Hc & Hcp & Hpc & He & Hpe & Hte).
  destruct (triple_model_spectrum emission_line_all cs ms (heap w1) c e Hc He
              ms w1 tt ms' w2 (conj eq_refl eq_refl) Hrun)
    as (_ & cm & lines & -> & Hcm & Hlines).
  exists cm, c, e, lines. repeat split; try done.
  - eapply Forall_impl; [exact Hte|]. intros n [Hn Hs]. by apply tied_to_compton_intro.
  - eapply Forall_impl; [exact Hlines|]. intros g [_ Hg].
    rewrite Forall_forall in Hg, Hte |- *. intros n Hn.
    apply tied_to_compton_intro; [by apply Hg|].
    apply Hte. by apply global_in_elastic_names.
Qed.

Lemma composite_tied_to_compton_witness :
  ∃ cm c e lines,
    self_mod (sample_built (sample_table 12)).1 = Some cm
    ∧ components cm = c :: e :: lines
    ∧ compton (sample_built (sample_table 12)).1 = Some c ∧ prefix c = ""
    ∧ elastic (sample_built (sample_table 12)).1 = Some e ∧ prefix e = "elastic_"
    ∧ Forall (tied_to_compton c e) elastic_names
    ∧ Forall (λ g, Forall (tied_to_compton c g) global_names) lines.
Proof.
  apply (composite_tied_to_compton sample_get_para sample_lines sample_cs ∅ ∅
           1%positive (sample_world (sample_table 12))
           (sample_instance (sample_table 12)).2 (sample_built (sample_table 12)).2
           (sample_instance (sample_table 12)).1 (sample_built (sample_table 12)).1);
    vm_compute; reflexivity.
Defined.

(** On the sample the composite has five components: Compton, elastic and
    the three excited lines of iron. *)
Example sample_composite_prefixes :
  (λ cm, prefix <$> components cm) <$> self_mod (sample_built (sample_table 12)).1
  = Some [""; "elastic_"; "Fe_ka1_"; "Fe_ka2_"; "Fe_kb1_"].
Proof. vm_compute. reflexivity. Qed.

(** ** The table of an instance *)

(** C5, as stated, fails: two instances built from the table at one
    reference keep that reference, and an update made through the table of the
    first is seen through the caller's reference and through the second. *)
Lemma ModelSpectrum_shares_table :
  (ModelSpectrum_init sample_get_para ∅ ∅ 1%positive
                      (sample_instance (sample_table 12)).2).1
  = Ok sample_second.1
  ∧ parameter (sample_instance (sample_table 12)).1 = 1%positive
  ∧ parameter sample_second.1 = 1%positive
  ∧ (heap sample_second.2 !!! 1%positive) !! "coherent_sct_energy"
    = Some (Spec (sample_spec 12))
  ∧ (heap sample_updated !!! 1%positive) !! "coherent_sct_energy"
    = Some (Spec (sample_spec 20))
  ∧ (heap sample_updated !!! parameter sample_second.1) !! "coherent_sct_energy"
    = Some (Spec (sample_spec 20)).
Proof.
  split; [vm_compute; reflexivity|].
  split; [vm_compute; reflexivity|].
  split; [vm_compute; reflexivity|].
  split; [vm_compute; reflexivity|].
  split; vm_compute; reflexivity.
Qed.

(** C5, amended. The constructor keeps the caller's reference to the table
    and leaves the store as it was; an update in place through the instance's
    table is therefore an update of the table at the caller's reference. *)
Theorem ModelSpectrum_keeps_reference (get_para : ParameterTable)
    (compton_hints0 elastic_hints0 : gmap string Hint)
    (r : loc) (w w' : world) (ms : ModelSpectrum) :
  ModelSpectrum_init get_para compton_hints0 elastic_hints0 r w = (Ok ms, w') →
  parameter ms = r ∧ heap w' = heap w
  ∧ ∀ values w2,
      heap (update_parameter_dict (parameter ms) values w2).2 !! r
      = Some (map_imap (λ k e, Some (update_entry values k e)) (heap w2 !!! r)).
Proof.
  intros Hinit.
  apply ModelSpectrum_init_spec in Hinit as (Hh & (Hp & _) & _).
  split; [exact Hp|]. split; [exact Hh|].
  intros values w2. rewrite Hp. unfold update_parameter_dict, modify; simpl.
  apply lookup_insert_eq.
Qed.

Lemma ModelSpectrum_keeps_reference_witness :
  parameter (sample_instance (sample_table 12)).1 = 1%positive
  ∧ heap (sample_instance (sample_table 12)).2 = heap (sample_world (sample_table 12))
  ∧ ∀ values w2,
      heap (update_parameter_dict (parameter (sample_instance (sample_table 12)).1)
                                  values w2).2 !! 1%positive
      = Some (map_imap (λ k e, Some (update_entry values k e)) (heap w2 !!! 1%positive)).
Proof.
  apply (ModelSpectrum_keeps_reference sample_get_para ∅ ∅ 1%positive
           (sample_world (sample_table 12)) (sample_instance (sample_table 12)).2
           (sample_instance (sample_table 12)).1).
  vm_compute; reflexivity.
Defined.

(** ** A table without element list *)

Lemma model_spectrum_unset_list (emission_line_all : string → list (string * Q))
    (cs : string → Q → string → Q) (ms : ModelSpectrum) (w : world) (c e : Model) :
  element_list ms = None → compton ms = Some c → elastic ms = Some e →
  model_spectrum emission_line_all cs (ms, w)
  = (Raise (AttributeError "element_list"),
     (set_mod (Plus (Single c) (Single e)) ms, w)).
Proof.
  intros Hl Hc He.
  unfold model_spectrum, bind, getattr, self, bind, ret, raise, lift_result, set_self, modify.
  simpl. rewrite Hc. simpl. rewrite He. simpl. by rewrite Hl.
Qed.

(** C6. The claim fails on the code.  When the table has no 'element_list'
    and the constructor returns, the attribute [element_list] is unset and
    [model_spectrum()] raises AttributeError after it has assigned the sum of
    the Compton and elastic models; on the sample table the constructor
    returns, having logged the absence at critical severity, and
    [model_spectrum()] raises. *)
Theorem model_spectrum_without_element_list :
  (∀ get_para emission_line_all cs compton_hints0 elastic_hints0 r w ms w1,
      ModelSpectrum_init get_para compton_hints0 elastic_hints0 r w = (Ok ms, w1) →
      no_element_list (heap w) r →
      ∃ c e,
        compton ms = Some c ∧ elastic ms = Some e
        ∧ model_spectrum emission_line_all cs (ms, w1)
          = (Raise (AttributeError "element_list"),
             (set_mod (Plus (Single c) (Single e)) ms, w1)))
  ∧ (ModelSpectrum_init sample_get_para ∅ ∅ 1%positive
                        (sample_world sample_table_no_list)).1
    = Ok (sample_instance sample_table_no_list).1
  ∧ In (CRITICAL, MsgNoElement) (logs (sample_instance sample_table_no_list).2)
  ∧ (model_spectrum sample_lines sample_cs (sample_instance sample_table_no_list)).1
    = Raise (AttributeError "element_list").
Proof.
  split.
  { intros gp ela cs ch eh r w ms w1 Hinit Hno.
    apply ModelSpectrum_init_spec in Hinit
      as (_ & (_ & _ & Hl) & c & e & Hc & _ & _ & He & _).
    exists c, e. split; [exact Hc|]. split; [exact He|].
    apply model_spectrum_unset_list; auto. }
  split; [vm_compute; reflexivity|].
  split; [vm_compute; auto|].
  vm_compute; reflexivity.
Qed.

(** ** An element that is not excited *)

Lemma m_not_l (name : string) : name ∈ m_line → name ∉ l_line.
Proof.
  intros Hm Hl.
  assert (Hd : Forall (λ n, n ∉ l_line) m_line).
  { apply (bool_decide_unpack _). vm_compute. exact I. }
  rewrite Forall_forall in Hd. by apply (Hd name).
Qed.

Section InactiveFacts.

Variable emission_line_all : string → list (string * Q).
Variable cs : string → Q → string → Q.

(** With a principal line that is not excited, [setElementModel] logs and
    returns [None]; the instance and the store stay as they were. *)
Lemma setElementModel_inactive (ms : ModelSpectrum) (w : world) (ename : string) (ie : Q) :
  incident_energy ms = Some ie → inactive cs ename ie →
  ∃ w', setElementModel emission_line_all cs ename (ms, w) = (Ok None, (ms, w'))
        ∧ heap w' = heap w.
Proof.
  intros Hie Hin.
  unfold setElementModel, bind, getattr, self, bind, ret, raise. simpl.
  rewrite Hie. simpl. unfold str_in.
  destruct Hin as [[Hk Hz]|[[Hl Hz]|[Hm Hz]]].
  - rewrite (bool_decide_eq_true_2 _ Hk), Hz. eexists. split; reflexivity.
  - rewrite (bool_decide_eq_false_2 (ename ∈ k_line)) by (apply l_m_not_k; auto).
    rewrite (bool_decide_eq_true_2 _ Hl). cbv zeta. rewrite Hz.
    eexists. split; reflexivity.
  - rewrite (bool_decide_eq_false_2 (ename ∈ k_line)) by (apply l_m_not_k; auto).
    rewrite (bool_decide_eq_false_2 (ename ∈ l_line)) by by apply m_not_l.
    rewrite (bool_decide_eq_true_2 _ Hm). cbv zeta. rewrite Hz.
    eexists. split; reflexivity.
Qed.

(** The body of the loop of [model_spectrum]. *)
Let body : string → Meth unit := λ ename,
  (lift_w (emit STDOUT (MsgConstruct ename)) ;;
   do cur <- getattr self_mod "mod";
   do em <- setElementModel emission_line_all cs ename;
   do m <- lift_result (add cur em);
   set_self (set_mod m))%py.

Lemma body_keeps_energy (ie : Q) (ename : string) :
  triple (λ ms h, incident_energy ms = Some ie) (body ename)
         (λ _ ms h, incident_energy ms = Some ie).
Proof.
  apply triple_freeze. intros ms0 h0 Hie. unfold body.
  apply (reads_then _ _ _ (λ _, True)); [by apply reads_lift_w, wreads_emit|].
  intros _ _.
  apply (reads_then _ _ _ (λ _, True)); [by apply reads_getattr|].
  intros cur _.
  apply (reads_then _ _ _ (λ _, True)).
  { eapply reads_weaken; [apply reads_setElementModel | done]. }
  intros em _.
  apply (reads_then _ _ _ (λ _, True)); [by apply reads_lift_result|].
  intros m _. apply triple_set_self. by intros ms h [-> ->].
Qed.

Lemma body_inactive (ms : ModelSpectrum) (w : world) (ename : string) (ie : Q) res :
  incident_energy ms = Some ie → inactive cs ename ie →
  body ename (ms, w) ≠ (Ok tt, res).
Proof.
  intros Hie Hin Hrun. unfold body in Hrun.
  apply bind_ok_inv in Hrun as ([] & [ms1 w1] & H1 & Hrun).
  injection H1 as <- <-.
  apply bind_ok_inv in Hrun as (cur & [ms2 w2] & H2 & Hrun).
  assert (ms2 = ms) as ->.
  { unfold getattr, bind, self in H2; simpl in H2.
    destruct (self_mod ms); [by injection H2 | discriminate]. }
  apply bind_ok_inv in Hrun as (em & [ms3 w3] & H3 & Hrun).
  destruct (setElementModel_inactive ms w2 ename ie Hie Hin) as (w' & Hs & _).
  rewrite Hs in H3. injection H3 as <- <- <-.
  apply bind_ok_inv in Hrun as (m & s4 & H4 & _). discriminate.
Qed.

Lemma for_each_inactive (el : list string) (ms : ModelSpectrum) (w : world)
    (ename : string) (ie : Q) res :
  ename ∈ el → incident_energy ms = Some ie → inactive cs ename ie →
  for_each el body (ms, w) ≠ (Ok tt, res).
Proof.
  intros Hel Hie Hin. revert ms w Hie.
  induction el as [|a el IH]; intros ms w Hie Hrun; [by apply elem_of_nil in Hel|].
  simpl in Hrun. apply bind_ok_inv in Hrun as ([] & [ms1 w1] & H1 & Hrun).
  apply elem_of_cons in Hel as [<-|Hel].
  - by apply (body_inactive ms w ename ie (ms1, w1)).
  - apply (IH Hel ms1 w1); [|exact Hrun].
    by apply (body_keeps_energy ie a ms w tt ms1 w1).
Qed.

(** A configured element that is not excited keeps [model_spectrum] from
    returning. *)
Lemma model_spectrum_inactive (ms : ModelSpectrum) (w : world) (el : list string)
    (ename : string) (ie : Q) res :
  element_list ms = Some el → ename ∈ el →
  incident_energy ms = Some ie → inactive cs ename ie →
  model_spectrum emission_line_all cs (ms, w) ≠ (Ok tt, res).
Proof.
  intros Hl Hel Hie Hin Hrun. unfold model_spectrum in Hrun.
  apply bind_ok_inv in Hrun as (c & [ms1 w1] & H1 & Hrun).
  assert (ms1 = ms ∧ w1 = w) as [-> ->].
  { unfold getattr, bind, self in H1; simpl in H1.
    destruct (compton ms); [by injection H1 | discriminate]. }
  apply bind_ok_inv in Hrun as (e & [ms2 w2] & H2 & Hrun).
  assert (ms2 = ms ∧ w2 = w) as [-> ->].
  { unfold getattr, bind, self in H2; simpl in H2.
    destruct (elastic ms); [by injection H2 | discriminate]. }
  apply bind_ok_inv in Hrun as (m & [ms3 w3] & H3 & Hrun).
  injection H3 as <- <- <-.
  apply bind_ok_inv in Hrun as ([] & [ms4 w4] & H4 & Hrun).
  injection H4 as <- <-.
  apply bind_ok_inv in Hrun as (el' & [ms5 w5] & H5 & Hrun).
  unfold getattr, bind, self in H5; simpl in H5. rewrite Hl in H5.
  injection H5 as <- <- <-.
  by apply (for_each_inactive el _ w ename ie res Hel) in Hrun.
Qed.

End InactiveFacts.

(** C7. The claim holds for [setElementModel] and fails for the composite.
    An element whose principal line is not excited gets no model
    ([setElementModel] returns [None] and changes nothing), and
    [model_spectrum()] on an instance that lists such an element does not
    return; on the sample table with the incident energy 5, below iron's K
    edge, the constructor returns and [model_spectrum()] raises. *)
Theorem model_spectrum_inactive_element :
  (∀ emission_line_all cs ms w ename ie,
      incident_energy ms = Some ie → inactive cs ename ie →
      ∃ w', setElementModel emission_line_all cs ename (ms, w) = (Ok None, (ms, w'))
            ∧ heap w' = heap w)
  ∧ (∀ emission_line_all cs ms w el ename ie res,
      element_list ms = Some el → ename ∈ el →
      incident_energy ms = Some ie → inactive cs ename ie →
      model_spectrum emission_line_all cs (ms, w) ≠ (Ok tt, res))
  ∧ (ModelSpectrum_init sample_get_para ∅ ∅ 1%positive
                        (sample_world (sample_table 5))).1
    = Ok (sample_instance (sample_table 5)).1
  ∧ element_list (sample_instance (sample_table 5)).1 = Some ["Fe"]
  ∧ (setElementModel sample_lines sample_cs "Fe" (sample_instance (sample_table 5))).1
    = Ok None
  ∧ (model_spectrum sample_lines sample_cs (sample_instance (sample_table 5))).1
    = Raise (ValueError "CompositeModel: argument None is not a Model").
Proof.
  split; [intros; by eapply setElementModel_inactive|].
  split; [intros; by eapply model_spectrum_inactive|].
  split; [vm_compute; reflexivity|].
  split; [vm_compute; reflexivity|].
  split; vm_compute; reflexivity.
Qed.

(** The selection loop of [get_linear_model] tests the model before it uses
    it: on the same table it returns, with no element selected. *)
Example get_linear_model_select_sample :
  (get_linear_model_select sample_get_para sample_lines sample_cs ∅ ∅ 1%positive
                           (sample_world (sample_table 5))).1
  = Ok ([], []).
Proof. vm_compute. reflexivity. Qed.

(** * Further properties of the code *)

(** ** Bound types *)

(** X1. A bound type that is none of the five raises ValueError naming the
    parameter; nothing is logged, even with the log option, and the world is
    as it was. *)
Theorem set_parameter_hint_invalid (para_name : string) (input_dict : ParameterSpec)
    (input_model : Model) (log_option : bool) (w : world) :
  bound_type input_dict ∉ ["none"; "fixed"; "lohi"; "lo"; "hi"] →
  _set_parameter_hint para_name input_dict input_model log_option w
  = (Raise (ValueError ("could not set values for " +:+ para_name)), w).
Proof.
  intros Hb. unfold _set_parameter_hint, bind.
  repeat match goal with
         | |- context [String.eqb (bound_type input_dict) ?s] =>
             destruct (String.eqb_spec (bound_type input_dict) s) as [E|_];
             [exfalso; apply Hb; rewrite E; apply (bool_decide_unpack _); vm_compute; exact I|]
         end.
  reflexivity.
Qed.

Lemma set_parameter_hint_invalid_witness :
  _set_parameter_hint "e_offset"
    {| bound_type := "free"; value := 1; vmin := 0; vmax := 2; free_more := "none";
       adjust_element := "fixed"; e_calibration := "fixed"; linear := "none" |}
    (ElementModel "Fe_ka1_") true (sample_world ∅)
  = (Raise (ValueError "could not set values for e_offset"), sample_world ∅).
Proof.
  apply (set_parameter_hint_invalid "e_offset"). apply (bool_decide_unpack _).
  vm_compute. exact I.
Defined.

(** X2. For the bound types none, fixed, lohi and lo the call returns; the
    parameter gets the dictionary's value, varies unless the type is fixed,
    gets both bounds for lohi and the lower bound only for lo; a bound the call
    does not set stays what the hint held before. *)
Theorem set_parameter_hint_bounds (para_name : string) (input_dict : ParameterSpec)
    (input_model : Model) (log_option : bool) (w : world) :
  bound_type input_dict ∈ ["none"; "fixed"; "lohi"; "lo"] →
  ∃ m' w' h,
    _set_parameter_hint para_name input_dict input_model log_option w = (Ok m', w')
    ∧ param_hints m' !! hint_name input_model para_name = Some h
    ∧ h_value h = Some (value input_dict)
    ∧ h_vary h = Some (negb (String.eqb (bound_type input_dict) "fixed"))
    ∧ h_min h
      = (if bool_decide (bound_type input_dict ∈ ["lohi"; "lo"])
         then Some (vmin input_dict)
         else (param_hints input_model !! hint_name input_model para_name) ≫= h_min)
    ∧ h_max h
      = (if String.eqb (bound_type input_dict) "lohi"
         then Some (vmax input_dict)
         else (param_hints input_model !! hint_name input_model para_name) ≫= h_max).
Proof.
  intros Hb.
  assert (Hcase : bound_type input_dict = "none" ∨ bound_type input_dict = "fixed"
                  ∨ bound_type input_dict = "lohi" ∨ bound_type input_dict = "lo")
    by (rewrite !elem_of_cons, elem_of_nil in Hb; tauto).
  unfold _set_parameter_hint, bind.
  destruct Hcase as [E|[E|[E|E]]]; rewrite E; simpl;
    destruct log_option; simpl;
    eexists _, _, _;
    (split; [reflexivity|]);
    (split; [apply set_param_hint_lookup|]);
    simpl; destruct (param_hints input_model !! hint_name input_model para_name);
    repeat split.
Qed.

Lemma set_parameter_hint_bounds_witness :
  ∃ m' w' h,
    _set_parameter_hint "area"
      {| bound_type := "lohi"; value := 5; vmin := 1; vmax := 9; free_more := "none";
         adjust_element := "fixed"; e_calibration := "fixed"; linear := "none" |}
      (ElementModel "Fe_ka1_") false (sample_world ∅) = (Ok m', w')
    ∧ param_hints m' !! "area" = Some h
    ∧ h_value h = Some 5%Q ∧ h_vary h = Some true
    ∧ h_min h = Some 1%Q ∧ h_max h = Some 9%Q.
Proof.
  destruct (set_parameter_hint_bounds "area"
      {| bound_type := "lohi"; value := 5; vmin := 1; vmax := 9; free_more := "none";
         adjust_element := "fixed"; e_calibration := "fixed"; linear := "none" |}
      (ElementModel "Fe_ka1_") false (sample_world ∅))
    as (m' & w' & h & H1 & H2 & H3 & H4 & H5 & H6).
  { apply (bool_decide_unpack _). vm_compute. exact I. }
  exists m', w', h. repeat split; assumption.
Defined.

(** ** update_parameter_dict *)

Lemma update_parameter_dict_table (r : loc) (values : gmap string Q) (w : world) :
  heap (update_parameter_dict r values w).2 !!! r
  = map_imap (λ k e, Some (update_entry values k e)) (heap w !!! r).
Proof.
  unfold update_parameter_dict, modify; simpl. apply lookup_total_insert_eq.
Qed.

Lemma NoDup_snd_inj {A B} (l : list (A * B)) (x y : A * B) :
  NoDup l.*2 → x ∈ l → y ∈ l → x.2 = y.2 → x = y.
Proof.
  induction l as [|a l IH]; intros Hnd Hx Hy E; [by apply elem_of_nil in Hx|].
  rewrite fmap_cons in Hnd. apply NoDup_cons in Hnd as [Hnot Hnd].
  apply elem_of_cons in Hx as [->|Hx]; apply elem_of_cons in Hy as [->|Hy].
  - done.
  - exfalso. apply Hnot. rewrite E. apply list_elem_of_fmap. by exists y.
  - exfalso. apply Hnot. rewrite <- E. apply list_elem_of_fmap. by exists x.
  - by apply IH.
Qed.

Lemma separate_inj (o : objects) (r : loc) (k1 k2 : string) (l : loc) :
  separate o r →
  (tables o !!! r) !! k1 = Some l → (tables o !!! r) !! k2 = Some l → k1 = k2.
Proof.
  intros Hsep H1 H2. apply elem_of_map_to_list in H1, H2.
  by injection (NoDup_snd_inj _ (k1, l) (k2, l) Hsep H1 H2 eq_refl).
Qed.

Lemma update_loop (values : gmap string Q) (l : list (string * loc)) (o : objects) :
  for_each l (λ kv,
    if has_key values kv.1
    then modify (λ o, {| tables := tables o;
                         entries := alter (update_entry values kv.1) kv.2 (entries o) |})
    else ret tt) o
  = (Ok tt,
     {| tables := tables o;
        entries := foldl (λ es kv, alter (update_entry values kv.1) kv.2 es)
                         (entries o) l |}).
Proof.
  revert o. induction l as [|[k x] l IH]; intros o; [by destruct o|].
  cbn [for_each foldl fst snd]. unfold bind at 1, has_key.
  destruct (decide (is_Some (values !! k))) as [Hk|Hk].
  - rewrite (bool_decide_eq_true_2 _ Hk). unfold modify at 1. by rewrite IH.
  - rewrite (bool_decide_eq_false_2 _ Hk). unfold ret at 1. rewrite IH.
    do 3 f_equal. symmetry. apply alter_id. intros e _. unfold update_entry.
    destruct (values !! k); [|done]. exfalso. apply Hk. by eexists.
Qed.

Lemma update_fold_out (values : gmap string Q) (l : list (string * loc))
    (es : gmap loc entry) (x : loc) :
  x ∉ l.*2 →
  foldl (λ es kv, alter (update_entry values kv.1) kv.2 es) es l !! x = es !! x.
Proof.
  revert es. induction l as [|[k y] l IH]; intros es Hx; [done|].
  rewrite fmap_cons, not_elem_of_cons in Hx. destruct Hx as [Hne Hx].
  cbn [foldl fst snd]. rewrite (IH _ Hx). by apply lookup_alter_ne.
Qed.

Lemma update_fold_in (values : gmap string Q) (l : list (string * loc))
    (es : gmap loc entry) (k : string) (x : loc) :
  NoDup l.*2 → (k, x) ∈ l →
  foldl (λ es kv, alter (update_entry values kv.1) kv.2 es) es l !! x
  = update_entry values k <$> es !! x.
Proof.
  revert es. induction l as [|[k0 y] l IH]; intros es Hnd Hin;
    [by apply elem_of_nil in Hin|].
  rewrite fmap_cons in Hnd. apply NoDup_cons in Hnd as [Hnot Hnd].
  cbn [foldl fst snd] in *. apply elem_of_cons in Hin as [[= -> ->]|Hin].
  - rewrite (update_fold_out _ _ _ _ Hnot). apply lookup_alter_eq.
  - rewrite (IH _ Hnd Hin). rewrite lookup_alter_ne; [done|].
    intros ->. apply Hnot. apply list_elem_of_fmap. by exists (k, x).
Qed.

(** X3. On a table that binds its keys to different entry objects the
    update returns and rebinds no key of any table (a fitted name that is not
    a key is not added); the entry object a key of the table is bound to gets
    the fitted value of that key and keeps its other fields, or stays as it
    was when the key was not fitted; an object the table does not bind stays
    as it was; so a fitted value shows in every table that binds the object,
    a shallow copy of the table among them; and what is seen through the
    table itself is the update by value. *)
Theorem update_parameter_dict_spec (r : loc) (values : gmap string Q) (o : objects) :
  separate o r →
  ∃ o',
    update_parameter_dict_obj r values o = (Ok tt, o')
    ∧ tables o' = tables o
    ∧ (∀ k l, (tables o !!! r) !! k = Some l →
              entries o' !! l = update_entry values k <$> entries o !! l)
    ∧ (∀ k l, (tables o !!! r) !! k = Some l → values !! k = None →
              entries o' !! l = entries o !! l)
    ∧ (∀ l, (∀ k, (tables o !!! r) !! k ≠ Some l) → entries o' !! l = entries o !! l)
    ∧ (∀ r' k' k l s v,
          (tables o !!! r') !! k' = Some l → (tables o !!! r) !! k = Some l →
          entries o !! l = Some (Spec s) → values !! k = Some v →
          view o' r' !! k' = Some (Spec (set_value v s)))
    ∧ (∀ w, heap w !!! r = view o r →
            heap (update_parameter_dict r values w).2 !!! r = view o' r).
Proof.
  intros Hsep. unfold update_parameter_dict_obj, bind at 1, get_state.
  rewrite update_loop. eexists. split; [reflexivity|]. split; [reflexivity|].
  cbn [tables entries].
  assert (Hin : ∀ k l, (tables o !!! r) !! k = Some l →
            foldl (λ es kv, alter (update_entry values kv.1) kv.2 es) (entries o)
                  (map_to_list (tables o !!! r)) !! l
            = update_entry values k <$> entries o !! l).
  { intros k l Hk. apply update_fold_in; [exact Hsep|]. by apply elem_of_map_to_list. }
  split; [exact Hin|]. split; [|split; [|split]].
  - intros k l Hk Hv. rewrite (Hin k l Hk). unfold update_entry. rewrite Hv.
    by destruct (entries o !! l).
  - intros l Hl. apply update_fold_out. intros H.
    apply list_elem_of_fmap in H as ([k l'] & -> & H).
    apply elem_of_map_to_list in H. by apply (Hl k).
  - intros r' k' k l s v Hk' Hk Hs Hv. unfold view. cbn [tables entries].
    rewrite lookup_omap, Hk'. cbn [mbind option_bind].
    rewrite (Hin k l Hk), Hs. cbn [fmap option_fmap option_map].
    unfold update_entry. by rewrite Hv.
  - intros w Hw. rewrite update_parameter_dict_table, Hw. apply map_eq. intros k.
    unfold view. cbn [tables entries]. rewrite map_lookup_imap, !lookup_omap.
    destruct ((tables o !!! r) !! k) as [l|] eqn:Hk; [|done].
    cbn [mbind option_bind]. rewrite (Hin k l Hk). by destruct (entries o !! l).
Qed.

Lemma update_parameter_dict_spec_witness :
  ∃ o',
    update_parameter_dict_obj 2%positive {[ "Fe_ka1_delta_center" := 0.002%Q ]}
                              sample_objects = (Ok tt, o')
    ∧ view o' 1%positive !! "Fe_ka1_delta_center"
      = Some (Spec (set_value 0.002 (template "pos"))).
Proof.
  destruct (update_parameter_dict_spec 2%positive
              {[ "Fe_ka1_delta_center" := 0.002%Q ]} sample_objects)
    as (o' & E & _ & _ & _ & _ & H & _).
  { apply (bool_decide_unpack _). vm_compute. exact I. }
  exists o'. split; [exact E|].
  apply (H 1%positive "Fe_ka1_delta_center" "Fe_ka1_delta_center" 11%positive);
    reflexivity.
Defined.

Lemma update_entry_idem (values : gmap string Q) (k : string) (e : entry) :
  update_entry values k (update_entry values k e) = update_entry values k e.
Proof.
  unfold update_entry. destruct (values !! k) as [v|]; [|done].
  destruct e as [s|nf]; [done|]. by rewrite insert_insert_eq.
Qed.

(** X4. Updating twice from the same fit results leaves the store that one
    update leaves. *)
Theorem update_parameter_dict_idem (r : loc) (values : gmap string Q) (w : world) :
  heap (update_parameter_dict r values (update_parameter_dict r values w).2).2
  = heap (update_parameter_dict r values w).2.
Proof.
  unfold update_parameter_dict, modify; simpl.
  rewrite lookup_total_insert_eq, insert_insert_eq. f_equal.
  apply map_eq. intros k. rewrite !map_lookup_imap.
  destruct ((heap w !!! r) !! k); simpl; [|done].
  by rewrite update_entry_idem.
Qed.

(** ** The total area of a K element *)

(** X5. For a K element whose three lines ka1, ka2 and kb1 are in the fit
    result, the total is the sum of their area*ratio*ratio_adjust; the line
    kb2 is added when, and only when, the key <name>_kb2_area is present, and
    then a missing kb2 ratio is a KeyError. *)
Theorem get_sum_area_K (name : string) (values : gmap string Q) (v1 v2 v3 : Q) :
  name ∈ k_line →
  get_value values name "ka1" = Ok v1 →
  get_value values name "ka2" = Ok v2 →
  get_value values name "kb1" = Ok v3 →
  (values !! (name +:+ "_kb2_area") = None →
   get_sum_area name values = Ok (v1 + v2 + v3)%Q)
  ∧ (∀ v4, get_value values name "kb2" = Ok v4 →
           get_sum_area name values = Ok (v1 + v2 + v3 + v4)%Q)
  ∧ (is_Some (values !! (name +:+ "_kb2_area")) →
     values !! (name +:+ "_kb2_ratio") = None →
     get_sum_area name values = Raise (KeyError (name +:+ "_kb2_ratio"))).
Proof.
  intros Hk H1 H2 H3. unfold get_sum_area, str_in, has_key.
  rewrite (bool_decide_eq_true_2 _ Hk), H1, H2, H3.
  split; [|split].
  - intros Hn. rewrite bool_decide_eq_false_2; [done|]. rewrite Hn. by intros [? ?].
  - intros v4 H4. rewrite bool_decide_eq_true_2; [by rewrite H4|].
    unfold get_value, getitem in H4.
    change ("_" +:+ "kb2" +:+ "_area") with "_kb2_area" in H4.
    destruct (values !! (name +:+ "_kb2_area")); [by eexists | discriminate].
  - intros Ha Hr. rewrite bool_decide_eq_true_2 by exact Ha.
    unfold get_value, getitem.
    change ("_" +:+ "kb2" +:+ "_area") with "_kb2_area".
    change ("_" +:+ "kb2" +:+ "_ratio") with "_kb2_ratio".
    destruct Ha as [a Ha]. by rewrite Ha, Hr.
Qed.

Lemma get_sum_area_K_witness :
  get_sum_area "Fe" fe_fit = Ok (100 * 1 * 1 + 50 * 1 * 1 + 20 * 1 * 1)%Q.
Proof.
  apply (get_sum_area_K "Fe" fe_fit (100 * 1 * 1) (50 * 1 * 1) (20 * 1 * 1));
    try reflexivity.
  apply Fe_in_k_line.
Defined.

(** X6. For a K element the first key that is missing from the fit result,
    in the order ka1, ka2, kb1 and area, ratio, ratio_adjust, is reported as a
    KeyError: here the area of ka1. *)
Theorem get_sum_area_K_missing (name : string) (values : gmap string Q) :
  name ∈ k_line →
  values !! (name +:+ "_ka1_area") = None →
  get_sum_area name values = Raise (KeyError (name +:+ "_ka1_area")).
Proof.
  intros Hk Hn. unfold get_sum_area, str_in.
  rewrite (bool_decide_eq_true_2 _ Hk). unfold get_value at 1, getitem.
  change ("_" +:+ "ka1" +:+ "_area") with "_ka1_area". by rewrite Hn.
Qed.

Lemma get_sum_area_K_missing_witness :
  get_sum_area "Fe" ∅ = Raise (KeyError "Fe_ka1_area").
Proof. apply (get_sum_area_K_missing "Fe" ∅ Fe_in_k_line). reflexivity. Defined.

(** ** The energy window: missing keys and an empty window *)

(** X7. A table without 'non_fitting_values', or whose metadata lacks
    'energy_bound_low' or 'energy_bound_high', makes [set_range] raise the
    KeyError of the first key that is missing. *)
Theorem set_range_missing_key (parameter : ParameterTable) (x1 y1 : list Q) :
  (parameter !! "non_fitting_values" = None →
   set_range parameter x1 y1 = Raise (KeyError "non_fitting_values"))
  ∧ (∀ nf, parameter !! "non_fitting_values" = Some (NonFit nf) →
           nf !! "energy_bound_low" = None →
           set_range parameter x1 y1 = Raise (KeyError "energy_bound_low"))
  ∧ (∀ nf lo, parameter !! "non_fitting_values" = Some (NonFit nf) →
              nf !! "energy_bound_low" = Some lo →
              nf !! "energy_bound_high" = None →
              set_range parameter x1 y1 = Raise (KeyError "energy_bound_high")).
Proof.
  unfold set_range, getitem, entry_getitem.
  split; [|split].
  - intros H. by rewrite H.
  - intros nf H Hlo. rewrite H. simpl. by rewrite Hlo.
  - intros nf lo H Hlo Hhi. rewrite H. simpl. by rewrite Hlo, Hhi.
Qed.

Lemma filter_none {A} (f : A → bool) (l : list A) :
  (∀ a, f a = false) → List.filter f l = [].
Proof.
  intros H. induction l as [|a l IH]; simpl; [done|]. by rewrite H.
Qed.

(** X8. When the upper bound is not above the lower bound the window is
    empty: both columns come back empty, whatever the spectrum. *)
Theorem set_range_empty_window (parameter : ParameterTable) (nf : gmap string pyval)
    (lo hi : Q) (x1 y1 : list Q) :
  parameter !! "non_fitting_values" = Some (NonFit nf) →
  nf !! "energy_bound_low" = Some (PNum lo) →
  nf !! "energy_bound_high" = Some (PNum hi) →
  (hi <= lo)%Q →
  set_range parameter x1 y1 = Ok ([], []).
Proof.
  intros Hnf Hlo Hhi Hle.
  unfold set_range, getitem, entry_getitem. rewrite Hnf. simpl.
  rewrite Hlo, Hhi. simpl.
  rewrite filter_none; [reflexivity|].
  intros [x y]. simpl.
  destruct (Qltb (lo * 100) x) eqn:E1; [|done].
  destruct (Qltb x (hi * 100)) eqn:E2; [|done].
  apply Qltb_lt in E1, E2. exfalso. lra.
Qed.

Lemma set_range_empty_window_witness :
  set_range {[ "non_fitting_values" :=
                 NonFit {[ "energy_bound_low" := PNum 10; "energy_bound_high" := PNum 2 ]} ]}
            [150; 500; 1100]%Q [1; 2; 3]%Q
  = Ok ([], []).
Proof.
  apply (set_range_empty_window _
           {[ "energy_bound_low" := PNum 10; "energy_bound_high" := PNum 2 ]} 10 2);
    [reflexivity | reflexivity | reflexivity | discriminate].
Defined.

(** ** The weights: when they exist, and their shape *)

(** X9. The weights are returned for every spectrum that is not empty, with
    or without counts of -1; the empty spectrum fails in [max] with
    ValueError; and a warning is issued exactly when some count is -1. *)
Theorem fit_weights_returns (exps : list Q) (ws0 : list np_warning) :
  (is_ok (fit_weights exps ws0).1 = true ↔ exps ≠ [])
  ∧ fit_weights [] ws0 = (Raise (ValueError "max() arg is an empty sequence"), ws0)
  ∧ ((fit_weights exps ws0).2 = ws0 ↔ Forall (λ e, ¬ (e == -1)%Q) exps).
Proof.
  split; [|split; [apply fit_weights_empty|]].
  - split.
    + intros Hok ->. by rewrite fit_weights_empty in Hok.
    + intros Hne. destruct (zero_divisor_dec exps) as [Hall|Hex].
      * destruct (fit_weights_finite exps ws0 Hne Hall) as (e0 & _ & _ & E).
        by rewrite E.
      * by rewrite (fit_weights_infinite exps ws0 Hex).
  - destruct (zero_divisor_dec exps) as [Hall|Hex].
    + split; [done|]. intros _. destruct exps as [|e exps].
      * by rewrite fit_weights_empty.
      * destruct (fit_weights_finite (e :: exps) ws0 ltac:(done) Hall)
          as (e0 & _ & _ & E).
        by rewrite E.
    + rewrite (fit_weights_infinite exps ws0 Hex). cbn [snd]. split.
      * intros H. apply (f_equal length) in H. rewrite List.length_app in H.
        simpl in H. lia.
      * intros Hall. by destruct (no_zero_divisor exps Hall).
Qed.

Lemma ratio_self (m : Q) : (0 < m)%Q → (m / m == 1)%Q.
Proof. intros Hm. field. lra. Qed.

(** X10. For a spectrum without a count of -1, whenever the weights are
    returned there are as many as channels, every one of them is a number in
    (0, 1], and at least one channel has a weight equal to 1. *)
Theorem fit_weights_normalised (exps : list Q) (ws0 : list np_warning)
    (ws : list npfloat) :
  Forall (λ e, ¬ (e == -1)%Q) exps →
  (fit_weights exps ws0).1 = Ok ws →
  length ws = length exps
  ∧ Forall (λ w, ∃ q, w = Fin q ∧ (0 < q ∧ q <= 1)%Q) ws
  ∧ ∃ i q, ws !! i = Some (Fin q) ∧ (q == 1)%Q.
Proof.
  intros Hall Hrun.
  assert (Hne : exps ≠ []).
  { intros ->. by rewrite fit_weights_empty in Hrun. }
  destruct (fit_weights_finite exps ws0 Hne Hall) as (e0 & He0 & Hb & E).
  rewrite E in Hrun. injection Hrun as <-.
  assert (Hm : (0 < Qabs (1 / (1 + e0)))%Q).
  { rewrite Forall_forall in Hb. by apply (Hb e0). }
  split; [by rewrite !length_fmap|]. split.
  - rewrite !Forall_fmap. eapply Forall_impl; [exact Hb|].
    intros e [Hp Hl]. eexists. split; [reflexivity|]. by apply ratio_in_unit.
  - apply list_elem_of_lookup in He0 as [i Hi].
    exists i. eexists. split; [by rewrite !list_lookup_fmap, Hi|].
    by apply ratio_self.
Qed.

Lemma fit_weights_normalised_witness :
  ∃ ws, (fit_weights [0; 3; 1]%Q []).1 = Ok ws
        ∧ length ws = 3%nat
        ∧ Forall (λ w, ∃ q, w = Fin q ∧ (0 < q ∧ q <= 1)%Q) ws
        ∧ ∃ i q, ws !! i = Some (Fin q) ∧ (q == 1)%Q.
Proof.
  eexists. split; [reflexivity|].
  apply (fit_weights_normalised [0; 3; 1]%Q []); [|reflexivity].
  repeat constructor; intros H; discriminate H.
Defined.

Lemma abs_weight_nonneg (e : Q) : (0 <= e)%Q → (Qabs (1 / (1 + e)) == 1 / (1 + e))%Q.
Proof.
  intros He. apply Qabs_pos. apply Qle_shift_div_l; lra.
Qed.

Lemma inv_weight_le (ei ej : Q) :
  (0 <= ei)%Q → (ei <= ej)%Q → (1 / (1 + ej) <= 1 / (1 + ei))%Q.
Proof.
  intros H0 Hle. apply Qle_shift_div_l; [lra|].
  assert (E : (1 / (1 + ej) * (1 + ei) == (1 + ei) / (1 + ej))%Q) by (field; lra).
  rewrite E. apply Qle_shift_div_r; lra.
Qed.

Lemma div_le_mono (a b m : Q) : (0 < m)%Q → (a <= b)%Q → (a / m <= b / m)%Q.
Proof.
  intros Hm Hab. unfold Qdiv. apply Qmult_le_compat_r; [exact Hab|].
  apply Qlt_le_weak, Qinv_lt_0_compat, Hm.
Qed.

Lemma nonneg_not_minus_one (e : Q) : (0 <= e)%Q → Qeq_bool (1 + e) 0 = false.
Proof.
  intros He. destruct (Qeq_bool (1 + e) 0) eqn:E; [|done].
  apply Qeq_bool_iff in E. lra.
Qed.

(** X11. Among the channels with a count of at least 0 the weight does not
    grow with the count: whenever the weights are returned, the weights of two
    such channels are numbers, and the channel with the larger count has the
    smaller or equal weight. *)
Theorem fit_weights_decreasing (exps : list Q) (ws0 : list np_warning)
    (ws : list npfloat) (i j : nat) (ei ej : Q) (wi wj : npfloat) :
  (fit_weights exps ws0).1 = Ok ws →
  exps !! i = Some ei → exps !! j = Some ej →
  ws !! i = Some wi → ws !! j = Some wj →
  (0 <= ei)%Q → (ei <= ej)%Q →
  ∃ qi qj, wi = Fin qi ∧ wj = Fin qj ∧ (qj <= qi)%Q.
Proof.
  intros Hrun Hi Hj Hwi Hwj H0 Hle.
  destruct (zero_divisor_dec exps) as [Hall|Hex].
  - assert (Hne : exps ≠ []) by (intros ->; discriminate).
    destruct (fit_weights_finite exps ws0 Hne Hall) as (e0 & He0 & Hb & E).
    rewrite E in Hrun. injection Hrun as <-.
    assert (Hm : (0 < Qabs (1 / (1 + e0)))%Q).
    { rewrite Forall_forall in Hb. by apply (Hb e0). }
    rewrite !list_lookup_fmap, Hi in Hwi. rewrite !list_lookup_fmap, Hj in Hwj.
    simpl in Hwi, Hwj. injection Hwi as <-. injection Hwj as <-.
    eexists _, _. split; [reflexivity|]. split; [reflexivity|].
    apply div_le_mono; [exact Hm|].
    rewrite (abs_weight_nonneg ei), (abs_weight_nonneg ej) by lra.
    apply inv_weight_le; lra.
  - rewrite (fit_weights_infinite exps ws0 Hex) in Hrun. injection Hrun as <-.
    rewrite list_lookup_fmap, Hi in Hwi. rewrite list_lookup_fmap, Hj in Hwj.
    cbn [fmap option_fmap option_map] in Hwi, Hwj.
    rewrite (nonneg_not_minus_one ei) in Hwi by lra.
    rewrite (nonneg_not_minus_one ej) in Hwj by lra.
    injection Hwi as <-. injection Hwj as <-.
    exists 0%Q, 0%Q. split; [done|]. split; [done|]. lra.
Qed.

Lemma fit_weights_decreasing_witness :
  ∃ ws qi qj, (fit_weights [0; 3; 1]%Q []).1 = Ok ws
              ∧ ws !! 2%nat = Some (Fin qi) ∧ ws !! 1%nat = Some (Fin qj)
              ∧ (qj <= qi)%Q.
Proof.
  destruct (fit_weights_decreasing [0; 3; 1]%Q [] _ 2%nat 1%nat 1 3 _ _
              eq_refl eq_refl eq_refl eq_refl eq_refl)
    as (qi & qj & Ei & Ej & Hle); [discriminate | discriminate |].
  eexists _, qi, qj. split; [reflexivity|].
  split; [by rewrite <- Ei|]. split; [by rewrite <- Ej | exact Hle].
Defined.

(** ** The synthetic spectrum *)

Lemma peak_plus_wave_bound (alpha beta X S : R) :
  (0 <= alpha)%R → (0 <= beta)%R → (0 < X <= 1)%R → (-1 <= S)%R → (S <= 1)%R →
  (0 <= alpha * X + beta * (1 + S) ∧ alpha * X + beta * (1 + S) <= alpha + 2 * beta)%R.
Proof.
  intros Ha Hb [HX1 HX2] HS1 HS2.
  assert (H1 : (0 <= alpha * X <= alpha)%R) by nra.
  assert (H2 : (0 <= beta * (1 + S) <= 2 * beta)%R) by nra.
  lra.
Qed.

(** X12. For a width that is not zero and a peak height and an oscillation
    magnitude that are not negative, the synthetic spectrum has one value per
    energy and every value lies between 0 and alpha + 2*beta. *)
Theorem synthetic_data_bounds (E : list R) (E0 sigma alpha k beta : R) :
  sigma ≠ 0%R → (0 <= alpha)%R → (0 <= beta)%R →
  length (synthetic_data E E0 sigma alpha k beta) = length E
  ∧ Forall (λ v, 0 <= v ∧ v <= alpha + 2 * beta)%R
           (synthetic_data E E0 sigma alpha k beta).
Proof.
  intros Hs Ha Hb. unfold synthetic_data. split; [by rewrite length_fmap|].
  rewrite Forall_fmap. apply Forall_forall. intros Ei _. cbv beta.
  pose proof (SIN_bound (k * Ei)) as [Hs1 Hs2].
  assert (Hg : (0 < exp (- (Ei - E0) ^ 2 / (2 * sigma ^ 2)) <= 1)%R).
  { split; [apply exp_pos|].
    assert (Hsq : (0 < sigma ^ 2)%R) by (rewrite <- Rsqr_pow2; by apply Rsqr_pos_lt).
    assert (Hx : (- (Ei - E0) ^ 2 / (2 * sigma ^ 2) <= 0)%R).
    { pose proof (pow2_ge_0 (Ei - E0)) as Hp.
      assert (Hi : (0 < / (2 * sigma ^ 2))%R) by (apply Rinv_0_lt_compat; lra).
      unfold Rdiv. nra. }
    destruct Hx as [Hx|Hx].
    - left. rewrite <- exp_0. by apply exp_increasing.
    - rewrite Hx, exp_0. right. reflexivity. }
  by apply peak_plus_wave_bound.
Qed.

Lemma synthetic_data_bounds_witness :
  length (synthetic_data [0; 25; 50]%R 25 2 1000 1 60) = 3%nat
  ∧ Forall (λ v, 0 <= v ∧ v <= 1000 + 2 * 60)%R
           (synthetic_data [0; 25; 50]%R 25 2 1000 1 60).
Proof.
  apply (synthetic_data_bounds [0; 25; 50]%R 25 2 1000 1 60); lra.
Defined.

(** ** set_parameter_bound *)

Lemma set_bound_entry_raises (opt : string) (e : entry) (x : exn) :
  set_bound_entry opt e = Raise x → x = KeyError opt.
Proof.
  unfold set_bound_entry, entry_getitem.
  destruct (entry_get e opt); [discriminate|]. by intros [= <-].
Qed.

Lemma set_bound_entry_spec (opt : string) (s : ParameterSpec) :
  opt ∈ aux_keys →
  set_bound_entry opt (Spec s) = Ok (Spec (set_bound_type (aux_field opt s) s)).
Proof.
  intros Hopt. unfold aux_keys in Hopt.
  rewrite !elem_of_cons, elem_of_nil in Hopt.
  destruct Hopt as [->|[->|[->|[->|[]]]]]; reflexivity.
Qed.

(** The loop, when every assignment goes through. *)
Lemma set_parameter_bound_loop (r : loc) (opt : string) (l : list (string * entry))
    (w : world) :
  (∀ k e, (k, e) ∈ l → k ≠ "non_fitting_values" → is_ok (set_bound_entry opt e) = true) →
  ∃ w',
    for_each l (λ kv,
      if String.eqb kv.1 "non_fitting_values" then ret tt
      else
        do v <- lift_result (set_bound_entry opt kv.2);
        modify (λ w, {| heap := <[r := <[kv.1 := v]> (heap w !!! r)]> (heap w);
                        logs := logs w |})) w = (Ok tt, w')
    ∧ logs w' = logs w
    ∧ heap w' !!! r = rebound_items opt l (heap w !!! r).
Proof.
  revert w. induction l as [|[k e] l IH]; intros w Hall.
  - exists w. by repeat split.
  - simpl. unfold bind at 1. unfold rebound_items; simpl.
    destruct (String.eqb_spec k "non_fitting_values") as [->|Hk].
    + simpl. destruct (IH w) as (w' & H1 & H2 & H4).
      { intros k' e' Hin. apply Hall. by right. }
      exists w'. by repeat split.
    + assert (Hok : is_ok (set_bound_entry opt e) = true)
        by (apply (Hall k e); [by left | exact Hk]).
      unfold rebound. rewrite (proj2 (String.eqb_neq k "non_fitting_values") Hk).
      unfold bind, lift_result, modify.
      destruct (set_bound_entry opt e) as [e'|x] eqn:E; [|discriminate].
      simpl.
      set (w1 := {| heap := <[r := <[k := e']> (heap w !!! r)]> (heap w);
                    logs := logs w |}).
      destruct (IH w1) as (w' & H1 & H2 & H4).
      { intros k' e'' Hin. apply Hall. by right. }
      exists w'. split; [exact H1|]. split; [exact H2|].
      rewrite H4. unfold w1; simpl. by rewrite lookup_total_insert_eq.
Qed.

Lemma rebound_items_lookup (opt : string) (l : list (string * entry))
    (t : ParameterTable) (k : string) :
  NoDup l.*1 →
  rebound_items opt l t !! k
  = match (list_to_map l : ParameterTable) !! k with
    | Some e => if String.eqb k "non_fitting_values" then t !! k
                else Some (rebound opt k e)
    | None => t !! k
    end.
Proof.
  unfold rebound_items. revert t.
  induction l as [|[k0 e0] l IH]; intros t Hnd; simpl; [done|].
  apply NoDup_cons in Hnd as [Hnot Hnd].
  rewrite (IH _ Hnd).
  destruct (decide (k0 = k)) as [->|Hne].
  - rewrite lookup_insert_eq.
    assert (Hl : (list_to_map l : ParameterTable) !! k = None)
      by by apply not_elem_of_list_to_map_1.
    rewrite Hl.
    destruct (String.eqb k "non_fitting_values"); [done|].
    by rewrite lookup_insert_eq.
  - rewrite lookup_insert_ne by done.
    destruct (String.eqb k0 "non_fitting_values"); [done|].
    rewrite lookup_insert_ne by done. done.
Qed.

(** The call by value: what is seen through the table it is made on. *)
Lemma set_parameter_bound_table (r : loc) (opt : string) (w : world) :
  opt ∈ aux_keys →
  (∀ k e, (heap w !!! r) !! k = Some e → k ≠ "non_fitting_values" → ∃ s, e = Spec s) →
  ∃ w',
    set_parameter_bound r opt w = (Ok tt, w')
    ∧ logs w' = logs w
    ∧ dom (heap w' !!! r) = dom (heap w !!! r)
    ∧ (heap w' !!! r) !! "non_fitting_values" = (heap w !!! r) !! "non_fitting_values"
    ∧ (∀ k s, (heap w !!! r) !! k = Some (Spec s) → k ≠ "non_fitting_values" →
              (heap w' !!! r) !! k = Some (Spec (set_bound_type (aux_field opt s) s))).
Proof.
  intros Hopt Hspec. unfold set_parameter_bound, bind, deref.
  set (t := heap w !!! r).
  destruct (set_parameter_bound_loop r opt (map_to_list t) w) as (w' & H1 & H2 & H4).
  { intros k e Hin Hk. apply elem_of_map_to_list in Hin.
    destruct (Hspec k e Hin Hk) as [s ->]. by rewrite set_bound_entry_spec. }
  exists w'. split; [exact H1|]. split; [exact H2|].
  assert (Hlk : ∀ k, (heap w' !!! r) !! k
                     = match t !! k with
                       | Some e => if String.eqb k "non_fitting_values" then t !! k
                                   else Some (rebound opt k e)
                       | None => t !! k
                       end).
  { intros k. rewrite H4. fold t.
    rewrite rebound_items_lookup by apply NoDup_fst_map_to_list.
    by rewrite list_to_map_to_list. }
  split; [|split].
  - apply set_eq. intros k. rewrite !elem_of_dom, Hlk. fold t.
    destruct (t !! k) as [e|] eqn:E; [|done].
    destruct (String.eqb k "non_fitting_values"); [done|].
    split; intros _; by eexists.
  - rewrite Hlk. fold t. by destruct (t !! "non_fitting_values").
  - intros k s Hk Hne. rewrite Hlk. fold t in Hk. rewrite Hk.
    rewrite (proj2 (String.eqb_neq k "non_fitting_values") Hne).
    unfold rebound. rewrite (proj2 (String.eqb_neq k "non_fitting_values") Hne).
    by rewrite set_bound_entry_spec.
Qed.

Lemma bound_loop (opt : string) (l : list (string * loc)) (o : objects) :
  opt ∈ aux_keys → NoDup l.*2 →
  (∀ k x, (k, x) ∈ l → k ≠ "non_fitting_values" →
          ∃ s, entries o !! x = Some (Spec s)) →
  ∃ o',
    for_each l (λ kv,
      if String.eqb kv.1 "non_fitting_values" then ret tt
      else
        do v <- deref_entry kv.2;
        do v <- lift_result (set_bound_entry opt v);
        modify (λ o, {| tables := tables o; entries := <[kv.2 := v]> (entries o) |})) o
    = (Ok tt, o')
    ∧ tables o' = tables o
    ∧ (∀ k x s, (k, x) ∈ l → k ≠ "non_fitting_values" →
                entries o !! x = Some (Spec s) →
                entries o' !! x = Some (Spec (set_bound_type (aux_field opt s) s)))
    ∧ (∀ x, (∀ k, (k, x) ∈ l → k = "non_fitting_values") →
            entries o' !! x = entries o !! x).
Proof.
  intros Hopt. revert o. induction l as [|[k0 x0] l IH]; intros o Hnd Hall.
  - exists o. split; [done|]. split; [done|]. split; [|done].
    intros k x s Hin. by apply elem_of_nil in Hin.
  - rewrite fmap_cons in Hnd. apply NoDup_cons in Hnd as [Hnot Hnd].
    cbn [fst snd] in Hnot.
    assert (Hx0 : ∀ k x, (k, x) ∈ l → x ≠ x0).
    { intros k x Hin ->. apply Hnot. apply list_elem_of_fmap. by exists (k, x0). }
    cbn [for_each fst snd]. unfold bind at 1.
    destruct (String.eqb_spec k0 "non_fitting_values") as [->|Hk0].
    + unfold ret at 1.
      destruct (IH o Hnd) as (o' & E & Ht & Hin & Hout).
      { intros k x Hkx Hk. apply (Hall k x); [by right | exact Hk]. }
      exists o'. split; [exact E|]. split; [exact Ht|]. split.
      * intros k x s Hkx Hk Hs. apply elem_of_cons in Hkx as [[= -> ->]|Hkx]; [done|].
        by apply (Hin k x s).
      * intros x Hx. apply Hout. intros k Hkx. apply Hx. by right.
    + destruct (Hall k0 x0) as [s0 Hs0]; [by left | exact Hk0 |].
      unfold bind at 1. unfold deref_entry at 1. rewrite Hs0.
      change (default (NonFit ∅) (Some (Spec s0))) with (Spec s0).
      unfold bind at 1. unfold lift_result at 1.
      rewrite (set_bound_entry_spec opt s0 Hopt). unfold modify at 1.
      set (o1 := {| tables := tables o;
                    entries := <[x0 := Spec (set_bound_type (aux_field opt s0) s0)]>
                                 (entries o) |}).
      destruct (IH o1 Hnd) as (o' & E & Ht & Hin & Hout).
      { intros k x Hkx Hk. unfold o1; cbn [entries].
        rewrite lookup_insert_ne by (symmetry; by apply (Hx0 k)).
        apply (Hall k x); [by right | exact Hk]. }
      exists o'. split; [exact E|]. split; [exact Ht|]. split.
      * intros k x s Hkx Hk Hs. apply elem_of_cons in Hkx as [[= -> ->]|Hkx].
        -- rewrite Hout.
           ++ unfold o1; cbn [entries]. rewrite lookup_insert_eq.
              rewrite Hs0 in Hs. by injection Hs as ->.
           ++ intros k Hkx. by destruct (Hx0 k x0 Hkx).
        -- apply (Hin k x s Hkx Hk). unfold o1; cbn [entries].
           rewrite lookup_insert_ne by (symmetry; by apply (Hx0 k)). exact Hs.
      * intros x Hx. rewrite Hout.
        -- unfold o1; cbn [entries]. rewrite lookup_insert_ne; [done|].
           intros <-. apply Hk0. apply (Hx k0). by left.
        -- intros k Hkx. apply Hx. by right.
Qed.

(** X13. For one of the four auxiliary keys, on a table that binds its keys
    to different entry objects which, the metadata apart, are parameters, the
    call returns and rebinds no key of any table; in every parameter object of
    the table the bound type becomes the string the object holds under that
    key, the other fields stay; an object the table binds only under
    'non_fitting_values', or does not bind, stays as it was; so the new bound
    type shows in every table that binds the object, a shallow copy of the
    table among them; and what is seen through the table itself is the call
    by value. *)
Theorem set_parameter_bound_spec (r : loc) (opt : string) (o : objects) :
  opt ∈ aux_keys → separate o r →
  (∀ k l, (tables o !!! r) !! k = Some l → k ≠ "non_fitting_values" →
          ∃ s, entries o !! l = Some (Spec s)) →
  ∃ o',
    set_parameter_bound_obj r opt o = (Ok tt, o')
    ∧ tables o' = tables o
    ∧ (∀ k l s, (tables o !!! r) !! k = Some l → k ≠ "non_fitting_values" →
                entries o !! l = Some (Spec s) →
                entries o' !! l = Some (Spec (set_bound_type (aux_field opt s) s)))
    ∧ (∀ l, (∀ k, (tables o !!! r) !! k = Some l → k = "non_fitting_values") →
            entries o' !! l = entries o !! l)
    ∧ (∀ r' k' k l s,
          (tables o !!! r') !! k' = Some l → (tables o !!! r) !! k = Some l →
          k ≠ "non_fitting_values" → entries o !! l = Some (Spec s) →
          view o' r' !! k' = Some (Spec (set_bound_type (aux_field opt s) s)))
    ∧ (∀ w, heap w !!! r = view o r →
            heap (set_parameter_bound r opt w).2 !!! r = view o' r).
Proof.
  intros Hopt Hsep Hspec. unfold set_parameter_bound_obj, bind at 1, get_state.
  destruct (bound_loop opt (map_to_list (tables o !!! r)) o Hopt Hsep)
    as (o' & E & Ht & Hin & Hout).
  { intros k x Hkx Hk. apply elem_of_map_to_list in Hkx. by apply (Hspec k x). }
  exists o'. split; [exact E|]. split; [exact Ht|].
  assert (Hin' : ∀ k l s, (tables o !!! r) !! k = Some l → k ≠ "non_fitting_values" →
                  entries o !! l = Some (Spec s) →
                  entries o' !! l = Some (Spec (set_bound_type (aux_field opt s) s))).
  { intros k l s Hk. apply Hin. by apply elem_of_map_to_list. }
  assert (Hout' : ∀ l, (∀ k, (tables o !!! r) !! k = Some l → k = "non_fitting_values") →
                   entries o' !! l = entries o !! l).
  { intros l Hl. apply Hout. intros k Hk. apply Hl. by apply elem_of_map_to_list. }
  split; [exact Hin'|]. split; [exact Hout'|]. split.
  - intros r' k' k l s Hk' Hk Hne Hs. unfold view. rewrite Ht, lookup_omap, Hk'.
    cbn [mbind option_bind]. by apply (Hin' k l s).
  - intros w Hw.
    destruct (set_parameter_bound_table r opt w Hopt) as (w' & Ew & _ & Hdom & Hnf & Hpar).
    { rewrite Hw. intros k e Hk Hne. unfold view in Hk. rewrite lookup_omap in Hk.
      destruct ((tables o !!! r) !! k) as [l|] eqn:Hl; [|done].
      cbn [mbind option_bind] in Hk. destruct (Hspec k l Hl Hne) as [s Hs].
      rewrite Hs in Hk. injection Hk as <-. by exists s. }
    rewrite Ew. cbn [snd]. apply map_eq. intros k.
    assert (Hvo : view o r !! k = (tables o !!! r) !! k ≫= λ l, entries o !! l)
      by (unfold view; by rewrite lookup_omap).
    assert (Hvo' : view o' r !! k = (tables o !!! r) !! k ≫= λ l, entries o' !! l)
      by (unfold view; by rewrite Ht, lookup_omap).
    rewrite Hvo'. rewrite <- Hw in Hvo.
    destruct ((tables o !!! r) !! k) as [l|] eqn:Hl; cbn [mbind option_bind] in *.
    + destruct (decide (k = "non_fitting_values")) as [->|Hne].
      * rewrite Hnf, Hvo. symmetry. apply Hout'. intros k Hk.
        by apply (separate_inj o r k "non_fitting_values" l).
      * destruct (Hspec k l Hl Hne) as [s Hs]. rewrite (Hin' k l s Hl Hne Hs).
        apply Hpar; [|exact Hne]. by rewrite Hvo.
    + apply not_elem_of_dom. rewrite Hdom. by apply not_elem_of_dom.
Qed.

Lemma set_parameter_bound_spec_witness :
  ∃ o',
    set_parameter_bound_obj 2%positive "adjust_element" sample_objects = (Ok tt, o')
    ∧ view sample_objects 1%positive !! "Fe_ka1_delta_center"
      = Some (Spec (template "pos"))
    ∧ view o' 1%positive !! "Fe_ka1_delta_center"
      = Some (Spec (set_bound_type "lohi" (template "pos"))).
Proof.
  destruct (set_parameter_bound_spec 2%positive "adjust_element" sample_objects)
    as (o' & E & _ & _ & _ & H & _).
  { apply (bool_decide_unpack _). vm_compute. exact I. }
  { apply (bool_decide_unpack _). vm_compute. exact I. }
  { intros k l Hk Hne.
    change (tables sample_objects !!! 2%positive)
      with ({[ "non_fitting_values" := 10%positive;
               "Fe_ka1_delta_center" := 11%positive ]} : gmap string loc) in Hk.
    apply lookup_insert_Some in Hk as [[<- _]|[_ Hk]]; [done|].
    apply lookup_singleton_Some in Hk as [_ <-]. by eexists. }
  exists o'. split; [exact E|]. split; [reflexivity|].
  apply (H 1%positive "Fe_ka1_delta_center" "Fe_ka1_delta_center" 11%positive
           (template "pos")); [reflexivity | reflexivity | discriminate | reflexivity].
Defined.

(** The loop raises as soon as an assignment fails, and then with the
    KeyError of the option. *)
Lemma set_parameter_bound_loop_fails (r : loc) (opt : string)
    (l : list (string * entry)) (w : world) :
  (∃ k e, (k, e) ∈ l ∧ k ≠ "non_fitting_values"
          ∧ is_ok (set_bound_entry opt e) = false) →
  (for_each l (λ kv,
     if String.eqb kv.1 "non_fitting_values" then ret tt
     else
       do v <- lift_result (set_bound_entry opt kv.2);
       modify (λ w, {| heap := <[r := <[kv.1 := v]> (heap w !!! r)]> (heap w);
                       logs := logs w |})) w).1 = Raise (KeyError opt).
Proof.
  revert w. induction l as [|[k0 e0] l IH]; intros w (k & e & Hin & Hk & Hbad).
  - by apply elem_of_nil in Hin.
  - simpl. unfold bind at 1. simpl.
    destruct (String.eqb_spec k0 "non_fitting_values") as [->|Hk0].
    + simpl. apply IH. exists k, e. split; [|done].
      apply elem_of_cons in Hin as [[= -> ->]|Hin]; [done | exact Hin].
    + unfold bind, lift_result, modify.
      destruct (set_bound_entry opt e0) as [e'|x] eqn:E; simpl.
      * apply IH. exists k, e. split; [|done].
        apply elem_of_cons in Hin as [[= -> ->]|Hin]; [|exact Hin].
        rewrite E in Hbad. discriminate.
      * by rewrite (set_bound_entry_raises _ _ _ E).
Qed.

(** X14. When some entry other than 'non_fitting_values' has no key of the
    option's name, as every parameter has for a name that is none of its eight
    keys, the call raises the KeyError of that name. *)
Theorem set_parameter_bound_missing (r : loc) (opt : string) (w : world)
    (k : string) (e : entry) :
  (heap w !!! r) !! k = Some e → k ≠ "non_fitting_values" →
  entry_get e opt = None →
  (set_parameter_bound r opt w).1 = Raise (KeyError opt).
Proof.
  intros Hk Hne Hopt. unfold set_parameter_bound, bind, deref.
  apply set_parameter_bound_loop_fails.
  exists k, e. split; [by apply elem_of_map_to_list|]. split; [exact Hne|].
  unfold set_bound_entry, entry_getitem. by rewrite Hopt.
Qed.

Lemma set_parameter_bound_missing_witness :
  (set_parameter_bound 1%positive "auto" (sample_world (sample_table 12))).1
  = Raise (KeyError "auto").
Proof.
  apply (set_parameter_bound_missing 1%positive "auto" _ "coherent_sct_energy"
           (Spec (sample_spec 12))); [reflexivity | discriminate | reflexivity].
Defined.

(** ** The element controller: what set_val writes *)

Lemma put_template_eq (prop ln : string) (o : option string) (c : ElementController) :
  put_template prop ln o c
  = {| new_parameter := <[ln := Spec (adjusted prop o)]> (new_parameter c);
       element_name := element_name c |}.
Proof. reflexivity. Qed.

(** A loop whose body stores the adjusted template under the current name or
    does nothing. *)
Lemma foldl_put (prop : string) (o : option string)
    (f : ElementController → string → ElementController) (l : list string)
    (c : ElementController) :
  (∀ self ln, f self ln = self ∨ f self ln = put_template prop ln o self) →
  element_name (foldl f c l) = element_name c
  ∧ ∀ k, new_parameter (foldl f c l) !! k = new_parameter c !! k
         ∨ (k ∈ l ∧ new_parameter (foldl f c l) !! k = Some (Spec (adjusted prop o))).
Proof.
  intros Hf. revert c. induction l as [|a l IH]; intros c; simpl.
  - split; [done|]. intros k. by left.
  - destruct (IH (f c a)) as [Hn Hk]. destruct (Hf c a) as [E|E].
    + rewrite E in Hn, Hk |- *. split; [exact Hn|]. intros k.
      destruct (Hk k) as [H|[Hin H]]; [by left|].
      right. split; [by right | exact H].
    + split; [by rewrite Hn, E|]. intros k.
      destruct (Hk k) as [H|[Hin H]].
      * rewrite H, E, put_template_eq. simpl.
        destruct (decide (a = k)) as [->|Hne].
        -- right. split; [by left|]. by rewrite lookup_insert_eq.
        -- left. by rewrite lookup_insert_ne.
      * right. split; [by right | exact H].
Qed.

Lemma put_known_L_cases (prop : string) (o : option string)
    (self : ElementController) (ln : string) :
  put_known_L prop o self ln = self
  ∨ put_known_L prop o self ln = put_template prop ln o self.
Proof. unfold put_known_L. destruct (str_in _ _); [by right | by left]. Qed.

Ltac finish_writes H :=
  let Hn := fresh "Hn" in
  let Hk := fresh "Hk" in
  destruct H as [Hn Hk];
  split; [exact Hn|];
  let k := fresh "k" in
  intros k; destruct (Hk k) as [?|[_ ?]]; [by left | by right].

Ltac setter_writes :=
  let item := fresh "item" in
  let o := fresh "o" in
  let c := fresh "c" in
  intros item o c;
  match goal with
  | |- context [?f item o c] => unfold f
  end;
  destruct (str_in item k_line);
    [ match goal with
      | |- context [foldl ?f c ?l] =>
          finish_writes (foldl_put _ o f l c (λ _ _, or_intror eq_refl))
      end
    | destruct (str_in item l_line);
      [ match goal with
        | |- context [foldl ?f c ?l] =>
            let H := fresh "H" in
            assert (H : ∀ self ln, f self ln = self
                                   ∨ f self ln = put_template _ ln o self)
              by (intros self ln; cbv beta;
                  try (destruct (str_contains "la1" ln); [by left|]);
                  apply put_known_L_cases);
            finish_writes (foldl_put _ o f l c H)
        end
      | split; [done | intros; by left] ] ].

Lemma set_position_writes : writes "pos" set_position.
Proof. setter_writes. Qed.

Lemma set_width_writes : writes "width" set_width.
Proof. setter_writes. Qed.

Lemma set_area_writes : writes "area" set_area.
Proof. setter_writes. Qed.

Lemma set_ratio_writes : writes "ratio" set_ratio.
Proof. setter_writes. Qed.

Lemma for_each_modify {S A} (f : A → S → S) (l : list A) (s : S) :
  for_each l (λ a, modify (f a)) s = (Ok tt, foldl (λ s a, f a s) s l).
Proof.
  revert s. induction l as [|a l IH]; intros s; [done|].
  simpl. unfold bind at 1. unfold modify at 1. apply IH.
Qed.

Lemma writes_foldl (prop : string) f (o : option string) (l : list string)
    (c : ElementController) :
  writes prop f →
  element_name (foldl (λ c e, f e o c) c l) = element_name c
  ∧ ∀ k, new_parameter (foldl (λ c e, f e o c) c l) !! k = new_parameter c !! k
         ∨ new_parameter (foldl (λ c e, f e o c) c l) !! k
           = Some (Spec (adjusted prop o)).
Proof.
  intros Hw. revert c. induction l as [|a l IH]; intros c; simpl.
  - split; [done | by left].
  - destruct (IH (f a o c)) as [Hn Hk]. destruct (Hw a o c) as [Hn' Hk'].
    split; [by rewrite Hn|]. intros k.
    destruct (Hk k) as [H|H]; [|by right]. rewrite H. apply Hk'.
Qed.

Lemma set_val_eq (els : list string) (kws : list (string * string)) :
  set_val els kws
  = (for_each kws (set_val_body els) ;; do self <- get_state; ret (new_parameter self)).
Proof. reflexivity. Qed.

(** One keyword of a known property. *)
Lemma set_val_body_ok (els : list string) (p v : string) (c : ElementController) :
  p ∈ props →
  ∃ c', set_val_body els (p, v) c = (Ok tt, c')
        ∧ element_name c' = element_name c
        ∧ ∀ k, new_parameter c' !! k = new_parameter c !! k
               ∨ new_parameter c' !! k = Some (Spec (adjusted p (Some v))).
Proof.
  intros Hp. unfold props in Hp. rewrite !elem_of_cons, elem_of_nil in Hp.
  unfold set_val_body.
  destruct Hp as [->|[->|[->|[->|[]]]]]; simpl; unfold bind, ret;
    rewrite for_each_modify; eexists; (split; [reflexivity|]).
  - apply (writes_foldl "pos" set_position), set_position_writes.
  - apply (writes_foldl "width" set_width), set_width_writes.
  - apply (writes_foldl "area" set_area), set_area_writes.
  - apply (writes_foldl "ratio" set_ratio), set_ratio_writes.
Qed.

Lemma set_val_body_raises (els : list string) (kv : string * string)
    (c : ElementController) :
  kv.1 ∉ props →
  set_val_body els kv c
  = (Raise (ValueError "Please define either pos, width or area."), c).
Proof.
  intros Hp. unfold set_val_body, props in *.
  rewrite !elem_of_cons, elem_of_nil in Hp.
  destruct (String.eqb_spec kv.1 "pos"); [tauto|].
  destruct (String.eqb_spec kv.1 "width"); [tauto|].
  destruct (String.eqb_spec kv.1 "area"); [tauto|].
  destruct (String.eqb_spec kv.1 "ratio"); [tauto|].
  reflexivity.
Qed.

(** X15. When every keyword is one of pos, width, area and ratio the call
    returns the table of the controller; the names of the controller stay;
    under every key the table holds what it held before, or the template of
    one of the given properties with 'adjust_element' set to that keyword's
    value (the template itself when the value is empty).  So no key is
    removed, and an entry that is touched loses its value and its bounds to
    the template. *)
Theorem set_val_returns (els : list string) (kws : list (string * string))
    (c : ElementController) :
  (∀ kv, kv ∈ kws → kv.1 ∈ props) →
  ∃ c',
    set_val els kws c = (Ok (new_parameter c'), c')
    ∧ element_name c' = element_name c
    ∧ dom (new_parameter c) ⊆ dom (new_parameter c')
    ∧ ∀ k, new_parameter c' !! k = new_parameter c !! k
           ∨ ∃ p v, (p, v) ∈ kws
                    ∧ new_parameter c' !! k = Some (Spec (adjusted p (Some v))).
Proof.
  intros Hall. rewrite set_val_eq.
  assert (Hloop : ∃ c', for_each kws (set_val_body els) c = (Ok tt, c')
            ∧ element_name c' = element_name c
            ∧ ∀ k, new_parameter c' !! k = new_parameter c !! k
                   ∨ ∃ p v, (p, v) ∈ kws
                            ∧ new_parameter c' !! k
                              = Some (Spec (adjusted p (Some v)))).
  { revert c. induction kws as [|[p v] kws IH]; intros c.
    - exists c. split; [done|]. split; [done|]. intros k. by left.
    - destruct (set_val_body_ok els p v c) as (c1 & E1 & Hn1 & Hk1).
      { apply (Hall (p, v)). by left. }
      destruct (IH (λ kv Hin, Hall kv (proj2 (elem_of_cons _ _ _) (or_intror Hin))) c1)
        as (c' & E' & Hn' & Hk').
      exists c'. split; [|split].
      + simpl. unfold bind at 1. by rewrite E1.
      + by rewrite Hn'.
      + intros k. destruct (Hk' k) as [H|(p' & v' & Hin & H)].
        * rewrite H. destruct (Hk1 k) as [H1|H1]; [by left|].
          right. exists p, v. split; [by left | exact H1].
        * right. exists p', v'. split; [by right | exact H]. }
  destruct Hloop as (c' & E & Hn & Hk).
  exists c'. split; [|split; [exact Hn|split; [|exact Hk]]].
  - unfold bind at 1. by rewrite E.
  - intros k. rewrite !elem_of_dom. intros [x Hx].
    destruct (Hk k) as [H|(p & v & _ & H)]; rewrite H; [by eexists | by eexists].
Qed.

Lemma set_val_returns_witness :
  ∃ c',
    set_val ["Fe"; "Pt_M"] [("pos", "lohi"); ("width", "")]
            (ElementController_init fitted_table ["Fe_ka1_area"])
    = (Ok (new_parameter c'), c')
    ∧ element_name c' = ["Fe_ka1"].
Proof.
  destruct (set_val_returns ["Fe"; "Pt_M"] [("pos", "lohi"); ("width", "")]
              (ElementController_init fitted_table ["Fe_ka1_area"]))
    as (c' & H1 & H2 & _).
  { intros kv Hkv. apply elem_of_cons in Hkv as [->|Hkv].
    { apply (bool_decide_unpack _). vm_compute. exact I. }
    apply elem_of_cons in Hkv as [->|Hkv].
    { apply (bool_decide_unpack _). vm_compute. exact I. }
    by apply elem_of_nil in Hkv. }
  exists c'. split; [exact H1|]. rewrite H2. reflexivity.
Defined.

(** X16. A keyword that is none of pos, width, area and ratio makes the call
    raise the ValueError of the source, whose text names only three of the
    four, wherever the keyword stands among the others. *)
Theorem set_val_unknown_keyword (els : list string) (kws : list (string * string))
    (c : ElementController) (kv : string * string) :
  kv ∈ kws → kv.1 ∉ props →
  (set_val els kws c).1 = Raise (ValueError "Please define either pos, width or area.").
Proof.
  intros Hin Hbad. rewrite set_val_eq. unfold bind at 1.
  assert (Hloop : (for_each kws (set_val_body els) c).1
                  = Raise (ValueError "Please define either pos, width or area.")).
  { revert c. induction kws as [|[p v] kws IH]; intros c.
    - by apply elem_of_nil in Hin.
    - simpl. unfold bind at 1.
      destruct (decide (p ∈ props)) as [Hp|Hp].
      + destruct (set_val_body_ok els p v c Hp) as (c1 & E1 & _). rewrite E1.
        apply IH. apply elem_of_cons in Hin as [->|Hin]; [done | exact Hin].
      + by rewrite (set_val_body_raises els (p, v) c Hp). }
  destruct (for_each kws (set_val_body els) c) as [[[]|x] c']; simpl in *;
    [discriminate | by injection Hloop as ->].
Qed.

Lemma set_val_unknown_keyword_witness :
  (set_val ["Fe"] [("area", "lohi"); ("height", "fixed")]
           (ElementController_init fitted_table ["Fe_ka1_area"])).1
  = Raise (ValueError "Please define either pos, width or area.").
Proof.
  apply (set_val_unknown_keyword _ _ _ ("height", "fixed")).
  - apply elem_of_cons. right. apply elem_of_cons. by left.
  - apply (bool_decide_unpack _). vm_compute. exact I.
Defined.

Lemma setter_ignores (item : string) (o : option string) (c : ElementController) :
  item ∉ k_line → item ∉ l_line →
  set_position item o c = c ∧ set_width item o c = c
  ∧ set_area item o c = c ∧ set_ratio item o c = c.
Proof.
  intros Hk Hl. unfold set_position, set_width, set_area, set_ratio, str_in.
  by rewrite !(bool_decide_eq_false_2 _ Hk), !(bool_decide_eq_false_2 _ Hl).
Qed.

(** X17. Names that are neither in the K list nor in the L list, the M
    series among them, are passed over: the call returns the table it was
    given and leaves the controller as it was. *)
Theorem set_val_passes_over (els : list string) (kws : list (string * string))
    (c : ElementController) :
  (∀ e, e ∈ els → (e ∉ k_line) ∧ (e ∉ l_line)) →
  (∀ kv, kv ∈ kws → kv.1 ∈ props) →
  set_val els kws c = (Ok (new_parameter c), c).
Proof.
  intros Hels Hall. rewrite set_val_eq.
  assert (Hfold : ∀ (f : string → option string → ElementController → ElementController)
                    o, (∀ e, e ∈ els → f e o c = c) →
                         foldl (λ c e, f e o c) c els = c).
  { intros f o. clear Hels. induction els as [|e els IH]; intros H; [done|].
    simpl. rewrite (H e) by by left. apply IH. intros e' He'. apply H. by right. }
  assert (Hloop : for_each kws (set_val_body els) c = (Ok tt, c)).
  { induction kws as [|[p v] kws IH]; [done|].
    simpl. unfold bind at 1.
    assert (Hp : p ∈ props) by (apply (Hall (p, v)); by left).
    assert (E : set_val_body els (p, v) c = (Ok tt, c)).
    { unfold props in Hp. rewrite !elem_of_cons, elem_of_nil in Hp.
      unfold set_val_body.
      destruct Hp as [->|[->|[->|[->|[]]]]]; simpl; unfold bind, ret;
        rewrite for_each_modify; f_equal; apply Hfold; intros e He;
        destruct (Hels e He) as [Hk Hl];
        apply (setter_ignores e (Some v) c Hk Hl). }
    rewrite E. apply IH. intros kv Hkv. apply Hall. by right. }
  unfold bind at 1. by rewrite Hloop.
Qed.

Lemma set_val_passes_over_witness :
  set_val ["Pt_M"; "Zz"] [("area", "lohi")]
          (ElementController_init fitted_table ["Fe_ka1_area"])
  = (Ok fitted_table, ElementController_init fitted_table ["Fe_ka1_area"]).
Proof.
  apply (set_val_passes_over ["Pt_M"; "Zz"] [("area", "lohi")]).
  - intros e He. apply elem_of_cons in He as [->|He].
    { split; apply (bool_decide_unpack _); vm_compute; exact I. }
    apply elem_of_cons in He as [->|He].
    { split; apply (bool_decide_unpack _); vm_compute; exact I. }
    by apply elem_of_nil in He.
  - intros kv Hkv. apply elem_of_cons in Hkv as [->|Hkv].
    { apply (bool_decide_unpack _). vm_compute. exact I. }
    by apply elem_of_nil in Hkv.
Defined.

(** ** The element controller: K elements, L elements and the names *)

Lemma foldl_put_all (prop : string) (o : option string) (l : list string)
    (c : ElementController) (k : string) :
  new_parameter (foldl (λ self ln, put_template prop ln o self) c l) !! k
  = if bool_decide (k ∈ l) then Some (Spec (adjusted prop o))
    else new_parameter c !! k.
Proof.
  revert c. induction l as [|a l IH]; intros c; simpl; [done|].
  rewrite IH, put_template_eq. simpl.
  destruct (decide (k ∈ l)) as [Hin|Hin].
  - rewrite !bool_decide_eq_true_2; [done | by right | done].
  - rewrite (bool_decide_eq_false_2 _ Hin).
    destruct (decide (a = k)) as [->|Hne].
    + rewrite lookup_insert_eq, bool_decide_eq_true_2; [done | by left].
    + rewrite lookup_insert_ne by done.
      rewrite bool_decide_eq_false_2; [done|].
      rewrite elem_of_cons. intros [->|?]; done.
Qed.

(** X18. For a K element and one keyword, the call replaces the entries of
    the keys of that property by the adjusted template and leaves every other
    key alone: the centre shifts, or the width shifts, of ka1, ka2 and kb1
    (not of kb2), the area of ka1 only, the ratio adjustment of kb1 only.
    Neither the entries the table held nor the names of the controller play a
    part. *)
Theorem set_val_K (item p v : string) (c : ElementController) :
  item ∈ k_line → p ∈ props →
  ∃ c',
    set_val [item] [(p, v)] c = (Ok (new_parameter c'), c')
    ∧ element_name c' = element_name c
    ∧ ∀ k, new_parameter c' !! k
           = if bool_decide (k ∈ k_keys p item)
             then Some (Spec (adjusted p (Some v)))
             else new_parameter c !! k.
Proof.
  intros Hk Hp. unfold props in Hp. rewrite !elem_of_cons, elem_of_nil in Hp.
  unfold set_val.
  destruct Hp as [->|[->|[->|[->|[]]]]]; simpl;
    unfold bind, ret, modify, get_state; simpl;
    unfold set_position, set_width, set_area, set_ratio, str_in;
    rewrite (bool_decide_eq_true_2 _ Hk);
    (eexists; split; [reflexivity|]; split;
     [ match goal with
       | |- context [foldl ?f c ?l] =>
           exact (proj1 (foldl_put _ (Some v) f l c (λ _ _, or_intror eq_refl)))
       end
     | intros k; apply foldl_put_all ]).
Qed.

Lemma set_val_K_witness :
  ∃ c',
    set_val ["Fe"] [("pos", "lohi")]
            (ElementController_init fitted_table ["Fe_ka1_area"])
    = (Ok (new_parameter c'), c')
    ∧ new_parameter c' !! "Fe_kb1_delta_center"
      = Some (Spec (adjusted "pos" (Some "lohi")))
    ∧ new_parameter c' !! "Fe_kb2_delta_center"
      = fitted_table !! "Fe_kb2_delta_center".
Proof.
  destruct (set_val_K "Fe" "pos" "lohi"
              (ElementController_init fitted_table ["Fe_ka1_area"]))
    as (c' & H1 & _ & H3).
  { apply (bool_decide_unpack _). vm_compute. exact I. }
  { apply (bool_decide_unpack _). vm_compute. exact I. }
  exists c'. split; [exact H1|]. split.
  - rewrite H3. reflexivity.
  - rewrite H3. reflexivity.
Defined.

Lemma str_contains_app (needle e s : string) :
  str_contains needle s = true → str_contains needle (e +:+ s) = true.
Proof.
  intros H. induction e as [|a e IH]; [exact H|].
  change (String a e +:+ s) with (String a (e +:+ s)).
  cbn [str_contains]. rewrite IH. apply orb_true_r.
Qed.

Lemma length_app (e s : string) :
  String.length (e +:+ s) = String.length e + String.length s.
Proof. induction e as [|a e IH]; simpl; [done | by rewrite IH]. Qed.

Lemma substring_app (e s : string) :
  String.substring 0 (String.length e) (e +:+ s) = e.
Proof.
  induction e as [|a e IH]; simpl; [by destruct s | by rewrite IH].
Qed.

Lemma drop_end_app (e s : string) : drop_end (String.length s) (e +:+ s) = e.
Proof.
  unfold drop_end. rewrite length_app.
  replace (String.length e + String.length s - String.length s)
    with (String.length e) by lia.
  apply substring_app.
Qed.

(** X19. The controller takes its names from the fit names that contain
    'area', each without its last five characters: a fit name <x>_area gives
    the name <x>, and every name of the controller comes from such a fit
    name.  The table is the one given. *)
Theorem ElementController_init_names (t : ParameterTable) (fit_name : list string) :
  new_parameter (ElementController_init t fit_name) = t
  ∧ (∀ x, x +:+ "_area" ∈ fit_name →
          x ∈ element_name (ElementController_init t fit_name))
  ∧ (∀ x, x ∈ element_name (ElementController_init t fit_name) →
          ∃ item, item ∈ fit_name ∧ str_contains "area" item = true
                  ∧ x = drop_end 5 item).
Proof.
  split; [reflexivity|]. unfold ElementController_init; simpl. split.
  - intros x Hx. apply list_elem_of_fmap. exists (x +:+ "_area"). split.
    + symmetry. apply (drop_end_app x "_area").
    + apply list_elem_of_filter. split; [|exact Hx].
      by apply str_contains_app.
  - intros x Hx. apply list_elem_of_fmap in Hx as (item & -> & Hin).
    apply list_elem_of_filter in Hin as [Hc Hin]. by exists item.
Qed.

Lemma put_known_L_lookup (prop : string) (o : option string)
    (c : ElementController) (ln k : string) :
  element_name (put_known_L prop o c ln) = element_name c
  ∧ new_parameter (put_known_L prop o c ln) !! k
    = if bool_decide (k = ln) && str_in (linev_of ln) (element_name c)
      then Some (Spec (adjusted prop o))
      else new_parameter c !! k.
Proof.
  unfold put_known_L. destruct (str_in _ _); simpl.
  - split; [done|]. rewrite andb_true_r.
    destruct (decide (k = ln)) as [->|Hne].
    + by rewrite lookup_insert_eq, bool_decide_eq_true_2.
    + rewrite lookup_insert_ne by done. by rewrite bool_decide_eq_false_2.
  - split; [done|]. by rewrite andb_false_r.
Qed.

(** The loop of an L element: [skip] is the test that passes a line over
    before the names are looked at. *)
Lemma foldl_known_L (prop : string) (o : option string) (skip : string → bool)
    (f : ElementController → string → ElementController) (l : list string)
    (c : ElementController) (k : string) :
  (∀ self ln, f self ln = if skip ln then self else put_known_L prop o self ln) →
  element_name (foldl f c l) = element_name c
  ∧ new_parameter (foldl f c l) !! k
    = if bool_decide (k ∈ l) && negb (skip k)
         && str_in (linev_of k) (element_name c)
      then Some (Spec (adjusted prop o))
      else new_parameter c !! k.
Proof.
  intros Hf. revert c. induction l as [|a l IH]; intros c; simpl; [done|].
  destruct (IH (f c a)) as [Hn Hk]. rewrite Hn, Hk, Hf.
  destruct (put_known_L_lookup prop o c a k) as [Hn' Hk'].
  assert (Hna : element_name (if skip a then c else put_known_L prop o c a)
                = element_name c) by (by destruct (skip a)).
  rewrite Hna. split; [done|].
  destruct (decide (k ∈ l)) as [Hin|Hin].
  - rewrite (bool_decide_eq_true_2 _ Hin).
    rewrite (bool_decide_eq_true_2 (k ∈ a :: l)) by by right.
    simpl. destruct (negb (skip k) && str_in (linev_of k) (element_name c)) eqn:E;
      [done|].
    destruct (skip a) eqn:Ea; [done|]. rewrite Hk'.
    destruct (decide (k = a)) as [->|Hne].
    + rewrite Ea in E. simpl in E. rewrite E. by rewrite andb_false_r.
    + by rewrite (bool_decide_eq_false_2 _ Hne).
  - rewrite (bool_decide_eq_false_2 _ Hin). simpl.
    destruct (decide (k = a)) as [->|Hne].
    + rewrite bool_decide_eq_true_2 by by left. simpl.
      destruct (skip a); [done|]. simpl. rewrite Hk'.
      by rewrite bool_decide_eq_true_2.
    + rewrite (bool_decide_eq_false_2 (k ∈ a :: l)).
      2:{ rewrite elem_of_cons. tauto. }
      simpl. destruct (skip a); [done|]. rewrite Hk'.
      by rewrite (bool_decide_eq_false_2 _ Hne).
Qed.

(** What the names of the L list and the L lines give as keys. *)
Lemma L_keys (item line : string) :
  item ∈ l_line → line ∈ l_names →
  (item ∉ k_line)
  ∧ Forall (λ p,
      linev_of (p +:+ "-" +:+ drop_end 2 item +:+ "-" +:+ line)
      = drop_end 2 item +:+ "_" +:+ line
      ∧ str_contains "la1" (p +:+ "-" +:+ drop_end 2 item +:+ "-" +:+ line)
        = String.eqb line "la1"
      ∧ drop_end 2 item +:+ "_" +:+ line +:+ "_area"
        ∉ get_L_line p (drop_end 2 item)) props.
Proof.
  intros Hi Hl. split; [apply l_m_not_k; by left|].
  assert (H : Forall (λ item, Forall (λ line, Forall (λ p,
      linev_of (p +:+ "-" +:+ drop_end 2 item +:+ "-" +:+ line)
      = drop_end 2 item +:+ "_" +:+ line
      ∧ str_contains "la1" (p +:+ "-" +:+ drop_end 2 item +:+ "-" +:+ line)
        = String.eqb line "la1"
      ∧ drop_end 2 item +:+ "_" +:+ line +:+ "_area"
        ∉ get_L_line p (drop_end 2 item)) props) l_names) l_line).
  { apply (bool_decide_unpack _). vm_compute. exact I. }
  rewrite Forall_forall in H. specialize (H item Hi).
  rewrite Forall_forall in H. exact (H line Hl).
Qed.

Lemma get_L_line_elem (p e line : string) :
  line ∈ l_names → p +:+ "-" +:+ e +:+ "-" +:+ line ∈ get_L_line p e.
Proof.
  intros Hl. unfold get_L_line. apply list_elem_of_fmap. by exists line.
Qed.

(** X20. For an L element <e>_L and an L line, set_area stores the adjusted
    area template under the dash-separated key area-<e>-<line> exactly when
    <e>_<line> is a name of the controller; the entry of the underscore key
    <e>_<line>_area, the name the model gives the line's area, stays as it
    was; the names of the controller stay. *)
Theorem set_area_L (item line : string) (o : option string) (c : ElementController) :
  item ∈ l_line → line ∈ l_names →
  element_name (set_area item o c) = element_name c
  ∧ new_parameter (set_area item o c) !! ("area-" +:+ drop_end 2 item +:+ "-" +:+ line)
    = (if str_in (drop_end 2 item +:+ "_" +:+ line) (element_name c)
       then Some (Spec (adjusted "area" o))
       else new_parameter c !! ("area-" +:+ drop_end 2 item +:+ "-" +:+ line))
  ∧ new_parameter (set_area item o c) !! (drop_end 2 item +:+ "_" +:+ line +:+ "_area")
    = new_parameter c !! (drop_end 2 item +:+ "_" +:+ line +:+ "_area").
Proof.
  intros Hi Hl. destruct (L_keys item line Hi Hl) as [Hk HF].
  rewrite Forall_forall in HF.
  destruct (HF "area") as (Hv & _ & Hu).
  { apply (bool_decide_unpack _). vm_compute. exact I. }
  assert (Ek : str_in item k_line = false) by by apply bool_decide_eq_false_2.
  assert (El : str_in item l_line = true) by by apply bool_decide_eq_true_2.
  unfold set_area. rewrite Ek, El.
  cbv zeta. set (l := get_L_line "area" (drop_end 2 item)) in *.
  assert (Hf : ∀ self ln, put_known_L "area" o self ln
                 = if (λ _ : string, false) ln then self
                   else put_known_L "area" o self ln) by done.
  split; [|split].
  - apply (foldl_known_L "area" o (λ _, false) _ l c "" Hf).
  - change ("area-" +:+ drop_end 2 item +:+ "-" +:+ line)
      with ("area" +:+ "-" +:+ drop_end 2 item +:+ "-" +:+ line).
    rewrite (proj2 (foldl_known_L "area" o (λ _, false) _ l c _ Hf)).
    rewrite bool_decide_eq_true_2 by by apply get_L_line_elem.
    rewrite Hv. reflexivity.
  - rewrite (proj2 (foldl_known_L "area" o (λ _, false) _ l c _ Hf)).
    by rewrite (bool_decide_eq_false_2 _ Hu).
Qed.

Lemma set_area_L_witness :
  new_parameter (set_area "Ga_L" (Some "lohi")
                   (ElementController_init fitted_table ["Ga_la1_area"]))
    !! "area-Ga-la1"
  = Some (Spec (adjusted "area" (Some "lohi"))).
Proof.
  destruct (set_area_L "Ga_L" "la1" (Some "lohi")
              (ElementController_init fitted_table ["Ga_la1_area"]))
    as (_ & H & _).
  { apply (bool_decide_unpack _). vm_compute. exact I. }
  { apply (bool_decide_unpack _). vm_compute. exact I. }
  exact H.
Defined.

(** X21. For an L element, set_ratio never writes the key of la1, whatever
    the names of the controller, and writes the key ratio-<e>-<line> of
    another L line exactly when <e>_<line> is a name of the controller. *)
Theorem set_ratio_L (item line : string) (o : option string) (c : ElementController) :
  item ∈ l_line → line ∈ l_names →
  new_parameter (set_ratio item o c) !! ("ratio-" +:+ drop_end 2 item +:+ "-" +:+ line)
  = if negb (String.eqb line "la1")
       && str_in (drop_end 2 item +:+ "_" +:+ line) (element_name c)
    then Some (Spec (adjusted "ratio" o))
    else new_parameter c !! ("ratio-" +:+ drop_end 2 item +:+ "-" +:+ line).
Proof.
  intros Hi Hl. destruct (L_keys item line Hi Hl) as [Hk HF].
  rewrite Forall_forall in HF.
  destruct (HF "ratio") as (Hv & Hs & _).
  { apply (bool_decide_unpack _). vm_compute. exact I. }
  assert (Ek : str_in item k_line = false) by by apply bool_decide_eq_false_2.
  assert (El : str_in item l_line = true) by by apply bool_decide_eq_true_2.
  unfold set_ratio. rewrite Ek, El.
  cbv zeta.
  change ("ratio-" +:+ drop_end 2 item +:+ "-" +:+ line)
    with ("ratio" +:+ "-" +:+ drop_end 2 item +:+ "-" +:+ line).
  rewrite (proj2 (foldl_known_L "ratio" o (str_contains "la1") _ _ c _
                    (λ _ _, eq_refl))).
  rewrite bool_decide_eq_true_2 by by apply get_L_line_elem.
  rewrite Hv, Hs. reflexivity.
Qed.

Lemma set_ratio_L_witness :
  new_parameter (set_ratio "Ga_L" (Some "lohi")
                   (ElementController_init fitted_table ["Ga_la1_area"]))
    !! "ratio-Ga-la1"
  = fitted_table !! "ratio-Ga-la1".
Proof.
  refine (set_ratio_L "Ga_L" "la1" (Some "lohi")
            (ElementController_init fitted_table ["Ga_la1_area"]) _ _).
  - apply (bool_decide_unpack _). vm_compute. exact I.
  - apply (bool_decide_unpack _). vm_compute. exact I.
Defined.

(** ** The constructor: when it returns *)

Lemma set_parameter_hint_ok (n : string) (sp : ParameterSpec) (m : Model) (w : world) :
  valid_bound sp →
  ∃ kw, _set_parameter_hint n sp m false w = (Ok (set_param_hint m n kw), w).
Proof.
  unfold valid_bound. rewrite !elem_of_cons, elem_of_nil.
  unfold _set_parameter_hint, bind.
  intros [E|[E|[E|[E|[E|[]]]]]]; rewrite E; simpl; eexists; reflexivity.
Qed.

Section InitReturns.

Variable get_para : ParameterTable.
Variable compton_hints0 : gmap string Hint.
Variable elastic_hints0 : gmap string Hint.

Lemma hint_from_ok (tbl : ParameterTable) (key name : string) (m : Model)
    (sp : ParameterSpec) (sw : ModelSpectrum * world) :
  tbl !! key = Some (Spec sp) → valid_bound sp →
  ∃ kw, hint_from tbl key name m false sw = (Ok (set_param_hint m name kw), sw).
Proof.
  intros Hk Hv. unfold hint_from, bind, lift_result, getitem. rewrite Hk. simpl.
  destruct (set_parameter_hint_ok name sp m sw.2 Hv) as [kw E].
  exists kw. unfold lift_w. rewrite E. by destruct sw.
Qed.

(** One parameter read from the table or the defaults. *)
Lemma effective_hint_ok (name : string) (m : Model) (s : ModelSpectrum) (w : world)
    (sp : ParameterSpec) :
  effective (heap w !!! parameter s) (parameter_default s) name = Some (Spec sp) →
  valid_bound sp →
  ∃ kw,
    (do s <- self;
     do tbl <- lift_w (deref (parameter s));
     if has_key tbl name then hint_from tbl name name m false
     else hint_from (parameter_default s) name name m false) (s, w)
    = (Ok (set_param_hint m name kw), (s, w)).
Proof.
  intros He Hv. unfold bind at 1 2, self, lift_w, deref. simpl.
  unfold effective in He.
  destruct (has_key (heap w !!! parameter s) name);
    by apply (hint_from_ok _ _ _ _ sp).
Qed.

Lemma compton_fold_ok (names : list string) (m : Model) (s : ModelSpectrum) (w : world) :
  Forall (λ name, ∃ sp, effective (heap w !!! parameter s) (parameter_default s) name
                        = Some (Spec sp) ∧ valid_bound sp) names →
  prefix m = "" →
  ∃ m',
    fold_m (λ compton name,
        do s <- self;
        do tbl <- lift_w (deref (parameter s));
        if has_key tbl name then hint_from tbl name name compton false
        else hint_from (parameter_default s) name name compton false)
      names m (s, w) = (Ok m', (s, w))
    ∧ prefix m' = ""
    ∧ ∀ n, n ∈ names ∨ is_Some (param_hints m !! n) → is_Some (param_hints m' !! n).
Proof.
  revert m. induction names as [|a names IH]; intros m Hall Hp.
  - exists m. split; [done|]. split; [done|]. intros n [Hn|Hn]; [|done].
    by apply elem_of_nil in Hn.
  - apply Forall_cons in Hall as [(sp & He & Hv) Hall].
    destruct (effective_hint_ok a m s w sp He Hv) as [kw E].
    destruct (IH (set_param_hint m a kw) Hall Hp) as (m' & E' & Hp' & Hk').
    exists m'. split; [|split; [exact Hp'|]].
    + simpl. unfold bind at 1. rewrite E. exact E'.
    + assert (Ha : hint_name m a = a) by (unfold hint_name; by rewrite Hp).
      intros n Hn. apply Hk'.
      destruct (decide (n = a)) as [->|Hne].
      * right. pose proof (set_param_hint_lookup m a kw) as H.
        rewrite Ha in H. rewrite H. by eexists.
      * destruct Hn as [Hn|Hn].
        -- left. apply elem_of_cons in Hn as [?|?]; [done | assumption].
        -- right. rewrite set_param_hint_other; [exact Hn | by rewrite Ha].
Qed.

Lemma tie_all_ok (cp : gmap string Hint) (names : list string) (m : Model) :
  (∀ n, n ∈ names → is_Some (cp !! n)) → is_ok (tie_all cp names m) = true.
Proof.
  unfold tie_all. revert m. induction names as [|a names IH]; intros m Hall; [done|].
  destruct (Hall a) as [p Hp]; [by left|].
  assert (E : ∃ m1, tie cp a m = Ok m1)
    by (unfold tie, getitem; rewrite Hp; by eexists).
  destruct E as [m1 E]. cbn [foldl]. cbv beta iota. rewrite E. apply IH.
  intros n Hn. apply Hall. by right.
Qed.

Lemma setComptonModel_ok (s : ModelSpectrum) (w : world) :
  Forall (λ name, ∃ sp, effective (heap w !!! parameter s) (parameter_default s) name
                        = Some (Spec sp) ∧ valid_bound sp) compton_list →
  ∃ c,
    setComptonModel compton_hints0 (s, w)
    = (Ok tt,
       (set_compton (make_params c) c s,
        {| heap := heap w;
           logs := (logs w ++
             [(DEBUG, MsgText " ###### Started setting up parameters for compton model. ######");
              (DEBUG, MsgText " Finished setting up parameters for compton model.")])%list |}))
    ∧ prefix c = ""
    ∧ ∀ n, n ∈ compton_list → is_Some (make_params c !! n).
Proof.
  intros Hall. unfold setComptonModel. cbv zeta.
  set (w1 := {| heap := heap w;
                logs := logs w ++ [(DEBUG, MsgText " ###### Started setting up parameters for compton model. ######")] |}).
  destruct (compton_fold_ok compton_list (ComptonModel compton_hints0) s w1 Hall eq_refl)
    as (c & E & Hp & Hk).
  exists c. split; [|split; [exact Hp|]].
  - unfold bind at 1. unfold lift_w at 1, emit at 1, modify at 1.
    cbn [fst snd]. fold w1. unfold bind at 1. rewrite E.
    unfold bind, lift_w, emit, set_self, modify. subst w1. cbn [fst snd heap logs].
    by rewrite <- app_assoc.
  - intros n Hn. pose proof (make_params_lookup c n) as H. rewrite Hp in H.
    change ("" +:+ n) with n in H. rewrite H. apply Hk. by left.
Qed.

Lemma setElasticModel_ok (s : ModelSpectrum) (w : world) (cp : gmap string Hint)
    (sp : ParameterSpec) :
  compton_param s = Some cp →
  (∀ n, n ∈ compton_list → is_Some (cp !! n)) →
  effective (heap w !!! parameter s) (parameter_default s) "coherent_sct_amplitude"
  = Some (Spec sp) →
  valid_bound sp →
  ∃ e,
    setElasticModel elastic_hints0 (s, w)
    = (Ok tt,
       (set_elastic e s,
        {| heap := heap w;
           logs := (logs w ++
             [(DEBUG, MsgText " ###### Started setting up parameters for elastic model. ######");
              (DEBUG, MsgText " Finished setting up parameters for elastic model.")])%list |})).
Proof.
  intros Hcp Hall He Hv. unfold setElasticModel. cbv zeta.
  unfold bind at 1 2, self, lift_w at 1, deref. cbn [fst snd].
  assert (E : ∃ kw,
    (if has_key (heap w !!! parameter s) "coherent_sct_amplitude"
     then hint_from (heap w !!! parameter s) "coherent_sct_amplitude"
            "coherent_sct_amplitude" (ElasticModel elastic_hints0 "elastic_") false
     else hint_from (parameter_default s) "coherent_sct_amplitude"
            "coherent_sct_amplitude" (ElasticModel elastic_hints0 "elastic_") false) (s, w)
    = (Ok (set_param_hint (ElasticModel elastic_hints0 "elastic_")
             "coherent_sct_amplitude" kw), (s, w))).
  { unfold effective in He.
    destruct (has_key (heap w !!! parameter s) "coherent_sct_amplitude");
      by apply (hint_from_ok _ _ _ _ sp). }
  destruct E as [kw E]. unfold bind at 1. rewrite E.
  unfold bind at 1. unfold lift_w at 1, emit at 1, modify at 1. cbn [fst snd].
  unfold bind at 1. unfold getattr, bind at 1, self. cbn [fst snd]. rewrite Hcp.
  unfold ret at 1.
  set (m0 := set_param_hint _ _ kw).
  pose proof (tie_all_ok cp ["e_offset"; "e_linear"; "e_quadratic"; "fwhm_offset";
                             "fwhm_fanoprime"; "coherent_sct_energy"] m0) as Hok.
  destruct (tie_all cp _ m0) as [e|x] eqn:Et.
  2:{ exfalso. assert (Hf : false = true); [|discriminate]. apply Hok.
      assert (Hsub : Forall (λ n, n ∈ compton_list)
                ["e_offset"; "e_linear"; "e_quadratic"; "fwhm_offset";
                 "fwhm_fanoprime"; "coherent_sct_energy"])
        by (apply (bool_decide_unpack _); vm_compute; exact I).
      rewrite Forall_forall in Hsub. intros n Hn. by apply Hall, Hsub. }
  exists e. unfold bind, lift_result, lift_w, emit, set_self, modify.
  cbn [fst snd heap logs]. by rewrite <- app_assoc.
Qed.

(** The part of [_config] after the element list. *)
Lemma config_rest (r : loc) (s : ModelSpectrum) (w : world) (sp : ParameterSpec) :
  parameter s = r → parameter_default s = get_para →
  (heap w !!! r) !! "coherent_sct_energy" = Some (Spec sp) →
  Forall (λ name, ∃ s, effective (heap w !!! r) get_para name = Some (Spec s)
                       ∧ valid_bound s)
         (compton_list ++ ["coherent_sct_amplitude"]) →
  ∃ c e,
    (do tbl <- lift_w (deref r);
     do e <- lift_result (getitem tbl "coherent_sct_energy");
     do v <- (match entry_get e "value" with
              | Some (PNum v) => ret v
              | Some (PStr _) => raise (TypeError "incident energy is not a number")
              | None => raise (KeyError "value")
              end);
     set_self (set_incident_energy v) ;;
     setComptonModel compton_hints0 ;;
     setElasticModel elastic_hints0) (s, w)
    = (Ok tt,
       (set_elastic e (set_compton (make_params c) c (set_incident_energy (value sp) s)),
        {| heap := heap w; logs := (logs w ++ config_logs false)%list |})).
Proof.
  intros Hr Hd He Hall. apply Forall_app in Hall as [Hc Ha].
  apply Forall_cons in Ha as [(spa & Hea & Hva) _].
  unfold bind at 1 2 3, lift_w at 1, deref, lift_result at 1, getitem.
  cbn [fst snd]. rewrite He. cbn [entry_get]. cbv beta iota.
  change (String.eqb "value" "bound_type") with false.
  change (String.eqb "value" "value") with true. cbv iota.
  unfold ret at 1. unfold bind at 1. unfold set_self at 1, modify at 1.
  cbn [fst snd].
  set (s2 := set_incident_energy (value sp) s).
  destruct (setComptonModel_ok s2 w) as (c & Ec & Hp & Hk).
  { unfold s2; simpl. by rewrite Hr, Hd. }
  unfold bind at 1. rewrite Ec.
  set (w2 := {| heap := heap w; logs := _ |}).
  destruct (setElasticModel_ok (set_compton (make_params c) c s2) w2
              (make_params c) spa eq_refl Hk) as [e Ee].
  { unfold s2, w2; simpl. by rewrite Hr, Hd. }
  { exact Hva. }
  exists c, e. rewrite Ee. unfold w2, config_logs. cbn [heap logs app].
  by rewrite <- app_assoc.
Qed.

(** [_config] on the fresh instance of a well-formed table. *)
Lemma config_ok (r : loc) (w : world) :
  well_formed get_para (heap w !!! r) →
  ∃ ms nf sp,
    (heap w !!! r) !! "non_fitting_values" = Some nf
    ∧ (heap w !!! r) !! "coherent_sct_energy" = Some (Spec sp)
    ∧ _config compton_hints0 elastic_hints0
        ({| parameter := r; parameter_default := get_para; element_list := None;
            incident_energy := None; compton_param := None; compton := None;
            elastic := None; self_mod := None |}, w)
      = (Ok tt,
         (ms,
          {| heap := heap w;
             logs := (logs w ++
                      config_logs (match entry_get nf "element_list" with
                                   | Some _ => false
                                   | None => true
                                   end))%list |}))
    ∧ incident_energy ms = Some (value sp)
    ∧ element_list ms = match entry_get nf "element_list" with
                        | Some (PStr el) => Some (parse_element_list el)
                        | _ => None
                        end.
Proof.
  intros ((nf & Hnf & Hnum) & [e0 He0] & Hall).
  assert (Hsp : ∃ sp, (heap w !!! r) !! "coherent_sct_energy" = Some (Spec sp)).
  { pose proof Hall as Hall'. rewrite Forall_forall in Hall'.
    destruct (Hall' "coherent_sct_energy") as (sp & Hsp & _).
    { apply (bool_decide_unpack _). vm_compute. exact I. }
    unfold effective, has_key in Hsp.
    rewrite bool_decide_eq_true_2 in Hsp by by eexists. by exists sp. }
  destruct Hsp as [sp Hsp].
  set (s0 := {| parameter := r; parameter_default := get_para; element_list := None;
                incident_energy := None; compton_param := None; compton := None;
                elastic := None; self_mod := None |}).
  unfold _config.
  unfold bind at 1 2 3, self, lift_w at 1, deref at 1, lift_result at 1, getitem at 1.
  cbn [fst snd]. change (parameter s0) with r. rewrite Hnf. unfold bind at 1.
  destruct (entry_get nf "element_list") as [[el|q]|] eqn:Eel.
  - unfold set_self at 1, modify at 1. cbn [fst snd].
    destruct (config_rest r (set_element_list (parse_element_list el) s0) w sp
                eq_refl eq_refl Hsp Hall) as (c & e & E).
    unfold parse_element_list in E. rewrite E.
    eexists _, nf, sp. rewrite Eel. split; [done|]. split; [done|].
    split; [reflexivity|]. by split.
  - by destruct (Hnum q).
  - unfold lift_w at 1, emit at 1, modify at 1. cbn [fst snd].
    set (w1 := {| heap := heap w; logs := (logs w ++ [(CRITICAL, MsgNoElement)])%list |}).
    destruct (config_rest r s0 w1 sp eq_refl eq_refl Hsp Hall) as (c & e & E).
    rewrite E. eexists _, nf, sp. rewrite Eel. split; [done|]. split; [done|]. split.
    + unfold w1, config_logs. cbn [heap logs app]. by rewrite <- app_assoc.
    + by split.
Qed.

(** X22. On a well-formed table the constructor returns.  The instance keeps
    the reference, has the incident energy of the table and the element list
    parsed from the metadata (none when the metadata has no list), has the
    Compton model and the elastic model with its six parameters tied, and no
    composite yet; the store is as it was; the log gains the four debug lines
    of the two model set-ups, after the critical line when there is no element
    list. *)
Theorem ModelSpectrum_init_returns (r : loc) (w : world) :
  well_formed get_para (heap w !!! r) →
  ∃ ms nf sp,
    (heap w !!! r) !! "non_fitting_values" = Some nf
    ∧ (heap w !!! r) !! "coherent_sct_energy" = Some (Spec sp)
    ∧ ModelSpectrum_init get_para compton_hints0 elastic_hints0 r w
      = (Ok ms,
         {| heap := heap w;
            logs := (logs w ++
                     config_logs (match entry_get nf "element_list" with
                                  | Some _ => false
                                  | None => true
                                  end))%list |})
    ∧ parameter ms = r
    ∧ incident_energy ms = Some (value sp)
    ∧ element_list ms = match entry_get nf "element_list" with
                        | Some (PStr el) => Some (parse_element_list el)
                        | _ => None
                        end
    ∧ self_mod ms = None
    ∧ constructed ms.
Proof.
  intros Hwf.
  destruct (config_ok r w Hwf) as (ms & nf & sp & Hnf & Hsp & E & Hie & Hel).
  assert (Hrun : ModelSpectrum_init get_para compton_hints0 elastic_hints0 r w
                 = (Ok ms,
                    {| heap := heap w;
                       logs := (logs w ++
                                config_logs (match entry_get nf "element_list" with
                                             | Some _ => false
                                             | None => true
                                             end))%list |})).
  { unfold ModelSpectrum_init. by rewrite E. }
  destruct (ModelSpectrum_init_spec get_para compton_hints0 elastic_hints0
              r w ms _ Hrun) as (_ & (Hp & Hm & _) & Hc).
  exists ms, nf, sp. by repeat split.
Qed.

End InitReturns.

Lemma ModelSpectrum_init_returns_witness :
  ∃ ms w',
    ModelSpectrum_init sample_get_para ∅ ∅ 1%positive (sample_world (sample_table 12))
    = (Ok ms, w')
    ∧ incident_energy ms = Some 12%Q.
Proof.
  destruct (ModelSpectrum_init_returns sample_get_para ∅ ∅ 1%positive
              (sample_world (sample_table 12)))
    as (ms & nf & sp & _ & Hsp & E & _ & Hie & _).
  { split; [|split].
    - eexists. split; [reflexivity|]. intros q. vm_compute. discriminate.
    - by eexists.
    - unfold compton_list. cbn [app].
      apply Forall_cons. split.
      { exists (sample_spec 12). split; [vm_compute; reflexivity|].
        apply (bool_decide_unpack _). vm_compute. exact I. }
      repeat (apply Forall_cons; split;
              [exists (sample_spec 1); split;
               [vm_compute; reflexivity
               | apply (bool_decide_unpack _); vm_compute; exact I]|]).
      constructor. }
  exists ms. eexists. split; [exact E|]. rewrite Hie.
  vm_compute in Hsp. by injection Hsp as <-.
Defined.

(** ** The constructor: a table without incident energy *)

(** X23. The incident energy is read from the table only: when the table
    has no key 'coherent_sct_energy' the constructor raises, whatever the
    default table holds, and no instance is made.  The error is the KeyError
    of 'non_fitting_values' when the metadata is missing too, the TypeError of
    the element-list test when the list is a number, and else the KeyError of
    'coherent_sct_energy'; the store is as it was. *)
Theorem ModelSpectrum_init_without_energy (get_para : ParameterTable)
    (compton_hints0 elastic_hints0 : gmap string Hint) (r : loc) (w : world) :
  (heap w !!! r) !! "coherent_sct_energy" = None →
  ∃ w',
    ModelSpectrum_init get_para compton_hints0 elastic_hints0 r w
    = (Raise (match (heap w !!! r) !! "non_fitting_values" with
              | None => KeyError "non_fitting_values"
              | Some nf =>
                  match entry_get nf "element_list" with
                  | Some (PNum _) => TypeError "argument of type 'float' is not iterable"
                  | _ => KeyError "coherent_sct_energy"
                  end
              end), w')
    ∧ heap w' = heap w.
Proof.
  intros Hne. unfold ModelSpectrum_init, _config.
  unfold bind at 1 2 3, self, lift_w at 1, deref at 1, lift_result at 1, getitem at 1.
  cbn [fst snd parameter].
  destruct ((heap w !!! r) !! "non_fitting_values") as [nf|]; [|by eexists].
  unfold bind at 1.
  destruct (entry_get nf "element_list") as [[el|q]|].
  - unfold set_self at 1, modify at 1. cbn [fst snd].
    unfold bind at 1 2, lift_w at 1, deref at 1, lift_result at 1, getitem at 1.
    cbn [fst snd]. rewrite Hne. by eexists.
  - unfold raise at 1. by eexists.
  - unfold lift_w at 1, emit at 1, modify at 1. cbn [fst snd].
    unfold bind at 1 2, lift_w at 1, deref at 1, lift_result at 1, getitem at 1.
    cbn [fst snd heap]. rewrite Hne. by eexists.
Qed.

Lemma ModelSpectrum_init_without_energy_witness :
  ∃ w',
    ModelSpectrum_init sample_get_para ∅ ∅ 1%positive
      (sample_world {[ "non_fitting_values" := NonFit {[ "element_list" := PStr "Fe" ]} ]})
    = (Raise (KeyError "coherent_sct_energy"), w').
Proof.
  destruct (ModelSpectrum_init_without_energy sample_get_para ∅ ∅ 1%positive
    (sample_world {[ "non_fitting_values" := NonFit {[ "element_list" := PStr "Fe" ]} ]}))
    as (w' & E & _).
  { reflexivity. }
  exists w'. exact E.
Defined.

(** ** The element list of the metadata *)

Lemma rev_app_rev_app (s1 s2 s3 : string) :
  String.rev_app (String.rev_app s1 s2) s3 = String.rev_app s2 (s1 +:+ s3).
Proof.
  revert s2. induction s1 as [|a s1 IH]; intros s2; simpl; [done|].
  by rewrite IH.
Qed.

Lemma append_nil_r (s : string) : s +:+ "" = s.
Proof.
  induction s as [|a s IH]; [done|].
  change (String a (s +:+ "") = String a s). by rewrite IH.
Qed.

Lemma rev_rev (s : string) : String.rev (String.rev s) = s.
Proof. unfold String.rev. rewrite rev_app_rev_app. simpl. apply append_nil_r. Qed.

Lemma no_space_rev_app (s1 s2 : string) :
  no_space s1 = true → no_space s2 = true → no_space (String.rev_app s1 s2) = true.
Proof.
  revert s2. induction s1 as [|a s1 IH]; intros s2 H1 H2; simpl in *; [done|].
  apply andb_true_iff in H1 as [Ha H1]. apply IH; [done|]. simpl. by rewrite Ha.
Qed.

Lemma lstrip_id (s : string) : no_space s = true → lstrip s = s.
Proof.
  destruct s as [|a s]; simpl; [done|]. intros H.
  apply andb_true_iff in H as [Ha _]. by destruct (is_space a).
Qed.

Lemma strip_id (s : string) : no_space s = true → strip s = s.
Proof.
  intros H. unfold strip. rewrite (lstrip_id s H), lstrip_id; [apply rev_rev|].
  by apply no_space_rev_app.
Qed.

Lemma no_space_app (a b : string) :
  no_space (a +:+ b) = no_space a && no_space b.
Proof.
  induction a as [|c a IH]; simpl; [done|]. by rewrite IH, andb_assoc.
Qed.

Lemma prefix_cons (a c : ascii) (p s : string) :
  String.prefix (String a p) (String c s)
  = if Ascii.eqb a c then String.prefix p s else false.
Proof.
  change (String.prefix (String a p) (String c s))
    with (match ascii_dec a c with
          | left _ => String.prefix p s
          | right _ => false
          end).
  destruct (ascii_dec a c) as [->|Hne].
  - by rewrite Ascii.eqb_refl.
  - by rewrite (proj2 (Ascii.eqb_neq a c) Hne).
Qed.

Lemma split_aux_cons (sep : string) (c : ascii) (s cur : string) :
  split_aux sep (String c s) cur 0
  = if String.prefix sep (String c s)
    then cur :: split_aux sep s "" (String.length sep - 1)
    else split_aux sep s (cur +:+ String c "") 0.
Proof. reflexivity. Qed.

Lemma no_comma_head (c : ascii) (n : string) :
  no_comma (String c n) = true → Ascii.eqb "," c = false ∧ no_comma n = true.
Proof.
  change (no_comma (String c n)) with (negb (Ascii.eqb c ",") && no_comma n).
  intros H. apply andb_true_iff in H as [Hc H]. split; [|exact H].
  rewrite Ascii.eqb_sym. by destruct (Ascii.eqb c ",").
Qed.

(** Reading a piece that holds no comma. *)
Lemma split_aux_piece (n rest cur : string) :
  no_comma n = true →
  split_aux ", " (n +:+ rest) cur 0 = split_aux ", " rest (cur +:+ n) 0.
Proof.
  revert cur. induction n as [|c n IH]; intros cur H.
  - by rewrite append_nil_r.
  - apply no_comma_head in H as [Hc H].
    change (String c n +:+ rest) with (String c (n +:+ rest)).
    rewrite split_aux_cons, prefix_cons, Hc, (IH _ H).
    by rewrite append_assoc.
Qed.

Lemma split_aux_sep (rest cur : string) :
  split_aux ", " (", " +:+ rest) cur 0 = cur :: split_aux ", " rest "" 0.
Proof.
  change (", " +:+ rest) with (String "," (String " " rest)).
  rewrite split_aux_cons, !prefix_cons. simpl.
  by destruct rest.
Qed.

Lemma split_sep_concat (names : list string) (cur : string) :
  names ≠ [] → Forall (λ n, no_comma n = true) names →
  split_aux ", " (String.concat ", " names) cur 0
  = match names with
    | [] => []
    | n :: names' => (cur +:+ n) :: names'
    end.
Proof.
  revert cur. induction names as [|n names IH]; intros cur Hne Hall; [done|].
  apply Forall_cons in Hall as [Hn Hall].
  destruct names as [|n2 names].
  - simpl. rewrite <- (append_nil_r n) at 1. by rewrite split_aux_piece.
  - change (String.concat ", " (n :: n2 :: names))
      with (n +:+ ", " +:+ String.concat ", " (n2 :: names)).
    rewrite (split_aux_piece _ _ _ Hn), split_aux_sep, (IH "" ltac:(done) Hall).
    reflexivity.
Qed.

Lemma split_ws_word (n cur : string) :
  no_space n = true → cur +:+ n ≠ "" → split_ws_aux n cur = [cur +:+ n].
Proof.
  revert cur. induction n as [|c n IH]; intros cur H Hne; simpl in *.
  - rewrite append_nil_r in *. by destruct (String.eqb_spec cur "").
  - apply andb_true_iff in H as [Hc H]. destruct (is_space c); [done|].
    rewrite IH; [by rewrite append_assoc | exact H | by rewrite append_assoc].
Qed.

Lemma no_comma_contains (n : string) :
  no_comma n = true → str_contains "," n = false.
Proof.
  induction n as [|c n IH]; [done|]. intros H.
  apply no_comma_head in H as [Hc H].
  change (str_contains "," (String c n))
    with (String.prefix "," (String c n) || str_contains "," n).
  by rewrite prefix_cons, Hc, (IH H).
Qed.

Lemma fmap_strip_id (l : list string) :
  Forall (λ n, no_space n = true) l → strip <$> l = l.
Proof.
  induction 1 as [|n l Hn _ IH]; [done|].
  rewrite fmap_cons. by rewrite (strip_id n Hn), IH.
Qed.

Lemma contains_sep (rest : string) : str_contains "," (", " +:+ rest) = true.
Proof.
  change (", " +:+ rest) with (String "," (String " " rest)).
  change (str_contains "," (String "," (String " " rest)))
    with (String.prefix "," (String "," (String " " rest))
          || str_contains "," (String " " rest)).
  rewrite prefix_cons. reflexivity.
Qed.

(** X24. The element list of names joined by ', ' is the list of the names,
    for names that are not empty and hold neither white space nor a comma: one
    name, without a comma, is read by the white-space split, several by the
    split at ', '. *)
Theorem parse_element_list_join (names : list string) :
  Forall (λ n, n ≠ "" ∧ no_space n = true ∧ no_comma n = true) names →
  parse_element_list (String.concat ", " names) = names.
Proof.
  intros Hall. unfold parse_element_list.
  assert (Hsp : Forall (λ n, no_space n = true) names)
    by (eapply Forall_impl; [exact Hall | by intros n (_ & ? & _)]).
  assert (Hco : Forall (λ n, no_comma n = true) names)
    by (eapply Forall_impl; [exact Hall | by intros n (_ & _ & ?)]).
  destruct names as [|n [|n2 names]].
  - reflexivity.
  - apply Forall_cons in Hall as [(Hne & Hs & Hc) _].
    change (String.concat ", " [n]) with n.
    rewrite (no_comma_contains n Hc). unfold split_ws.
    rewrite (split_ws_word n "" Hs Hne).
    change ("" +:+ n) with n. rewrite fmap_cons. by rewrite (strip_id n Hs).
  - change (String.concat ", " (n :: n2 :: names))
      with (n +:+ ", " +:+ String.concat ", " (n2 :: names)).
    rewrite (str_contains_app "," n _ (contains_sep _)).
    change (n +:+ ", " +:+ String.concat ", " (n2 :: names))
      with (String.concat ", " (n :: n2 :: names)).
    unfold split_sep. rewrite (split_sep_concat (n :: n2 :: names) "" ltac:(done) Hco).
    change ("" +:+ n) with n.
    by apply fmap_strip_id.
Qed.

Lemma parse_element_list_join_witness :
  parse_element_list "Fe, Cu, Zn" = ["Fe"; "Cu"; "Zn"].
Proof.
  apply (parse_element_list_join ["Fe"; "Cu"; "Zn"]).
  repeat (apply Forall_cons; split; [split; [discriminate | split; reflexivity]|]).
  constructor.
Defined.

Lemma split_aux_no_blank (s cur : string) :
  no_space s = true → split_aux ", " s cur 0 = [cur +:+ s].
Proof.
  revert cur. induction s as [|c s IH]; intros cur H.
  - by rewrite append_nil_r.
  - change (no_space (String c s)) with (negb (is_space c) && no_space s) in H.
    apply andb_true_iff in H as [Hc H].
    rewrite split_aux_cons, prefix_cons.
    assert (Hp : (if Ascii.eqb "," c then String.prefix " " s else false) = false).
    { destruct (Ascii.eqb "," c); [|done].
      destruct s as [|d s]; [done|]. rewrite prefix_cons.
      destruct (Ascii.eqb_spec " " d) as [<-|_]; [|done].
      change (no_space (String " " s)) with (negb (is_space " ") && no_space s) in H.
      discriminate. }
    rewrite Hp, (IH _ H). by rewrite append_assoc.
Qed.

(** X25. A list that holds a comma but no white space is taken as one
    element name: names separated by a comma alone are not split. *)
Theorem parse_element_list_no_blank (el : string) :
  no_space el = true → str_contains "," el = true →
  parse_element_list el = [el].
Proof.
  intros Hs Hc. unfold parse_element_list, split_sep. rewrite Hc.
  rewrite (split_aux_no_blank el "" Hs).
  change ("" +:+ el) with el. rewrite fmap_cons. by rewrite (strip_id el Hs).
Qed.

Lemma parse_element_list_no_blank_witness :
  parse_element_list "Fe,Cu" = ["Fe,Cu"].
Proof. apply parse_element_list_no_blank; reflexivity. Defined.

(** ** Names that get no model *)

Section NoModelFacts.

Variable get_para : ParameterTable.
Variable emission_line_all : string → list (string * Q).
Variable cs : string → Q → string → Q.
Variable compton_hints0 : gmap string Hint.
Variable elastic_hints0 : gmap string Hint.

Lemma setElementModel_unknown (ms : ModelSpectrum) (w : world) (ename : string) (ie : Q) :
  incident_energy ms = Some ie →
  ename ∉ k_line → ename ∉ l_line → ename ∉ m_line →
  setElementModel emission_line_all cs ename (ms, w) = (Ok None, (ms, w)).
Proof.
  intros Hie Hk Hl Hm.
  unfold setElementModel, bind, getattr, self, bind, ret, raise. simpl.
  rewrite Hie. simpl. unfold str_in.
  by rewrite (bool_decide_eq_false_2 _ Hk), (bool_decide_eq_false_2 _ Hl),
    (bool_decide_eq_false_2 _ Hm).
Qed.

Lemma setElementModel_none (ms : ModelSpectrum) (w : world) (ename : string) (ie : Q) :
  incident_energy ms = Some ie → gives_no_model cs ename ie →
  ∃ w', setElementModel emission_line_all cs ename (ms, w) = (Ok None, (ms, w'))
        ∧ heap w' = heap w.
Proof.
  intros Hie [Hin|(Hk & Hl & Hm)].
  - by apply (setElementModel_inactive emission_line_all cs ms w ename ie).
  - exists w. split; [|done]. by apply (setElementModel_unknown ms w ename ie).
Qed.

(** The loop of [model_spectrum] stops at a name that gets no model. *)
Lemma for_each_no_model (el : list string) (ms : ModelSpectrum) (w : world)
    (ename : string) (ie : Q) :
  ename ∈ el → incident_energy ms = Some ie → gives_no_model cs ename ie →
  is_ok (for_each el (λ ename,
           lift_w (emit STDOUT (MsgConstruct ename)) ;;
           do cur <- getattr self_mod "mod";
           do em <- setElementModel emission_line_all cs ename;
           do m <- lift_result (add cur em);
           set_self (set_mod m)) (ms, w)).1 = false.
Proof.
  intros Hel Hie Hno. revert ms w Hie.
  induction el as [|a el IH]; intros ms w Hie; [by apply elem_of_nil in Hel|].
  simpl. unfold bind at 1.
  match goal with |- context [match ?b (ms, w) with _ => _ end] =>
    destruct (b (ms, w)) as [[[]|x] [ms1 w1]] eqn:E end; [|done].
  apply elem_of_cons in Hel as [<-|Hel].
  - exfalso. apply bind_ok_inv in E as ([] & [ms2 w2] & H1 & E).
    injection H1 as <- <-.
    apply bind_ok_inv in E as (cur & [ms3 w3] & H2 & E).
    assert (ms3 = ms) as ->.
    { unfold getattr, bind, self in H2; simpl in H2.
      destruct (self_mod ms); [by injection H2 | discriminate]. }
    apply bind_ok_inv in E as (em & [ms4 w4] & H3 & E).
    destruct (setElementModel_none ms w3 ename ie Hie Hno) as (w' & Hs & _).
    rewrite Hs in H3. injection H3 as <- <- <-.
    apply bind_ok_inv in E as (m & s5 & H4 & _). discriminate.
  - apply (IH Hel). by apply (body_keeps_energy emission_line_all cs ie a ms w tt ms1 w1).
Qed.

(** X26. A name that is in none of the three lists (Tl_M is one: the M list
    spells it TL_M) gets no model, and silently: setElementModel returns
    None, logs nothing and changes nothing.  The composite cannot take None:
    model_spectrum on an instance whose element list holds such a name does
    not return. *)
Theorem model_spectrum_unknown_element (ms : ModelSpectrum) (w : world)
    (el : list string) (ename : string) (ie : Q) :
  ename ∉ k_line → ename ∉ l_line → ename ∉ m_line →
  incident_energy ms = Some ie → element_list ms = Some el → ename ∈ el →
  setElementModel emission_line_all cs ename (ms, w) = (Ok None, (ms, w))
  ∧ is_ok (model_spectrum emission_line_all cs (ms, w)).1 = false.
Proof.
  intros Hk Hl Hm Hie Hel Hin.
  split; [by apply (setElementModel_unknown ms w ename ie)|].
  unfold model_spectrum. unfold bind at 1. unfold getattr at 1, bind at 1, self.
  cbn [fst snd]. destruct (compton ms) as [c|]; [|done]. unfold ret at 1.
  unfold bind at 1. unfold getattr at 1, bind at 1, self.
  cbn [fst snd]. destruct (elastic ms) as [e|]; [|done]. unfold ret at 1.
  unfold bind at 1. unfold lift_result at 1. cbn [add].
  unfold bind at 1. unfold set_self at 1, modify at 1. cbn [fst snd].
  unfold bind at 1. unfold getattr at 1, bind at 1, self.
  cbn [fst snd element_list set_mod]. rewrite Hel. unfold ret at 1.
  apply (for_each_no_model el _ w ename ie Hin); [exact Hie|].
  right. done.
Qed.

End NoModelFacts.

Lemma model_spectrum_unknown_element_witness :
  is_ok (model_spectrum sample_lines sample_cs
           (set_element_list ["Tl_M"] (sample_instance (sample_table 12)).1,
            (sample_instance (sample_table 12)).2)).1 = false.
Proof.
  refine (proj2 (model_spectrum_unknown_element sample_lines sample_cs
                   _ _ ["Tl_M"] "Tl_M" 12 _ _ _ _ _ _)).
  - apply (bool_decide_unpack _). vm_compute. exact I.
  - apply (bool_decide_unpack _). vm_compute. exact I.
  - apply (bool_decide_unpack _). vm_compute. exact I.
  - vm_compute. reflexivity.
  - reflexivity.
  - apply elem_of_cons. by left.
Defined.

Section SelectFacts.

Variable get_para : ParameterTable.
Variable emission_line_all : string → list (string * Q).
Variable cs : string → Q → string → Q.
Variable compton_hints0 : gmap string Hint.
Variable elastic_hints0 : gmap string Hint.

Lemma select_fold_none (el : list string) (ms : ModelSpectrum) (w : world) (ie : Q)
    (acc : list string * list CModel) :
  incident_energy ms = Some ie →
  Forall (λ ename, gives_no_model cs ename ie) el →
  ∃ w',
    fold_m (λ acc ename,
        do e_model <- setElementModel emission_line_all cs ename;
        match e_model with
        | Some m => ret ((acc.1 ++ [ename])%list, (acc.2 ++ [m])%list)
        | None => ret acc
        end) el acc (ms, w) = (Ok acc, (ms, w'))
    ∧ heap w' = heap w.
Proof.
  intros Hie Hall. revert w. induction Hall as [|a el Ha _ IH]; intros w.
  - exists w. by split.
  - destruct (setElementModel_none emission_line_all cs ms w a ie Hie Ha)
      as (w1 & E1 & Hh1).
    destruct (IH w1) as (w' & E' & Hh').
    exists w'. split; [|by rewrite Hh'].
    simpl. unfold bind at 1. unfold bind at 1. rewrite E1. unfold ret at 1. exact E'.
Qed.

(** X27. The selection loop of get_linear_model passes over the names that
    get no model, where model_spectrum stops at them: on a well-formed table
    whose element list holds only names that are not excited at the incident
    energy or are in none of the three lists, the selection returns, with no
    name and no model, and the store is as it was. *)
Theorem get_linear_model_select_none (r : loc) (w : world) (nf : entry)
    (el : string) (sp : ParameterSpec) :
  well_formed get_para (heap w !!! r) →
  (heap w !!! r) !! "non_fitting_values" = Some nf →
  entry_get nf "element_list" = Some (PStr el) →
  (heap w !!! r) !! "coherent_sct_energy" = Some (Spec sp) →
  Forall (λ ename, gives_no_model cs ename (value sp)) (parse_element_list el) →
  ∃ w',
    get_linear_model_select get_para emission_line_all cs compton_hints0
                            elastic_hints0 r w = (Ok ([], []), w')
    ∧ heap w' = heap w.
Proof.
  intros Hwf Hnf Hel Hsp Hall.
  destruct (config_ok get_para compton_hints0 elastic_hints0 r w Hwf)
    as (ms & nf' & sp' & Hnf' & Hsp' & E & Hie & Hlist).
  rewrite Hnf in Hnf'. injection Hnf' as <-.
  rewrite Hsp in Hsp'. injection Hsp' as <-.
  rewrite Hel in Hlist, E.
  unfold get_linear_model_select. unfold bind at 1.
  unfold ModelSpectrum_init at 1. rewrite E.
  unfold bind at 1. unfold getattr at 1, bind at 1, self. cbn [fst snd].
  rewrite Hlist. unfold ret at 1.
  set (w1 := {| heap := heap w; logs := _ |}).
  destruct (select_fold_none (parse_element_list el) ms w1 (value sp) ([], []) Hie Hall)
    as (w' & E' & Hh').
  rewrite E'. exists w'. split; [done|]. by rewrite Hh'.
Qed.

End SelectFacts.

Lemma sample_well_formed (v : Q) : well_formed sample_get_para (sample_table v).
Proof.
  split; [|split].
  - eexists. split; [reflexivity|]. intros q. vm_compute. discriminate.
  - by eexists.
  - unfold compton_list. cbn [app].
    apply Forall_cons. split.
    { exists (sample_spec v). split; [reflexivity|].
      apply (bool_decide_unpack _). vm_compute. exact I. }
    repeat (apply Forall_cons; split;
            [exists (sample_spec 1); split;
             [reflexivity | apply (bool_decide_unpack _); vm_compute; exact I]|]).
    constructor.
Qed.

Lemma get_linear_model_select_none_witness :
  ∃ w',
    get_linear_model_select sample_get_para sample_lines sample_cs ∅ ∅ 1%positive
                            (sample_world (sample_table 5)) = (Ok ([], []), w').
Proof.
  destruct (get_linear_model_select_none sample_get_para sample_lines sample_cs ∅ ∅
              1%positive (sample_world (sample_table 5))
              (NonFit {[ "element_list" := PStr "Fe";
                         "energy_bound_low" := PNum 2.0;
                         "energy_bound_high" := PNum 10.0 ]})
              "Fe" (sample_spec 5)) as (w' & E & _).
  - apply sample_well_formed.
  - reflexivity.
  - reflexivity.
  - reflexivity.
  - change (parse_element_list "Fe") with ["Fe"].
    apply Forall_cons. split; [|constructor].
    left. left. split; [apply Fe_in_k_line | vm_compute; reflexivity].
  - exists w'. exact E.
Defined.

(** ** The width of a line *)




(** X29. With a Fano term that is not negative the width does not decrease
    with the centre, for centres that are not negative (so that the root is
    taken of a number that is not negative): a line at a higher energy is at
    least as wide. *)
Theorem get_sigma_monotone (fwhm_offset fwhm_fanoprime epsilon c1 c2 : R) :
  (0 <= epsilon)%R → (0 <= fwhm_fanoprime)%R → (0 <= c1)%R → (c1 <= c2)%R →
  (0 <= (fwhm_offset / (2 * sqrt (2 * ln 2))) ^ 2 + c1 * epsilon * fwhm_fanoprime)%R
  ∧ (get_sigma fwhm_offset fwhm_fanoprime epsilon c1
     <= get_sigma fwhm_offset fwhm_fanoprime epsilon c2)%R.
Proof.
  intros He Hf H1 Hc. split.
  { apply Rplus_le_le_0_compat; [apply pow2_ge_0|].
    apply Rmult_le_pos; [by apply Rmult_le_pos | exact Hf]. }
  unfold get_sigma. cbv zeta.
  apply sqrt_le_1_alt. apply Rplus_le_compat_l.
  rewrite !Rmult_assoc. apply Rmult_le_compat_r; [|exact Hc].
  by apply Rmult_le_pos.
Qed.

Lemma get_sigma_monotone_witness :
  (get_sigma 0.1 0.0001 2.96 6.4 <= get_sigma 0.1 0.0001 2.96 7.1)%R.
Proof. apply (get_sigma_monotone 0.1 0.0001 2.96 6.4 7.1); lra. Defined.
